(** * Carousel lifecycle of the portfolio page: a shallow embedding

    The development follows [src/script.js].  That file holds two
    generations of the page script; the carousel, viewport observer and
    fullscreen modal of the later, refactored generation (the second
    [initializeSingleCarousel], with [validateState], [pausedByFullscreen]
    and the transition-driven [advance]) are embedded in [Module Carousel]
    and [Module Page]; the timer-driven [startAuto] of the earlier
    generation is embedded in [Module CarouselV1].

    Conventions.
    - Time stamps and durations ([performance.now()], [setTimeout] delays,
      [pauseElapsed]) are rationals, in milliseconds.  The clock value is
      handed to every operation as its [now] argument.
    - A JavaScript variable that holds [null] or a handle is an [option];
      handles are positive, so the test [if (timer)] is [isSome].
    - The browser side an instance talks to is part of the state: the
      pending [setTimeout] callbacks, the pending animation frames, the
      [transitionend] listeners registered on the progress fill and the
      inline style of the fill.  A callback is stored as data naming the
      closure ([InitTimer], [Fallback c]); the closure bodies are the
      functions [init_cb], [fallback_cb], [raf_cb] and [advance].
    - Every run of [startAuto] allocates a fresh [advanced] flag captured
      by its closures; the flags live in [advancedCells], indexed by the
      activation (cycle) number.
    - DOM calls are taken not to throw, so the [try]/[catch] wrappers of
      the source are transparent. *)

From Stdlib Require Import ZArith QArith Qminmax List Bool Lia Lqa.
From Stdlib Require String.
From Stdlib Require Qround.
Import ListNotations.

Local Open Scope Z_scope.

(** ** Small helpers shared by the models *)

Definition isSome {A : Type} (o : option A) : bool :=
  match o with Some _ => true | None => false end.

(** [Set.prototype.add] and [Set.prototype.delete] on a set of handles,
    kept in insertion order as a JavaScript [Set] keeps it. *)
Definition set_add (x : nat) (l : list nat) : list nat :=
  if existsb (Nat.eqb x) l then l else l ++ [x].

Definition set_delete (x : nat) (l : list nat) : list nat :=
  filter (fun y => negb (Nat.eqb x y)) l.

(** [Math.max(lo, Math.min(hi, x))]. *)
Definition clamp (lo hi x : Q) : Q := Qmax lo (Qmin hi x).

(** The remainder operator [%] of JavaScript truncates towards zero. *)
Definition js_rem (a b : Z) : Z := Z.rem a b.

(** Inline style of the progress fill.  [style.width] is either a
    percentage written by the script or the computed width that [stopAuto]
    reads back and freezes. *)
Inductive Width : Type :=
| WPct (p : Q)
| WComputed.

Record Fill : Type := mkFill {
  f_transition : option Q;   (* [None]: "none"; [Some r]: "width r ms linear" *)
  f_width : Width
}.

Inductive TimeoutCb : Type :=
| InitTimer              (* the settle timer armed by [initialize] *)
| Fallback (c : nat).    (* the fallback timer of cycle [c] *)

Record Timeout : Type := mkTimeout {
  t_id : nat;
  t_due : Q;
  t_cb : TimeoutCb
}.

Inductive CleanupFn : Type :=
| DisconnectResize.

Module Carousel.

(** The closure variables of [initializeSingleCarousel], then the browser
    state the closures act on. *)
Record Instance : Type := mkInstance {
  nslides : Z;                       (* slides.length *)
  progressFill : option Fill;        (* [None] when the element is absent *)
  index : Z;
  timer : option nat;
  animationFrame : option nat;
  startTs : Q;
  pauseElapsed : Q;
  paused : bool;
  viewportPaused : bool;
  initialized : bool;
  destroyed : bool;
  pausedByFullscreen : bool;
  shouldAutoStart : bool;
  isInViewport : bool;
  progressEndHandler : option nat;
  cleanupFns : list CleanupFn;
  cleanupTimeouts : list nat;
  cleanupRafs : list nat;
  advancedCells : list bool;         (* the [advanced] flag of each cycle *)
  listeners : list nat;              (* transitionend listeners, by cycle *)
  timeouts : list Timeout;           (* pending setTimeout callbacks *)
  rafs : list nat;                   (* pending requestAnimationFrame ids *)
  nextTimeoutId : nat;
  nextRafId : nat;
  resizeObserved : bool
}.

Definition set_progressFill (x : option Fill) (s : Instance) : Instance :=
  mkInstance
    (nslides s) x (index s) (timer s) (animationFrame s) (startTs s)
    (pauseElapsed s) (paused s) (viewportPaused s) (initialized s)
    (destroyed s) (pausedByFullscreen s) (shouldAutoStart s) (isInViewport s)
    (progressEndHandler s) (cleanupFns s) (cleanupTimeouts s) (cleanupRafs s)
    (advancedCells s) (listeners s) (timeouts s) (rafs s) (nextTimeoutId s)
    (nextRafId s) (resizeObserved s).

Definition set_index (x : Z) (s : Instance) : Instance :=
  mkInstance
    (nslides s) (progressFill s) x (timer s) (animationFrame s) (startTs s)
    (pauseElapsed s) (paused s) (viewportPaused s) (initialized s)
    (destroyed s) (pausedByFullscreen s) (shouldAutoStart s) (isInViewport s)
    (progressEndHandler s) (cleanupFns s) (cleanupTimeouts s) (cleanupRafs s)
    (advancedCells s) (listeners s) (timeouts s) (rafs s) (nextTimeoutId s)
    (nextRafId s) (resizeObserved s).

Definition set_timer (x : option nat) (s : Instance) : Instance :=
  mkInstance
    (nslides s) (progressFill s) (index s) x (animationFrame s) (startTs s)
    (pauseElapsed s) (paused s) (viewportPaused s) (initialized s)
    (destroyed s) (pausedByFullscreen s) (shouldAutoStart s) (isInViewport s)
    (progressEndHandler s) (cleanupFns s) (cleanupTimeouts s) (cleanupRafs s)
    (advancedCells s) (listeners s) (timeouts s) (rafs s) (nextTimeoutId s)
    (nextRafId s) (resizeObserved s).

Definition set_animationFrame (x : option nat) (s : Instance) : Instance :=
  mkInstance
    (nslides s) (progressFill s) (index s) (timer s) x (startTs s)
    (pauseElapsed s) (paused s) (viewportPaused s) (initialized s)
    (destroyed s) (pausedByFullscreen s) (shouldAutoStart s) (isInViewport s)
    (progressEndHandler s) (cleanupFns s) (cleanupTimeouts s) (cleanupRafs s)
    (advancedCells s) (listeners s) (timeouts s) (rafs s) (nextTimeoutId s)
    (nextRafId s) (resizeObserved s).

Definition set_startTs (x : Q) (s : Instance) : Instance :=
  mkInstance
    (nslides s) (progressFill s) (index s) (timer s) (animationFrame s) x
    (pauseElapsed s) (paused s) (viewportPaused s) (initialized s)
    (destroyed s) (pausedByFullscreen s) (shouldAutoStart s) (isInViewport s)
    (progressEndHandler s) (cleanupFns s) (cleanupTimeouts s) (cleanupRafs s)
    (advancedCells s) (listeners s) (timeouts s) (rafs s) (nextTimeoutId s)
    (nextRafId s) (resizeObserved s).

Definition set_pauseElapsed (x : Q) (s : Instance) : Instance :=
  mkInstance
    (nslides s) (progressFill s) (index s) (timer s) (animationFrame s)
    (startTs s) x (paused s) (viewportPaused s) (initialized s) (destroyed s)
    (pausedByFullscreen s) (shouldAutoStart s) (isInViewport s)
    (progressEndHandler s) (cleanupFns s) (cleanupTimeouts s) (cleanupRafs s)
    (advancedCells s) (listeners s) (timeouts s) (rafs s) (nextTimeoutId s)
    (nextRafId s) (resizeObserved s).

Definition set_paused (x : bool) (s : Instance) : Instance :=
  mkInstance
    (nslides s) (progressFill s) (index s) (timer s) (animationFrame s)
    (startTs s) (pauseElapsed s) x (viewportPaused s) (initialized s)
    (destroyed s) (pausedByFullscreen s) (shouldAutoStart s) (isInViewport s)
    (progressEndHandler s) (cleanupFns s) (cleanupTimeouts s) (cleanupRafs s)
    (advancedCells s) (listeners s) (timeouts s) (rafs s) (nextTimeoutId s)
    (nextRafId s) (resizeObserved s).

Definition set_viewportPaused (x : bool) (s : Instance) : Instance :=
  mkInstance
    (nslides s) (progressFill s) (index s) (timer s) (animationFrame s)
    (startTs s) (pauseElapsed s) (paused s) x (initialized s) (destroyed s)
    (pausedByFullscreen s) (shouldAutoStart s) (isInViewport s)
    (progressEndHandler s) (cleanupFns s) (cleanupTimeouts s) (cleanupRafs s)
    (advancedCells s) (listeners s) (timeouts s) (rafs s) (nextTimeoutId s)
    (nextRafId s) (resizeObserved s).

Definition set_initialized (x : bool) (s : Instance) : Instance :=
  mkInstance
    (nslides s) (progressFill s) (index s) (timer s) (animationFrame s)
    (startTs s) (pauseElapsed s) (paused s) (viewportPaused s) x (destroyed s)
    (pausedByFullscreen s) (shouldAutoStart s) (isInViewport s)
    (progressEndHandler s) (cleanupFns s) (cleanupTimeouts s) (cleanupRafs s)
    (advancedCells s) (listeners s) (timeouts s) (rafs s) (nextTimeoutId s)
    (nextRafId s) (resizeObserved s).

Definition set_destroyed (x : bool) (s : Instance) : Instance :=
  mkInstance
    (nslides s) (progressFill s) (index s) (timer s) (animationFrame s)
    (startTs s) (pauseElapsed s) (paused s) (viewportPaused s) (initialized s)
    x (pausedByFullscreen s) (shouldAutoStart s) (isInViewport s)
    (progressEndHandler s) (cleanupFns s) (cleanupTimeouts s) (cleanupRafs s)
    (advancedCells s) (listeners s) (timeouts s) (rafs s) (nextTimeoutId s)
    (nextRafId s) (resizeObserved s).

Definition set_pausedByFullscreen (x : bool) (s : Instance) : Instance :=
  mkInstance
    (nslides s) (progressFill s) (index s) (timer s) (animationFrame s)
    (startTs s) (pauseElapsed s) (paused s) (viewportPaused s) (initialized s)
    (destroyed s) x (shouldAutoStart s) (isInViewport s)
    (progressEndHandler s) (cleanupFns s) (cleanupTimeouts s) (cleanupRafs s)
    (advancedCells s) (listeners s) (timeouts s) (rafs s) (nextTimeoutId s)
    (nextRafId s) (resizeObserved s).

Definition set_shouldAutoStart (x : bool) (s : Instance) : Instance :=
  mkInstance
    (nslides s) (progressFill s) (index s) (timer s) (animationFrame s)
    (startTs s) (pauseElapsed s) (paused s) (viewportPaused s) (initialized s)
    (destroyed s) (pausedByFullscreen s) x (isInViewport s)
    (progressEndHandler s) (cleanupFns s) (cleanupTimeouts s) (cleanupRafs s)
    (advancedCells s) (listeners s) (timeouts s) (rafs s) (nextTimeoutId s)
    (nextRafId s) (resizeObserved s).

Definition set_isInViewport (x : bool) (s : Instance) : Instance :=
  mkInstance
    (nslides s) (progressFill s) (index s) (timer s) (animationFrame s)
    (startTs s) (pauseElapsed s) (paused s) (viewportPaused s) (initialized s)
    (destroyed s) (pausedByFullscreen s) (shouldAutoStart s) x
    (progressEndHandler s) (cleanupFns s) (cleanupTimeouts s) (cleanupRafs s)
    (advancedCells s) (listeners s) (timeouts s) (rafs s) (nextTimeoutId s)
    (nextRafId s) (resizeObserved s).

Definition set_progressEndHandler (x : option nat) (s : Instance) : Instance :=
  mkInstance
    (nslides s) (progressFill s) (index s) (timer s) (animationFrame s)
    (startTs s) (pauseElapsed s) (paused s) (viewportPaused s) (initialized s)
    (destroyed s) (pausedByFullscreen s) (shouldAutoStart s) (isInViewport s)
    x (cleanupFns s) (cleanupTimeouts s) (cleanupRafs s) (advancedCells s)
    (listeners s) (timeouts s) (rafs s) (nextTimeoutId s) (nextRafId s)
    (resizeObserved s).

Definition set_cleanupFns (x : list CleanupFn) (s : Instance) : Instance :=
  mkInstance
    (nslides s) (progressFill s) (index s) (timer s) (animationFrame s)
    (startTs s) (pauseElapsed s) (paused s) (viewportPaused s) (initialized s)
    (destroyed s) (pausedByFullscreen s) (shouldAutoStart s) (isInViewport s)
    (progressEndHandler s) x (cleanupTimeouts s) (cleanupRafs s)
    (advancedCells s) (listeners s) (timeouts s) (rafs s) (nextTimeoutId s)
    (nextRafId s) (resizeObserved s).

Definition set_cleanupTimeouts (x : list nat) (s : Instance) : Instance :=
  mkInstance
    (nslides s) (progressFill s) (index s) (timer s) (animationFrame s)
    (startTs s) (pauseElapsed s) (paused s) (viewportPaused s) (initialized s)
    (destroyed s) (pausedByFullscreen s) (shouldAutoStart s) (isInViewport s)
    (progressEndHandler s) (cleanupFns s) x (cleanupRafs s) (advancedCells s)
    (listeners s) (timeouts s) (rafs s) (nextTimeoutId s) (nextRafId s)
    (resizeObserved s).

Definition set_cleanupRafs (x : list nat) (s : Instance) : Instance :=
  mkInstance
    (nslides s) (progressFill s) (index s) (timer s) (animationFrame s)
    (startTs s) (pauseElapsed s) (paused s) (viewportPaused s) (initialized s)
    (destroyed s) (pausedByFullscreen s) (shouldAutoStart s) (isInViewport s)
    (progressEndHandler s) (cleanupFns s) (cleanupTimeouts s) x
    (advancedCells s) (listeners s) (timeouts s) (rafs s) (nextTimeoutId s)
    (nextRafId s) (resizeObserved s).

Definition set_advancedCells (x : list bool) (s : Instance) : Instance :=
  mkInstance
    (nslides s) (progressFill s) (index s) (timer s) (animationFrame s)
    (startTs s) (pauseElapsed s) (paused s) (viewportPaused s) (initialized s)
    (destroyed s) (pausedByFullscreen s) (shouldAutoStart s) (isInViewport s)
    (progressEndHandler s) (cleanupFns s) (cleanupTimeouts s) (cleanupRafs s)
    x (listeners s) (timeouts s) (rafs s) (nextTimeoutId s) (nextRafId s)
    (resizeObserved s).

Definition set_listeners (x : list nat) (s : Instance) : Instance :=
  mkInstance
    (nslides s) (progressFill s) (index s) (timer s) (animationFrame s)
    (startTs s) (pauseElapsed s) (paused s) (viewportPaused s) (initialized s)
    (destroyed s) (pausedByFullscreen s) (shouldAutoStart s) (isInViewport s)
    (progressEndHandler s) (cleanupFns s) (cleanupTimeouts s) (cleanupRafs s)
    (advancedCells s) x (timeouts s) (rafs s) (nextTimeoutId s) (nextRafId s)
    (resizeObserved s).

Definition set_timeouts (x : list Timeout) (s : Instance) : Instance :=
  mkInstance
    (nslides s) (progressFill s) (index s) (timer s) (animationFrame s)
    (startTs s) (pauseElapsed s) (paused s) (viewportPaused s) (initialized s)
    (destroyed s) (pausedByFullscreen s) (shouldAutoStart s) (isInViewport s)
    (progressEndHandler s) (cleanupFns s) (cleanupTimeouts s) (cleanupRafs s)
    (advancedCells s) (listeners s) x (rafs s) (nextTimeoutId s) (nextRafId s)
    (resizeObserved s).

Definition set_rafs (x : list nat) (s : Instance) : Instance :=
  mkInstance
    (nslides s) (progressFill s) (index s) (timer s) (animationFrame s)
    (startTs s) (pauseElapsed s) (paused s) (viewportPaused s) (initialized s)
    (destroyed s) (pausedByFullscreen s) (shouldAutoStart s) (isInViewport s)
    (progressEndHandler s) (cleanupFns s) (cleanupTimeouts s) (cleanupRafs s)
    (advancedCells s) (listeners s) (timeouts s) x (nextTimeoutId s)
    (nextRafId s) (resizeObserved s).

Definition set_nextTimeoutId (x : nat) (s : Instance) : Instance :=
  mkInstance
    (nslides s) (progressFill s) (index s) (timer s) (animationFrame s)
    (startTs s) (pauseElapsed s) (paused s) (viewportPaused s) (initialized s)
    (destroyed s) (pausedByFullscreen s) (shouldAutoStart s) (isInViewport s)
    (progressEndHandler s) (cleanupFns s) (cleanupTimeouts s) (cleanupRafs s)
    (advancedCells s) (listeners s) (timeouts s) (rafs s) x (nextRafId s)
    (resizeObserved s).

Definition set_nextRafId (x : nat) (s : Instance) : Instance :=
  mkInstance
    (nslides s) (progressFill s) (index s) (timer s) (animationFrame s)
    (startTs s) (pauseElapsed s) (paused s) (viewportPaused s) (initialized s)
    (destroyed s) (pausedByFullscreen s) (shouldAutoStart s) (isInViewport s)
    (progressEndHandler s) (cleanupFns s) (cleanupTimeouts s) (cleanupRafs s)
    (advancedCells s) (listeners s) (timeouts s) (rafs s) (nextTimeoutId s) x
    (resizeObserved s).

Definition set_resizeObserved (x : bool) (s : Instance) : Instance :=
  mkInstance
    (nslides s) (progressFill s) (index s) (timer s) (animationFrame s)
    (startTs s) (pauseElapsed s) (paused s) (viewportPaused s) (initialized s)
    (destroyed s) (pausedByFullscreen s) (shouldAutoStart s) (isInViewport s)
    (progressEndHandler s) (cleanupFns s) (cleanupTimeouts s) (cleanupRafs s)
    (advancedCells s) (listeners s) (timeouts s) (rafs s) (nextTimeoutId s)
    (nextRafId s) x.

Definition intervalMs : Q := 5000.

(** *** Browser primitives used by the closures *)

Definition clearTimeout (id : nat) (s : Instance) : Instance :=
  set_timeouts (filter (fun t => negb (Nat.eqb id (t_id t))) (timeouts s)) s.

Definition cancelAnimationFrame (id : nat) (s : Instance) : Instance :=
  set_rafs (set_delete id (rafs s)) s.

Definition removeEventListener (c : nat) (s : Instance) : Instance :=
  set_listeners (set_delete c (listeners s)) s.

Definition addEventListener (c : nat) (s : Instance) : Instance :=
  set_listeners (set_add c (listeners s)) s.

(** [setTimeout(cb, delay)] called at [now]; the handle is returned with
    the new state. *)
Definition setTimeout (cb : TimeoutCb) (now delay : Q) (s : Instance)
  : nat * Instance :=
  let id := nextTimeoutId s in
  (id, set_nextTimeoutId (S id)
         (set_timeouts (timeouts s ++ [mkTimeout id (now + delay) cb]) s)).

Definition requestAnimationFrame (s : Instance) : nat * Instance :=
  let id := nextRafId s in
  (id, set_nextRafId (S id) (set_rafs (rafs s ++ [id]) s)).

(** The [advanced] flag of cycle [c]. *)
Definition advanced (c : nat) (s : Instance) : bool :=
  nth c (advancedCells s) false.

Fixpoint list_set {A : Type} (n : nat) (x : A) (l : list A) : list A :=
  match l, n with
  | [], _ => []
  | _ :: l', O => x :: l'
  | y :: l', S n' => y :: list_set n' x l'
  end.

Definition set_advanced (c : nat) (v : bool) (s : Instance) : Instance :=
  set_advancedCells (list_set c v (advancedCells s)) s.

(** [progressFill.style.transition = "none"; progressFill.style.width =
    w], when the element exists. *)
Definition fill_freeze (w : Width) (s : Instance) : Instance :=
  match progressFill s with
  | Some _ => set_progressFill (Some (mkFill None w)) s
  | None => s
  end.

(** *** The closures of [initializeSingleCarousel] *)

Definition validateState (s : Instance) : bool := negb (destroyed s).

Definition setActive (i : Z) (resetProgress : bool) (s : Instance) : Instance :=
  if negb (validateState s) then s else
  let newIndex := js_rem (i + nslides s) (nslides s) in
  if (newIndex =? index s) && negb resetProgress then s else
  let s := set_index newIndex s in
  if resetProgress then fill_freeze (WPct 0) s else s.

(** The three handle releases shared by [stopAuto] and [advance]. *)
Definition drop_endHandler (s : Instance) : Instance :=
  match progressFill s, progressEndHandler s with
  | Some _, Some h => set_progressEndHandler None (removeEventListener h s)
  | _, _ => s
  end.

Definition drop_timer (s : Instance) : Instance :=
  match timer s with
  | Some t =>
      set_timer None
        (set_cleanupTimeouts (set_delete t (cleanupTimeouts s))
           (clearTimeout t s))
  | None => s
  end.

Definition drop_animationFrame (s : Instance) : Instance :=
  match animationFrame s with
  | Some r =>
      set_animationFrame None
        (set_cleanupRafs (set_delete r (cleanupRafs s))
           (cancelAnimationFrame r s))
  | None => s
  end.

Definition stopAuto (s : Instance) : Instance :=
  if negb (validateState s) then s else
  let s := drop_endHandler s in
  let s := drop_timer s in
  let s := drop_animationFrame s in
  fill_freeze WComputed s.

Definition completeProgressReset (s : Instance) : Instance :=
  if negb (validateState s) then s else
  let s := stopAuto s in
  let s := fill_freeze (WPct 0) s in
  set_startTs 0 (set_pauseElapsed 0 s).

Definition next (s : Instance) : Instance :=
  if negb (validateState s) then s else
  let s := completeProgressReset s in
  setActive (index s + 1) true s.

Definition prev (s : Instance) : Instance :=
  if negb (validateState s) then s else
  let s := completeProgressReset s in
  setActive (index s - 1) true s.

(** [Math.max(16, intervalMs - pauseElapsed)]. *)
Definition remaining (s : Instance) : Q :=
  Qmax 16 (intervalMs - pauseElapsed s).

(** [Math.max(0, Math.min(1, pauseElapsed / intervalMs))]. *)
Definition currentPct (s : Instance) : Q :=
  clamp 0 1 (pauseElapsed s / intervalMs).

Definition startAuto (now : Q) (s : Instance) : Instance :=
  if negb (validateState s) || viewportPaused s then s else
  let s := stopAuto s in
  let s :=
    match progressFill s with
    | Some _ =>
        let s :=
          set_progressFill
            (Some (mkFill (Some (remaining s)) (WPct (currentPct s * 100)))) s in
        (* let advanced = false; const advance = ... *)
        let c := length (advancedCells s) in
        let s := set_advancedCells (advancedCells s ++ [false]) s in
        let s := addEventListener c (set_progressEndHandler (Some c) s) in
        let '(r, s) := requestAnimationFrame s in
        let s := set_cleanupRafs (set_add r (cleanupRafs s))
                   (set_animationFrame (Some r) s) in
        let '(t, s) := setTimeout (Fallback c) now (remaining s + 200) s in
        set_cleanupTimeouts (set_add t (cleanupTimeouts s))
          (set_timer (Some t) s)
    | None => s
    end in
  set_startTs (now - pauseElapsed s) s.

(** The closure [advance] of cycle [c]. *)
Definition advance (c : nat) (now : Q) (s : Instance) : Instance :=
  if advanced c s then s else
  if viewportPaused s || destroyed s || paused s then s else
  let s := set_advanced c true s in
  let s := drop_endHandler s in
  let s := drop_timer s in
  let s := drop_animationFrame s in
  let s := set_pauseElapsed 0 s in
  let s := setActive (index s + 1) true s in
  startAuto now s.

(** [progressEndHandler] of cycle [c]; [onWidth] says that the event is the
    [width] transition of the fill itself. *)
Definition endHandler (c : nat) (onWidth : bool) (now : Q) (s : Instance)
  : Instance :=
  if onWidth then advance c now s else s.

(** The animation-frame callback of [startAuto]. *)
Definition raf_cb (s : Instance) : Instance :=
  let raf := animationFrame s in
  let s :=
    match progressFill s with
    | Some f =>
        if negb (viewportPaused s) && negb (destroyed s) && negb (paused s)
        then set_progressFill (Some (mkFill (f_transition f) (WPct 100))) s
        else s
    | None => s
    end in
  let s :=
    match raf with
    | Some r => set_cleanupRafs (set_delete r (cleanupRafs s)) s
    | None => s
    end in
  set_animationFrame None s.

(** The fallback timer callback of cycle [c]. *)
Definition fallback_cb (c : nat) (now : Q) (s : Instance) : Instance :=
  let s :=
    if negb (viewportPaused s) && negb (destroyed s) && negb (paused s)
       && negb (advanced c s)
    then advance c now s else s in
  let s :=
    match timer s with
    | Some t => set_cleanupTimeouts (set_delete t (cleanupTimeouts s)) s
    | None => s
    end in
  set_timer None s.

(** The settle timer callback of [initialize]; [id] is its own handle
    [initTimer]. *)
Definition init_cb (id : nat) (now : Q) (s : Instance) : Instance :=
  let s :=
    if negb (viewportPaused s) && negb (destroyed s) && negb (paused s)
    then startAuto now s else s in
  set_cleanupTimeouts (set_delete id (cleanupTimeouts s)) s.

Definition pauseAutoplay (now : Q) (s : Instance) : Instance :=
  if negb (validateState s) || paused s then s else
  let s := set_paused true s in
  (* startTs ? now - startTs : 0 *)
  let elapsed := (if Qeq_bool (startTs s) 0 then 0 else now - startTs s)%Q in
  let s := set_pauseElapsed (clamp 0 intervalMs elapsed) s in
  let s := stopAuto s in
  fill_freeze (WPct (currentPct s * 100)) s.

Definition resumeAutoplay (now : Q) (s : Instance) : Instance :=
  if negb (validateState s) || negb (paused s) || viewportPaused s then s else
  startAuto now (set_paused false s).

Definition pauseForViewport (now : Q) (s : Instance) : Instance :=
  if negb (validateState s) || viewportPaused s then s else
  let s := set_isInViewport false (set_viewportPaused true s) in
  let s :=
    if isSome (timer s) && negb (paused s)
    then set_pauseElapsed (clamp 0 intervalMs (now - startTs s)) s
    else s in
  let s := stopAuto s in
  fill_freeze (WPct (currentPct s * 100)) s.

Definition resumeFromViewportPause (now : Q) (s : Instance) : Instance :=
  if negb (validateState s) then s else
  let s := set_isInViewport true (set_viewportPaused false s) in
  if pausedByFullscreen s then s else
  if shouldAutoStart s then
    let s := set_paused false (set_shouldAutoStart false s) in
    startAuto now (completeProgressReset s)
  else if negb (paused s) then startAuto now s
  else s.

Definition initialize (now : Q) (s : Instance) : Instance :=
  if negb (validateState s) || initialized s then s else
  let s := set_isInViewport true (set_initialized true s) in
  if 0 <? nslides s then
    let s := setActive 0 true (completeProgressReset s) in
    if pausedByFullscreen s then set_shouldAutoStart true s else
    let '(initTimer, s) := setTimeout InitTimer now 100 s in
    set_cleanupTimeouts (set_add initTimer (cleanupTimeouts s)) s
  else s.

Definition onFullscreenOpen (now : Q) (s : Instance) : Instance :=
  if negb (validateState s) then s else
  let s := set_pausedByFullscreen true s in
  if negb (initialized s)
  then set_shouldAutoStart true (set_paused true s)
  else pauseAutoplay now s.

Definition onFullscreenClose (now : Q) (s : Instance) : Instance :=
  if negb (validateState s) then s else
  let s := set_pausedByFullscreen false s in
  if initialized s && isInViewport s then
    let s := set_shouldAutoStart false (set_paused false s) in
    startAuto now (completeProgressReset s)
  else set_shouldAutoStart true (set_paused false s).

Definition resetProgress (s : Instance) : Instance :=
  if negb (validateState s) then s else fill_freeze (WPct 0) s.

(** The tail shared by the click and keyboard handlers: restart autoplay
    unless a pause holds. *)
Definition restartUnlessPaused (now : Q) (s : Instance) : Instance :=
  if negb (paused s) && negb (viewportPaused s) then startAuto now s
  else if paused s then resetProgress s
  else s.

Definition onNextClick (now : Q) (s : Instance) : Instance :=
  if negb (validateState s) then s else restartUnlessPaused now (next s).

Definition onPrevClick (now : Q) (s : Instance) : Instance :=
  if negb (validateState s) then s else restartUnlessPaused now (prev s).

Definition onDotClick (idx : nat) (now : Q) (s : Instance) : Instance :=
  if negb (validateState s) then s else
  restartUnlessPaused now
    (setActive (Z.of_nat idx) true (completeProgressReset s)).

Inductive Key : Type := ArrowRight | ArrowLeft | OtherKey.

Definition onKeydown (k : Key) (now : Q) (s : Instance) : Instance :=
  if negb (validateState s) then s else
  match k with
  | ArrowRight => restartUnlessPaused now (next s)
  | ArrowLeft => restartUnlessPaused now (prev s)
  | OtherKey => s
  end.

(** Click on the image: [rightHalf] is [e.clientX >= mid]. *)
Definition onViewportClick (rightHalf : bool) (now : Q) (s : Instance)
  : Instance :=
  if negb (validateState s) then s else
  restartUnlessPaused now (if rightHalf then next s else prev s).

Definition run_cleanupFn (f : CleanupFn) (s : Instance) : Instance :=
  match f with
  | DisconnectResize => set_resizeObserved false s
  end.

Definition cleanup (s : Instance) : Instance :=
  if destroyed s then s else
  let s := set_destroyed true s in
  let s := stopAuto s in
  let s := fold_left (fun s f => run_cleanupFn f s) (cleanupFns s) s in
  let s := set_cleanupFns [] s in
  let s := fold_left (fun s id => cancelAnimationFrame id s) (cleanupRafs s) s in
  let s := set_cleanupRafs [] s in
  let s := fold_left (fun s id => clearTimeout id s) (cleanupTimeouts s) s in
  let s := set_cleanupTimeouts [] s in
  set_index 0
    (set_pauseElapsed 0
       (set_viewportPaused false (set_paused false (set_initialized false s)))).

(** The instance as [initializeSingleCarousel] leaves it: [n] slides, the
    progress fill present or not (its inline style still empty: no
    transition of the script's, the width the style sheet computes), the
    resize observer connected.  Handles start at 1. *)
Definition create (n : Z) (hasFill : bool) : Instance :=
  mkInstance n (if hasFill then Some (mkFill None WComputed) else None)
    0 None None 0 0 false false false false false false false None
    [DisconnectResize] [] [] [] [] [] [] 1%nat 1%nat true.

(** *** What the browser and the page do to an instance *)

(** A pending timeout runs once its delay has passed. *)
Definition fireTimeout (id : nat) (now : Q) (s : Instance) : Instance :=
  match find (fun t => Nat.eqb id (t_id t)) (timeouts s) with
  | Some t =>
      if Qle_bool (t_due t) now then
        let s := clearTimeout id s in
        match t_cb t with
        | InitTimer => init_cb id now s
        | Fallback c => fallback_cb c now s
        end
      else s
  | None => s
  end.

Definition fireFrame (id : nat) (s : Instance) : Instance :=
  if existsb (Nat.eqb id) (rafs s)
  then raf_cb (cancelAnimationFrame id s)
  else s.

(** A [transitionend] event reaching the fill: every listener registered
    at dispatch time and still registered when its turn comes is removed
    (they are registered with [once]) and called. *)
Definition dispatchTransitionEnd (onWidth : bool) (now : Q) (s : Instance)
  : Instance :=
  fold_left
    (fun s c =>
       if existsb (Nat.eqb c) (listeners s)
       then endHandler c onWidth now (removeEventListener c s)
       else s)
    (listeners s) s.

Inductive Event : Type :=
| EvTimeout (id : nat)
| EvFrame (id : nat)
| EvTransitionEnd (onWidth : bool)
| EvNextClick
| EvPrevClick
| EvDotClick (idx : nat)
| EvKeydown (k : Key)
| EvViewportClick (rightHalf : bool)
| CallPauseAutoplay
| CallResumeAutoplay
| CallNext
| CallPrev
| CallSetActive (i : Z) (resetProgress : bool)
| CallInitialize
| CallPauseForViewport
| CallResumeFromViewportPause
| CallOnFullscreenOpen
| CallOnFullscreenClose
| CallCleanup.

Definition step (now : Q) (e : Event) (s : Instance) : Instance :=
  match e with
  | EvTimeout id => fireTimeout id now s
  | EvFrame id => fireFrame id s
  | EvTransitionEnd w => dispatchTransitionEnd w now s
  | EvNextClick => onNextClick now s
  | EvPrevClick => onPrevClick now s
  | EvDotClick idx => onDotClick idx now s
  | EvKeydown k => onKeydown k now s
  | EvViewportClick r => onViewportClick r now s
  | CallPauseAutoplay => pauseAutoplay now s
  | CallResumeAutoplay => resumeAutoplay now s
  | CallNext => next s
  | CallPrev => prev s
  | CallSetActive i r => setActive i r s
  | CallInitialize => initialize now s
  | CallPauseForViewport => pauseForViewport now s
  | CallResumeFromViewportPause => resumeFromViewportPause now s
  | CallOnFullscreenOpen => onFullscreenOpen now s
  | CallOnFullscreenClose => onFullscreenClose now s
  | CallCleanup => cleanup s
  end.

(** A trace is a list of events with the clock value at which each one is
    processed. *)
Fixpoint run (tr : list (Q * Event)) (s : Instance) : Instance :=
  match tr with
  | [] => s
  | (now, e) :: tr' => run tr' (step now e s)
  end.

End Carousel.

(** ** The earlier generation of the carousel: timer-driven autoplay

    Only the part that schedules the auto-advance is embedded: there the
    slide changes when a single [setTimeout] of [remaining] milliseconds
    runs out. *)

Module CarouselV1.

Inductive TimerCb : Type :=
| AutoAdvance      (* the timer armed by [startAuto] *)
| Settle           (* the 100ms timer of [initialize] *)
| HoverExit.       (* the 60ms timer of [onLeave] *)

Record Pending : Type := mkPending {
  p_id : nat;
  p_due : Q;
  p_cb : TimerCb
}.

Record Instance : Type := mkInstance {
  nslides : Z;
  progressFill : option Fill;
  index : Z;
  timer : option nat;
  startTs : Q;
  pauseElapsed : Q;
  paused : bool;
  hoverExitTO : option nat;
  viewportPaused : bool;
  initialized : bool;
  timeouts : list Pending;
  frames : nat;              (* animation frames requested and not yet run *)
  nextTimeoutId : nat
}.

Definition intervalMs : Q := 5000.

Definition setActive (i : Z) (s : Instance) : Instance :=
  let index' := js_rem (i + nslides s) (nslides s) in
  mkInstance (nslides s)
    (match progressFill s with
     | Some f =>
         if negb (paused s) && negb (viewportPaused s)
         then Some (mkFill None (WPct 0)) else Some f
     | None => None
     end)
    index' (timer s) (startTs s) (pauseElapsed s) (paused s) (hoverExitTO s)
    (viewportPaused s) (initialized s) (timeouts s) (frames s)
    (nextTimeoutId s).

Definition next (s : Instance) : Instance := setActive (index s + 1) s.

Definition stopAuto (s : Instance) : Instance :=
  mkInstance (nslides s)
    (match progressFill s with
     | Some _ => Some (mkFill None WComputed)
     | None => None
     end)
    (index s) None (startTs s) (pauseElapsed s) (paused s) (hoverExitTO s)
    (viewportPaused s) (initialized s)
    (match timer s with
     | Some t => filter (fun p => negb (Nat.eqb t (p_id p))) (timeouts s)
     | None => timeouts s
     end)
    (frames s) (nextTimeoutId s).

Definition remaining (s : Instance) : Q :=
  Qmax 16 (intervalMs - pauseElapsed s).

Definition startAuto (now : Q) (s : Instance) : Instance :=
  if viewportPaused s then s else
  let s := stopAuto s in
  let t := nextTimeoutId s in
  mkInstance (nslides s)
    (match progressFill s with
     | Some _ =>
         Some (mkFill (Some (remaining s))
                 (WPct (clamp 0 1 (pauseElapsed s / intervalMs) * 100)))
     | None => None
     end)
    (index s) (Some t) (now - pauseElapsed s) (pauseElapsed s) (paused s)
    (hoverExitTO s) (viewportPaused s) (initialized s)
    (timeouts s ++ [mkPending t (now + remaining s) AutoAdvance])
    (match progressFill s with Some _ => S (frames s) | None => frames s end)
    (S t).

Definition set_pauseElapsed (x : Q) (s : Instance) : Instance :=
  mkInstance (nslides s) (progressFill s) (index s) (timer s) (startTs s) x
    (paused s) (hoverExitTO s) (viewportPaused s) (initialized s)
    (timeouts s) (frames s) (nextTimeoutId s).

(** The callback of the autoplay timer. *)
Definition auto_cb (now : Q) (s : Instance) : Instance :=
  if negb (viewportPaused s)
  then startAuto now (set_pauseElapsed 0 (next s))
  else s.

End CarouselV1.

(** ** The page: viewport observer, fullscreen modal and the instances *)

Module Page.

Import Carousel.

(** An entry of the [observedCarousels] map.  The [carouselState] object
    stored in it is the one of the instance with the same number as the
    container. *)
Record CarouselData : Type := mkCarouselData {
  cd_container : nat;
  isInitialized : bool          (* isInitialized.value *)
}.

Record ViewportObserver : Type := mkViewportObserver {
  observer : bool;              (* [false]: null *)
  observedCarousels : list CarouselData;
  observedTargets : list nat;   (* containers handed to obs.observe *)
  isDestroying : bool
}.

Record Image : Type := mkImage { src : String.string; alt : String.string }.

(** The closure variables of [initializeFullscreenModal] and the parts of
    the modal they write. *)
Record Modal : Type := mkModal {
  currentImages : list Image;
  currentIndex : Z;
  originalCarousel : option nat;   (* reference to an instance *)
  active : bool;                   (* class "active" on the modal *)
  image_src : String.string;
  image_alt : String.string;
  counter : Z * Z;                 (* "i / n" *)
  navVisible : bool;
  closeTimers : list Q             (* due times of the pending close timers *)
}.

Record World : Type := mkWorld {
  carousels : list Instance;
  vo : ViewportObserver;
  modal : Modal;
  ioAvailable : bool     (* [new IntersectionObserver(...)] succeeds *)
}.

Definition set_carousels (x : list Instance) (w : World) : World :=
  mkWorld x (vo w) (modal w) (ioAvailable w).

Definition set_vo (x : ViewportObserver) (w : World) : World :=
  mkWorld (carousels w) x (modal w) (ioAvailable w).

Definition set_modal (x : Modal) (w : World) : World :=
  mkWorld (carousels w) (vo w) x (ioAvailable w).

(** Call a method of the instance behind reference [k]. *)
Definition on_carousel (k : nat) (f : Instance -> Instance) (w : World)
  : World :=
  match nth_error (carousels w) k with
  | Some s => set_carousels (list_set k (f s) (carousels w)) w
  | None => w
  end.

(** *** carouselViewportObserver *)

Definition initObserver (w : World) : bool * World :=
  let o := vo w in
  if observer o || isDestroying o then (observer o, w) else
  (* try { observer = new IntersectionObserver(...) } catch { observer = null } *)
  let built := ioAvailable w in
  (built,
   set_vo (mkViewportObserver built (observedCarousels o)
             (observedTargets o) (isDestroying o)) w).

Definition map_set (k : nat) (l : list CarouselData) : list CarouselData :=
  if existsb (fun d => Nat.eqb k (cd_container d)) l
  then map (fun d => if Nat.eqb k (cd_container d)
                     then mkCarouselData k false else d) l
  else l ++ [mkCarouselData k false].

Definition map_get (k : nat) (l : list CarouselData) : option CarouselData :=
  find (fun d => Nat.eqb k (cd_container d)) l.

Definition map_delete (k : nat) (l : list CarouselData) : list CarouselData :=
  filter (fun d => negb (Nat.eqb k (cd_container d))) l.

Definition observe (k : nat) (w : World) : World :=
  if isDestroying (vo w) then w else
  let '(obs, w) := initObserver w in
  if negb obs then w else
  let o := vo w in
  set_vo (mkViewportObserver (observer o) (map_set k (observedCarousels o))
            (set_add k (observedTargets o)) (isDestroying o)) w.

Definition unobserve (k : nat) (w : World) : World :=
  let o := vo w in
  set_vo (mkViewportObserver (observer o) (map_delete k (observedCarousels o))
            (if observer o then set_delete k (observedTargets o)
             else observedTargets o)
            (isDestroying o)) w.

Definition mark_initialized (k : nat) (w : World) : World :=
  let o := vo w in
  set_vo (mkViewportObserver (observer o)
            (map (fun d => if Nat.eqb k (cd_container d)
                           then mkCarouselData k true else d)
               (observedCarousels o))
            (observedTargets o) (isDestroying o)) w.

(** The body of the intersection callback for one entry. *)
Definition on_entry (k : nat) (isIntersecting : bool) (now : Q) (w : World)
  : World :=
  match map_get k (observedCarousels (vo w)) with
  | None => w
  | Some d =>
      if isDestroying (vo w) then w else
      if isIntersecting then
        if negb (isInitialized d)
        then mark_initialized k (on_carousel k (initialize now) w)
        else on_carousel k (resumeFromViewportPause now) w
      else
        if isInitialized d
        then on_carousel k (pauseForViewport now) w
        else w
  end.

(** The browser reports an intersection change of container [k]: only a
    built observer that watches [k] is ever called back. *)
Definition intersect (k : nat) (isIntersecting : bool) (now : Q) (w : World)
  : World :=
  if observer (vo w) && existsb (Nat.eqb k) (observedTargets (vo w))
  then on_entry k isIntersecting now w
  else w.

Definition observer_cleanup (w : World) : World :=
  set_vo (mkViewportObserver false [] [] false) w.

(** [initializeSingleCarousel] for container [k]: the instance is created
    at the end of the store and handed to the observer. *)
Definition initializeSingleCarousel (n : Z) (hasFill : bool) (w : World)
  : World :=
  if n =? 0 then w else
  let k := List.length (carousels w) in
  observe k (set_carousels (carousels w ++ [create n hasFill]) w).

(** *** The fullscreen modal *)

(** The outcome of a handler that can hit a [TypeError]; the state is the
    one reached when the handler ends or is aborted. *)
Inductive Outcome : Type :=
| Done (w : World)
| Threw (w : World).

Definition state_of (r : Outcome) : World :=
  match r with Done w => w | Threw w => w end.

Definition showCurrentImage (w : World) : Outcome :=
  let m := modal w in
  if (0 <? List.length (currentImages m))%nat then
    if currentIndex m <? 0 then Threw w else
    match nth_error (currentImages m) (Z.to_nat (currentIndex m)) with
    | Some im =>
        let n := Z.of_nat (List.length (currentImages m)) in
        Done (set_modal
                (mkModal (currentImages m) (currentIndex m)
                   (originalCarousel m) (active m) (src im) (alt im)
                   (currentIndex m + 1, n) (1 <? n) (closeTimers m)) w)
    | None => Threw w
    end
  else Done w.

Definition set_active (b : bool) (w : World) : World :=
  let m := modal w in
  set_modal (mkModal (currentImages m) (currentIndex m) (originalCarousel m)
               b (image_src m) (image_alt m) (counter m) (navVisible m)
               (closeTimers m)) w.

Definition set_currentIndex (i : Z) (w : World) : World :=
  let m := modal w in
  set_modal (mkModal (currentImages m) i (originalCarousel m)
               (active m) (image_src m) (image_alt m) (counter m)
               (navVisible m) (closeTimers m)) w.

Definition openModal (images : list Image) (startIndex : Z)
  (carousel : option nat) (now : Q) (w : World) : Outcome :=
  let m := modal w in
  let w := set_modal (mkModal images startIndex carousel (active m)
                        (image_src m) (image_alt m) (counter m)
                        (navVisible m) (closeTimers m)) w in
  let w := match carousel with
           | Some k => on_carousel k (onFullscreenOpen now) w
           | None => w
           end in
  match showCurrentImage w with
  | Done w => Done (set_active true w)
  | Threw w => Threw w
  end.

Definition closeModal (now : Q) (w : World) : World :=
  let w := set_active false w in
  let m := modal w in
  set_modal (mkModal (currentImages m) (currentIndex m) (originalCarousel m)
               (active m) (image_src m) (image_alt m) (counter m)
               (navVisible m) (closeTimers m ++ [(now + 300)%Q])) w.

(** The 300ms timer armed by [closeModal] comes due. *)
Definition fireCloseTimer (now : Q) (w : World) : World :=
  let m := modal w in
  match closeTimers m with
  | due :: rest =>
      if Qle_bool due now then
        let w := set_modal
                   (mkModal (currentImages m) (currentIndex m)
                      (originalCarousel m) (active m) (image_src m)
                      (image_alt m) (counter m) (navVisible m) rest) w in
        match originalCarousel m with
        | Some k => on_carousel k (onFullscreenClose now) w
        | None => w
        end
      else w
  | [] => w
  end.

Definition nextImage (w : World) : Outcome :=
  let m := modal w in
  if (1 <? List.length (currentImages m))%nat then
    showCurrentImage
      (set_currentIndex
         (js_rem (currentIndex m + 1)
            (Z.of_nat (List.length (currentImages m)))) w)
  else Done w.

Definition prevImage (w : World) : Outcome :=
  let m := modal w in
  if (1 <? List.length (currentImages m))%nat then
    showCurrentImage
      (set_currentIndex
         (js_rem (currentIndex m - 1 + Z.of_nat (List.length (currentImages m)))
            (Z.of_nat (List.length (currentImages m)))) w)
  else Done w.

Inductive ModalKey : Type := Escape | KeyRight | KeyLeft | KeyOther.

Definition onModalKeydown (k : ModalKey) (now : Q) (w : World) : Outcome :=
  if negb (active (modal w)) then Done w else
  match k with
  | Escape => Done (closeModal now w)
  | KeyRight => nextImage w
  | KeyLeft => prevImage w
  | KeyOther => Done w
  end.

(** Click on the fullscreen button of carousel [k]: [activeSlideIndex] is
    the result of [findIndex] over the slides (-1 when none is active). *)
Definition onFullscreenBtn (k : nat) (images : list Image)
  (activeSlideIndex : Z) (now : Q) (w : World) : Outcome :=
  let carouselState :=
    match nth_error (carousels w) k with Some _ => Some k | None => None end in
  openModal images (Z.max 0 activeSlideIndex) carouselState now w.

(** The [beforeunload] handler. *)
Definition onBeforeUnload (w : World) : World :=
  let w := observer_cleanup w in
  set_carousels (map cleanup (carousels w)) w.

(** *** Events of the page *)

Inductive PageEvent : Type :=
| PgIntersect (k : nat) (isIntersecting : bool)
| PgCarousel (k : nat) (e : Event)
| PgFullscreenBtn (k : nat) (images : list Image) (activeSlideIndex : Z)
| PgModalClose
| PgCloseTimer
| PgModalNext
| PgModalPrev
| PgModalKey (key : ModalKey)
| PgBeforeUnload.

(** An exception ends the handler that raised it and nothing else: the
    page goes on from the state the handler left. *)
Definition page_step (now : Q) (e : PageEvent) (w : World) : World :=
  match e with
  | PgIntersect k b => intersect k b now w
  | PgCarousel k ev => on_carousel k (step now ev) w
  | PgFullscreenBtn k images i => state_of (onFullscreenBtn k images i now w)
  | PgModalClose => closeModal now w
  | PgCloseTimer => fireCloseTimer now w
  | PgModalNext => state_of (nextImage w)
  | PgModalPrev => state_of (prevImage w)
  | PgModalKey key => state_of (onModalKeydown key now w)
  | PgBeforeUnload => onBeforeUnload w
  end.

Fixpoint page_run (tr : list (Q * PageEvent)) (w : World) : World :=
  match tr with
  | [] => w
  | (now, e) :: tr' => page_run tr' (page_step now e w)
  end.

End Page.

(** * The utilities and the other components of the page *)

(** ** [debounce]

    The function returned by [debounce(func, delay)] together with the
    timeouts it has armed.  [A] is the type of the argument list of a
    call; [applied] records the calls of [func], oldest first. *)

Module Debounce.

Section Debounced.

Context {A : Type}.

Record Pending : Type := mkPending {
  p_id : nat;
  p_due : Q;
  p_args : A
}.

Record State : Type := mkState {
  timeoutId : option nat;       (* [None]: undefined *)
  timers : list Pending;
  nextId : nat;
  applied : list A
}.

Definition init : State := mkState None [] 1%nat [].

Definition clearTimeout (id : option nat) (ts : list Pending) : list Pending :=
  match id with
  | Some i => filter (fun p => negb (Nat.eqb i (p_id p))) ts
  | None => ts
  end.

(** A call of the returned function. *)
Definition call (delay now : Q) (args : A) (s : State) : State :=
  let ts := clearTimeout (timeoutId s) (timers s) in
  mkState (Some (nextId s))
    (ts ++ [mkPending (nextId s) (now + delay)%Q args])
    (S (nextId s)) (applied s).

(** The browser runs timeout [id] once its delay has passed. *)
Definition fire (id : nat) (now : Q) (s : State) : State :=
  match find (fun p => Nat.eqb id (p_id p)) (timers s) with
  | Some p =>
      if Qle_bool (p_due p) now then
        mkState (timeoutId s)
          (filter (fun q => negb (Nat.eqb id (p_id q))) (timers s))
          (nextId s) (applied s ++ [p_args p])
      else s
  | None => s
  end.

Inductive Event : Type :=
| Call (args : A)
| Fire (id : nat).

Definition step (delay now : Q) (e : Event) (s : State) : State :=
  match e with
  | Call args => call delay now args s
  | Fire id => fire id now s
  end.

Fixpoint run (delay : Q) (tr : list (Q * Event)) (s : State) : State :=
  match tr with
  | [] => s
  | (now, e) :: tr' => run delay tr' (step delay now e s)
  end.

End Debounced.

Arguments Pending : clear implicits.
Arguments State : clear implicits.
Arguments Event : clear implicits.

End Debounce.

(** ** [eventDelegator]

    Containers and handlers are numbered; [attached] lists the listeners
    the delegator has added to containers, in order. *)

Module EventDelegator.

Import (notations) String.

Record Delegate : Type := mkDelegate {
  d_container : nat;
  d_selector : String.string;
  d_event : String.string;
  d_handler : nat
}.

Record State : Type := mkState {
  delegateMap : list (String.string * Delegate);
  attached : list Delegate
}.

Definition empty : State := mkState [] [].

(** [`${event}-${selector}`]. *)
Definition key (event selector : String.string) : String.string :=
  String.append event (String.append "-"%string selector).

Definition has (k : String.string) (m : list (String.string * Delegate))
  : bool :=
  existsb (fun e => String.eqb k (fst e)) m.

Definition addDelegatedListener (container : nat)
  (selector event : String.string) (handler : nat) (s : State) : State :=
  let k := key event selector in
  if negb (has k (delegateMap s)) then
    let d := mkDelegate container selector event handler in
    mkState (delegateMap s ++ [(k, d)]) (attached s ++ [d])
  else s.

Definition register (d : Delegate) (s : State) : State :=
  addDelegatedListener (d_container d) (d_selector d) (d_event d)
    (d_handler d) s.

End EventDelegator.

(** ** The scroll indicator of a project description

    Lengths are rationals, in pixels; the arithmetic of the source is
    taken exactly.  Of [updateThumb] the geometry of the thumb is
    embedded, not the mask gradient. *)

Module ProjectScroll.

Local Open Scope Q_scope.

Record State : Type := mkState {
  scrollTop : Q;            (* desc.scrollTop *)
  scrollHeight : Q;
  clientHeight : Q;
  trackHeight : Q;          (* track.clientHeight *)
  trackShown : bool;        (* track.parentElement.style.display *)
  thumbHeight : Q;          (* thumb.style.height, in px *)
  thumbTop : Q;             (* the vertical translation of the thumb, in px *)
  isDragging : bool;
  startY : Q;
  startScrollTop : Q;
  scrollTarget : option Q   (* destination of the last [scrollTo] *)
}.

(** [Math.round]. *)
Definition js_round (x : Q) : Q := inject_Z (Qround.Qfloor (x + (1 # 2))).

(** [x || d] on numbers. *)
Definition or_else (x d : Q) : Q := if Qeq_bool x 0 then d else x.

Definition Qgt_bool (x y : Q) : bool := negb (Qle_bool x y).

Definition hasOverflow (s : State) : bool :=
  Qgt_bool (scrollHeight s) (clientHeight s + 1).

(** The constants [thumbH], [maxThumbTop] and [top] of [updateThumb]. *)
Definition thumbH (s : State) : Q :=
  Qmax 20 (trackHeight s * (clientHeight s / scrollHeight s)).

Definition maxThumbTop (s : State) : Q := trackHeight s - thumbH s.

Definition top (s : State) : Q :=
  maxThumbTop s
  * (scrollTop s / or_else (scrollHeight s - clientHeight s) 1).

Definition set_thumb (shown : bool) (h t : Q) (s : State) : State :=
  mkState (scrollTop s) (scrollHeight s) (clientHeight s) (trackHeight s)
    shown h t (isDragging s) (startY s) (startScrollTop s) (scrollTarget s).

Definition updateThumb (s : State) : State :=
  if negb (hasOverflow s) then set_thumb false 0 0 s
  else set_thumb true (thumbH s) (js_round (top s * 100) / 100) s.

Definition handleMouseDown (button : Z) (clientY : Q) (s : State) : State :=
  if negb (button =? 0)%Z then s else
  mkState (scrollTop s) (scrollHeight s) (clientHeight s) (trackHeight s)
    (trackShown s) (thumbHeight s) (thumbTop s) true clientY (scrollTop s)
    (scrollTarget s).

Definition set_scrollTop (x : Q) (s : State) : State :=
  mkState x (scrollHeight s) (clientHeight s) (trackHeight s)
    (trackShown s) (thumbHeight s) (thumbTop s) (isDragging s) (startY s)
    (startScrollTop s) (scrollTarget s).

Definition handleMouseMove (clientY : Q) (s : State) : State :=
  if negb (isDragging s) then s else
  let deltaY := clientY - startY s in
  let thumbHeight := or_else (thumbHeight s) 20 in
  let maxThumbTop := trackHeight s - thumbHeight in
  if Qle_bool maxThumbTop 0 then s else
  let ratio := deltaY / maxThumbTop in
  let maxScroll := scrollHeight s - clientHeight s in
  if Qle_bool maxScroll 0 then s else
  let newScrollTop :=
    Qmax 0 (Qmin maxScroll (startScrollTop s + ratio * maxScroll)) in
  set_scrollTop newScrollTop s.

Definition handleMouseUp (s : State) : State :=
  if negb (isDragging s) then s else
  mkState (scrollTop s) (scrollHeight s) (clientHeight s) (trackHeight s)
    (trackShown s) (thumbHeight s) (thumbTop s) false (startY s)
    (startScrollTop s) (scrollTarget s).

(** Click on the track at [clickY] pixels below its top; [onThumb] says
    that the click target is the thumb. *)
Definition onTrackClick (onThumb : bool) (clickY : Q) (s : State) : State :=
  if onThumb || isDragging s then s else
  let clickRatio := Qmax 0 (Qmin 1 (clickY / trackHeight s)) in
  let maxScroll := scrollHeight s - clientHeight s in
  let targetScrollTop := clickRatio * maxScroll in
  mkState (scrollTop s) (scrollHeight s) (clientHeight s) (trackHeight s)
    (trackShown s) (thumbHeight s) (thumbTop s) (isDragging s) (startY s)
    (startScrollTop s) (Some targetScrollTop).

End ProjectScroll.

(** ** [rafScheduler] and the scroll handler of a project description

    The callbacks handed to the scheduler by [initializeProjectScroll] of
    one project: [initUpdate], [updateThumb] and the closures created by
    [handleScroll], numbered in order of creation.  [HandleScroll] is the
    scroll listener itself, which the closures hand to [remove].  What a
    callback does to the thumb is counted in [layouts], the number of runs
    of [updateThumb]. *)

Module RafScheduler.

Inductive Callback : Type :=
| InitUpdate
| UpdateThumb
| ScrollClosure (n : nat)
| HandleScroll.

Definition Callback_eqb (a b : Callback) : bool :=
  match a, b with
  | InitUpdate, InitUpdate => true
  | UpdateThumb, UpdateThumb => true
  | ScrollClosure n, ScrollClosure m => Nat.eqb n m
  | HandleScroll, HandleScroll => true
  | _, _ => false
  end.

Record State : Type := mkState {
  callbacks : list Callback;    (* the [Set], in insertion order *)
  rafId : option nat;
  frames : list nat;            (* pending requests for [tick] *)
  nextFrame : nat;
  scrollTicking : bool;
  lastScrollTime : Q;
  closures : nat;               (* closures created by [handleScroll] *)
  layouts : nat
}.

Definition SCROLL_THROTTLE : Q := 32.

Definition init : State := mkState [] None [] 1%nat false 0 0%nat 0%nat.

Definition set_callbacks (x : list Callback) (s : State) : State :=
  mkState x (rafId s) (frames s) (nextFrame s) (scrollTicking s)
    (lastScrollTime s) (closures s) (layouts s).

Definition requestTick (s : State) : State :=
  mkState (callbacks s) (Some (nextFrame s)) (frames s ++ [nextFrame s])
    (S (nextFrame s)) (scrollTicking s) (lastScrollTime s) (closures s)
    (layouts s).

Definition add (cb : Callback) (s : State) : State :=
  let s :=
    if existsb (Callback_eqb cb) (callbacks s) then s
    else set_callbacks (callbacks s ++ [cb]) s in
  if isSome (rafId s) then s else requestTick s.

Definition remove (cb : Callback) (s : State) : State :=
  set_callbacks (filter (fun c => negb (Callback_eqb cb c)) (callbacks s)) s.

Definition updateThumb (s : State) : State :=
  mkState (callbacks s) (rafId s) (frames s) (nextFrame s) (scrollTicking s)
    (lastScrollTime s) (closures s) (S (layouts s)).

Definition handleScroll (now : Q) (s : State) : State :=
  if negb (scrollTicking s)
     && Qle_bool SCROLL_THROTTLE (now - lastScrollTime s)
  then
    let s := add (ScrollClosure (closures s)) s in
    mkState (callbacks s) (rafId s) (frames s) (nextFrame s) true
      (lastScrollTime s) (S (closures s)) (layouts s)
  else s.

(** The body of a callback, run at time [now]. *)
Definition call (now : Q) (cb : Callback) (s : State) : State :=
  match cb with
  | InitUpdate => updateThumb s
  | UpdateThumb => updateThumb s
  | ScrollClosure _ =>
      let s := updateThumb s in
      let s := mkState (callbacks s) (rafId s) (frames s) (nextFrame s)
                 false now (closures s) (layouts s) in
      remove HandleScroll s
  | HandleScroll => handleScroll now s
  end.

(** [tick]: a callback deleted by an earlier one of the same round is not
    run. *)
Definition tick (now : Q) (s : State) : State :=
  let s :=
    fold_left
      (fun s cb =>
         if existsb (Callback_eqb cb) (callbacks s) then call now cb s else s)
      (callbacks s) s in
  if (0 <? length (callbacks s))%nat then requestTick s
  else mkState (callbacks s) None (frames s) (nextFrame s) (scrollTicking s)
         (lastScrollTime s) (closures s) (layouts s).

(** The browser runs the frame request [id]. *)
Definition fireFrame (id : nat) (now : Q) (s : State) : State :=
  if existsb (Nat.eqb id) (frames s) then
    tick now
      (mkState (callbacks s) (rafId s)
         (filter (fun f => negb (Nat.eqb id f)) (frames s)) (nextFrame s)
         (scrollTicking s) (lastScrollTime s) (closures s) (layouts s))
  else s.

(** What happens to the indicator of a project once it is set up: scroll
    events, the debounced resize timer, the [load] event and the frames
    the browser runs. *)
Inductive Event : Type :=
| EvScroll
| EvResizeTimer
| EvLoad
| EvFrame (id : nat).

Definition step (now : Q) (e : Event) (s : State) : State :=
  match e with
  | EvScroll => handleScroll now s
  | EvResizeTimer => add UpdateThumb s
  | EvLoad => add InitUpdate s
  | EvFrame id => fireFrame id now s
  end.

Fixpoint run (tr : list (Q * Event)) (s : State) : State :=
  match tr with
  | [] => s
  | (now, e) :: tr' => run tr' (step now e s)
  end.

(** The scheduler state [initializeProjectScroll] leaves. *)
Definition initialized : State := add InitUpdate init.

End RafScheduler.

(** ** [idleScheduler]

    Tasks are numbered; [executed] lists the tasks run, oldest first, and
    [pending] counts the idle callbacks (or zero-delay timeouts)
    requested and not yet run.  A task does not itself schedule tasks. *)

Module IdleScheduler.

Record State : Type := mkState {
  tasks : list nat;
  running : bool;
  pending : nat;
  executed : list nat
}.

Definition init : State := mkState [] false 0%nat [].

Definition scheduleNext (s : State) : State :=
  mkState (tasks s) (running s) (S (pending s)) (executed s).

Definition schedule (task : nat) (s : State) : State :=
  let s := mkState (tasks s ++ [task]) (running s) (pending s) (executed s) in
  if negb (running s) then scheduleNext s else s.

(** The loop of [runTasks]: [allow i] is the value of
    [deadline.timeRemaining() > 0 || deadline.didTimeout] when [i] tasks
    have been run in this callback. *)
Fixpoint drain (allow : nat -> bool) (i : nat) (ts done : list nat)
  : list nat * list nat :=
  match ts with
  | [] => ([], done)
  | t :: ts' =>
      if allow i then drain allow (S i) ts' (done ++ [t])
      else (ts, done)
  end.

Definition runTasks (allow : nat -> bool) (s : State) : State :=
  let '(ts, done) := drain allow 0 (tasks s) (executed s) in
  let s := mkState ts true (pending s) done in
  if (0 <? length ts)%nat then scheduleNext s
  else mkState ts false (pending s) done.

(** The browser runs one of the requested idle callbacks. *)
Definition idle (allow : nat -> bool) (s : State) : State :=
  match pending s with
  | O => s
  | S n => runTasks allow (mkState (tasks s) (running s) n (executed s))
  end.

Inductive Event : Type :=
| Schedule (task : nat)
| Idle (allow : nat -> bool).

Definition step (e : Event) (s : State) : State :=
  match e with
  | Schedule t => schedule t s
  | Idle allow => idle allow s
  end.

Definition run (tr : list Event) (s : State) : State :=
  fold_left (fun s e => step e s) tr s.

End IdleScheduler.

(** ** The filter buttons

    The classes and the guard timer [initializeFilters] maintains, for a
    page that has the filter container and its selector; the position
    given to the selector is left out.  [activeClass] holds, button by
    button, whether the button carries the class [active]. *)

Module Filters.

Record State : Type := mkState {
  activeClass : list bool;
  animating : bool;             (* class [animating] on the container *)
  animGuard : option nat;       (* container._animGuard *)
  timers : list (nat * Q);      (* pending guard timeouts with due times *)
  nextId : nat
}.

Definition clearTimeout (id : nat) (ts : list (nat * Q)) : list (nat * Q) :=
  filter (fun t => negb (Nat.eqb id (fst t))) ts.

Fixpoint set_nth (i : nat) (l : list bool) : list bool :=
  match l, i with
  | [], _ => []
  | _ :: l', O => true :: l'
  | b :: l', S i' => b :: set_nth i' l'
  end.

(** Click on button [i]. *)
Definition click (i : nat) (now : Q) (s : State) : State :=
  let cls := set_nth i (map (fun _ => false) (activeClass s)) in
  let ts :=
    match animGuard s with
    | Some g => clearTimeout g (timers s)
    | None => timers s
    end in
  mkState cls true (Some (nextId s)) (ts ++ [(nextId s, (now + 600)%Q)])
    (S (nextId s)).

(** The guard timeout [id] runs. *)
Definition guard (id : nat) (now : Q) (s : State) : State :=
  match find (fun t => Nat.eqb id (fst t)) (timers s) with
  | Some t =>
      if Qle_bool (snd t) now then
        mkState (activeClass s) false None (clearTimeout id (timers s))
          (nextId s)
      else s
  | None => s
  end.

(** [transitionend] on the selector; [onTransform] says that the property
    is [transform]. *)
Definition transitionEnd (onTransform : bool) (s : State) : State :=
  if onTransform then
    match animGuard s with
    | Some g =>
        mkState (activeClass s) false None (clearTimeout g (timers s))
          (nextId s)
    | None =>
        mkState (activeClass s) false (animGuard s) (timers s) (nextId s)
    end
  else s.

(** Resize of the window. *)
Definition resize (s : State) : State :=
  if existsb (fun b => b) (activeClass s)
  then mkState (activeClass s) false (animGuard s) (timers s) (nextId s)
  else s.

Inductive Event : Type :=
| Click (i : nat)
| Guard (id : nat)
| TransitionEnd (onTransform : bool)
| Resize.

Definition step (now : Q) (e : Event) (s : State) : State :=
  match e with
  | Click i => click i now s
  | Guard id => guard id now s
  | TransitionEnd p => transitionEnd p s
  | Resize => resize s
  end.

Fixpoint run (tr : list (Q * Event)) (s : State) : State :=
  match tr with
  | [] => s
  | (now, e) :: tr' => run tr' (step now e s)
  end.

(** The state [initializeFilters] leaves for the given classes. *)
Definition init (cls : list bool) : State := mkState cls false None [] 1%nat.

End Filters.

(** ** Vocabulary of the properties *)

Import Carousel.

(** What [cleanup] leaves of a live instance. *)
Definition cleanup_result (s : Instance) : Instance :=
  mkInstance (nslides s) (progressFill s) 0 (timer s) (animationFrame s)
    (startTs s) 0 false false false true (pausedByFullscreen s)
    (shouldAutoStart s) (isInViewport s) (progressEndHandler s) [] [] []
    (advancedCells s) (listeners s)
    (fold_left
       (fun ts id => filter (fun t => negb (Nat.eqb id (t_id t))) ts)
       (cleanupTimeouts s) (timeouts s))
    (fold_left (fun r id => set_delete id r) (cleanupRafs s) (rafs s))
    (nextTimeoutId s) (nextRafId s)
    (match cleanupFns s with [] => resizeObserved s | _ :: _ => false end).

(** The recorded elapsed time lies in [[0, intervalMs]]. *)
Definition elapsed_ok (s : Instance) : Prop :=
  (0 <= pauseElapsed s /\ pauseElapsed s <= intervalMs)%Q.

(** A width written by the script is a percentage between 0 and 100. *)
Definition width_ok (w : Width) : Prop :=
  match w with
  | WPct p => (0 <= p /\ p <= 100)%Q
  | WComputed => True
  end.

Definition fill_ok (s : Instance) : Prop :=
  match progressFill s with
  | Some f => width_ok (f_width f)
  | None => True
  end.

Definition timing_ok (s : Instance) : Prop := elapsed_ok s /\ fill_ok s.

(** The active index designates one of the [n] slides. *)
Definition index_ok (n : Z) (s : Instance) : Prop :=
  nslides s = n /\ 1 <= n /\ 0 <= index s < n.

(** The slide changes the page performs: every event, a direct call of
    the exported [setActive] included as long as its target is not below
    [-n]. *)
Definition slide_change (n : Z) (e : Event) : Prop :=
  match e with
  | CallSetActive i _ => - n <= i
  | _ => True
  end.

(** The events a collaborator or the user causes, as opposed to the three
    kinds of callback the browser runs on its own. *)
Definition is_call (e : Event) : bool :=
  match e with
  | EvTimeout _ | EvFrame _ | EvTransitionEnd _ => false
  | _ => true
  end.

(** The state of an instance with the browser queues (pending timeouts,
    frames and listeners) and the handles that point into them erased. *)
Definition forget_browser (s : Instance) : Instance :=
  set_listeners [] (set_timeouts [] (set_rafs []
    (set_cleanupRafs [] (set_cleanupTimeouts []
      (set_animationFrame None (set_timer None s)))))).

(** Sample instances: four slides with a progress fill, as created; and
    the same once visible and past the settle delay, playing since 100ms. *)
Definition fresh4 : Instance := create 4 true.

Definition playing4 : Instance :=
  run [(0%Q, CallInitialize); (100%Q, EvTimeout 1%nat)] fresh4.

Import Page.

Definition empty_modal : Modal :=
  mkModal [] 0 None false String.EmptyString String.EmptyString (0, 0) false [].

(** A page with one four-slide carousel, in a browser where the
    intersection observer is available or not. *)
Definition page1 (io : bool) : World :=
  initializeSingleCarousel 4 true
    (mkWorld [] (mkViewportObserver false [] [] false) empty_modal io).

Definition three_images : list Image :=
  [mkImage String.EmptyString String.EmptyString;
   mkImage String.EmptyString String.EmptyString;
   mkImage String.EmptyString String.EmptyString].

(** Nothing of the autoplay machinery is armed: no handle is held and the
    browser has no timeout, frame or listener pending for the instance. *)
Definition quiet (s : Instance) : Prop :=
  timer s = None /\ animationFrame s = None /\ progressEndHandler s = None /\
  timeouts s = [] /\ listeners s = [] /\ rafs s = [].

(** The instance is held by the fullscreen overlay (or torn down) and
    quiet. *)
Definition held (s : Instance) : Prop :=
  (destroyed s = true \/ (pausedByFullscreen s = true /\ paused s = true)) /\
  quiet s.

(** The events the user and the browser produce on an instance, as opposed
    to direct calls of the exported operations. *)
Definition user_or_browser (e : Event) : bool :=
  match e with
  | EvTimeout _ | EvFrame _ | EvTransitionEnd _ | EvNextClick | EvPrevClick
  | EvDotClick _ | EvKeydown _ | EvViewportClick _ => true
  | _ => false
  end.

(** Page events that neither close the overlay nor open it again. *)
Definition overlay_stays_open (e : PageEvent) : Prop :=
  match e with
  | PgCarousel _ ev => user_or_browser ev = true
  | PgFullscreenBtn _ _ _ => False
  | PgModalClose => False
  | PgModalKey Escape => False
  | _ => True
  end.

(** The overlay holds carousel [k] in world [w]. *)
Definition overlay_holds (k : nat) (w : World) : Prop :=
  (exists s, nth_error (carousels w) k = Some s /\ held s) /\
  originalCarousel (modal w) = Some k /\
  closeTimers (modal w) = [].

(** An instance that is playing: initialized, on screen, no pause flag
    set, the fallback timer handle held and the progress fill present. *)
Definition playing (s : Instance) : Prop :=
  destroyed s = false /\ initialized s = true /\ isInViewport s = true /\
  viewportPaused s = false /\ paused s = false /\
  pausedByFullscreen s = false /\ shouldAutoStart s = false /\
  isSome (timer s) = true /\ isSome (progressFill s) = true.

Definition no_pause_flag (s : Instance) : Prop :=
  viewportPaused s = false /\ paused s = false /\
  pausedByFullscreen s = false.

(** The timer is stopped with [e] recorded and the fill frozen at
    [e / intervalMs] of the full width. *)
Definition frozen_at (e : Q) (s : Instance) : Prop :=
  pauseElapsed s == e /\ timer s = None /\
  exists p, progressFill s = Some (mkFill None (WPct p)) /\
            p == e / intervalMs * 100.

(** Autoplay runs again, no pause flag set: the fill goes from [pct]
    percent to full width in [r] milliseconds and the fallback timer is due
    200ms after that. *)
Definition restarted_with (r pct now : Q) (s : Instance) : Prop :=
  no_pause_flag s /\
  exists r' p t c,
    progressFill s = Some (mkFill (Some r') (WPct p)) /\
    r' == r /\ p == pct /\
    timer s = Some t /\
    In (mkTimeout t (now + (r' + 200)) (Fallback c)) (timeouts s).

(** The autoplay timer of the instance is running. *)
Definition autoplay_running (s : Instance) : bool := isSome (timer s).

(** Pause and resume requests of the viewport and fullscreen sources. *)
Definition viewport_or_fullscreen (e : Event) : Prop :=
  match e with
  | CallPauseForViewport | CallResumeFromViewportPause
  | CallOnFullscreenOpen | CallOnFullscreenClose => True
  | _ => False
  end.

(** For these two sources the flags compose: the timer runs exactly when
    neither holds a pause. *)
Definition composed (s : Instance) : Prop :=
  destroyed s = false /\ initialized s = true /\
  isSome (progressFill s) = true /\
  isInViewport s = negb (viewportPaused s) /\
  paused s = pausedByFullscreen s /\
  autoplay_running s = negb (viewportPaused s || pausedByFullscreen s).

(** The trace behind the double advance, from the instance playing since
    100ms: the first cycle ends through its fallback timer at 5300ms, the
    carousel leaves and re-enters the viewport within 200ms, the cycle
    started by the re-entry at 5400ms ends through its transition, and the
    fallback timer of the cycle before it comes due at 10500ms. *)
Definition stale_fallback_prefix : list (Q * Event) :=
  [(116%Q, EvFrame 1%nat);
   (5300%Q, EvTimeout 2%nat);
   (5316%Q, EvFrame 2%nat);
   (5350%Q, CallPauseForViewport);
   (5400%Q, CallResumeFromViewportPause);
   (5416%Q, EvFrame 3%nat)].

Definition stale_fallback_trace : list (Q * Event) :=
  stale_fallback_prefix ++
  [(10416%Q, EvTransitionEnd true);
   (10432%Q, EvFrame 4%nat);
   (10500%Q, EvTimeout 3%nat)].

(** ** Vocabulary of the further properties *)

(** The animation frame of the current cycle is either still pending, with
    its handle held and tracked, or has run. *)
Definition frame_state (s : Instance) : Prop :=
  (exists r, animationFrame s = Some r /\ rafs s = [r] /\ cleanupRafs s = [r])
  \/ (animationFrame s = None /\ rafs s = [] /\ cleanupRafs s = []).

(** Autoplay runs with exactly one cycle armed: no pause flag set, the
    listener and the fallback timer of cycle [c] are the only callbacks
    pending, their handles are held and tracked, and the cycle has not
    advanced yet. *)
Definition in_cycle (c t : nat) (due : Q) (s : Instance) : Prop :=
  destroyed s = false /\ initialized s = true /\ isInViewport s = true /\
  viewportPaused s = false /\ paused s = false /\
  pausedByFullscreen s = false /\ shouldAutoStart s = false /\
  isSome (progressFill s) = true /\
  progressEndHandler s = Some c /\ timer s = Some t /\
  timeouts s = [mkTimeout t due (Fallback c)] /\ listeners s = [c] /\
  cleanupTimeouts s = [t] /\
  advanced c s = false /\ (c < length (advancedCells s))%nat /\
  frame_state s.

Definition cycling (s : Instance) : Prop :=
  exists c t due, in_cycle c t due s.


(** A full interval has just been started at [now]. *)
Definition fresh_interval (now : Q) (s : Instance) : Prop :=
  pauseElapsed s = 0%Q /\
  startTs s = (now - 0)%Q /\
  progressFill s
  = Some (mkFill (Some (Qmax 16 (intervalMs - 0)))
            (WPct (clamp 0 1 (0 / intervalMs) * 100))) /\
  exists c t, in_cycle c t (now + (Qmax 16 (intervalMs - 0) + 200)) s.

(** A run of width transition ends at the given times. *)
Definition transition_ends (times : list Q) : list (Q * Event) :=
  map (fun t => (t, EvTransitionEnd true)) times.

(** The instances an event of the page can reach: the one it names, the
    owner recorded by the lightbox for its close timer, all of them for
    the unload. *)
Definition reaches (e : PageEvent) (w : World) (j : nat) : bool :=
  match e with
  | PgIntersect k _ | PgCarousel k _ | PgFullscreenBtn k _ _ => Nat.eqb k j
  | PgCloseTimer =>
      match originalCarousel (modal w) with
      | Some k => Nat.eqb k j
      | None => false
      end
  | PgBeforeUnload => true
  | _ => false
  end.

(** A page with two four-slide carousels, both visible and playing since
    100ms. *)
Definition page2 : World :=
  page_run
    [(0%Q, PgIntersect 0 true); (0%Q, PgIntersect 1 true);
     (100%Q, PgCarousel 0 (EvTimeout 1)); (100%Q, PgCarousel 1 (EvTimeout 1))]
    (initializeSingleCarousel 4 true (page1 true)).

(** The same page with the lightbox open, since 2000ms, on the first
    carousel. *)
Definition page2_lightbox : World :=
  page_step 2000 (PgFullscreenBtn 0 three_images 0) page2.

(** The lightbox displays the image its index designates: source, text,
    counter and navigation buttons are the ones [showCurrentImage] writes
    for it. *)
Definition displays (w : World) : Prop :=
  let m := modal w in
  let n := Z.of_nat (length (currentImages m)) in
  0 <= currentIndex m /\
  exists im,
    nth_error (currentImages m) (Z.to_nat (currentIndex m)) = Some im /\
    image_src m = src im /\ image_alt m = alt im /\
    counter m = (currentIndex m + 1, n) /\
    navVisible m = (1 <? n).

(** The world in which the lightbox has been made to display image [j]. *)
Definition show_image (j : Z) (w : World) : World :=
  let m := modal w in
  match nth_error (currentImages m) (Z.to_nat j) with
  | Some im =>
      set_modal
        (mkModal (currentImages m) j (originalCarousel m) (active m)
           (src im) (alt im)
           (j + 1, Z.of_nat (length (currentImages m)))
           (1 <? Z.of_nat (length (currentImages m))) (closeTimers m)) w
  | None => w
  end.

Definition next_shown (w : World) : World := state_of (nextImage w).
Definition prev_shown (w : World) : World := state_of (prevImage w).

(** At most one timeout of a debounced function is pending, and it is the
    one whose handle the wrapper holds. *)
Definition single_pending {A : Type} (s : Debounce.State A) : Prop :=
  Debounce.timers s = [] \/
  exists p, Debounce.timers s = [p] /\
            Debounce.timeoutId s = Some (Debounce.p_id p).

(** The number of calls of the debounced function in a trace. *)
Definition calls_in {A : Type} (tr : list (Q * Debounce.Event A)) : nat :=
  length (filter (fun te => match snd te with
                            | Debounce.Call _ => true
                            | Debounce.Fire _ => false
                            end) tr).

(** The key under which the delegator files a registration, a sequence of
    registrations, and the first registration of a list filed under key
    [k]. *)
Definition dkey (d : EventDelegator.Delegate) : String.string :=
  EventDelegator.key (EventDelegator.d_event d) (EventDelegator.d_selector d).

Definition register_all (rs : list EventDelegator.Delegate)
  (s : EventDelegator.State) : EventDelegator.State :=
  fold_left (fun s d => EventDelegator.register d s) rs s.

Definition first_for (k : String.string) (ds : list EventDelegator.Delegate)
  : option EventDelegator.Delegate :=
  find (fun d => String.eqb k (dkey d)) ds.

(** The map of the delegator files each attached listener under its key. *)
Definition filed (s : EventDelegator.State) : Prop :=
  EventDelegator.delegateMap s
  = map (fun d => (dkey d, d)) (EventDelegator.attached s).

(** The frame loop of the scheduler is alive: the handle of a pending
    frame request is held. *)
Definition frame_pending (s : RafScheduler.State) : Prop :=
  exists id, RafScheduler.rafId s = Some id /\ In id (RafScheduler.frames s).

(** What holds of the scheduler from set-up on: the loop is alive, the
    scroll listener itself is not among the callbacks, and [initUpdate]
    and every closure created by a handled scroll are. *)
Definition loop_alive (s : RafScheduler.State) : Prop :=
  frame_pending s /\
  ~ In RafScheduler.HandleScroll (RafScheduler.callbacks s) /\
  In RafScheduler.InitUpdate (RafScheduler.callbacks s) /\
  forall n, (n < RafScheduler.closures s)%nat ->
            In (RafScheduler.ScrollClosure n) (RafScheduler.callbacks s).

(** The tasks handed to the idle scheduler along a trace, in order. *)
Definition scheduled (tr : list IdleScheduler.Event) : list nat :=
  flat_map (fun e => match e with
                     | IdleScheduler.Schedule t => [t]
                     | IdleScheduler.Idle _ => []
                     end) tr.

(** The bookkeeping of the idle scheduler: the tasks run and the tasks
    queued are, in this order, the tasks [sched]; and a callback is
    requested whenever a task is queued or the scheduler is marked
    running. *)
Definition queue_ok (sched : list nat) (s : IdleScheduler.State) : Prop :=
  IdleScheduler.executed s ++ IdleScheduler.tasks s = sched /\
  (IdleScheduler.tasks s <> [] -> (1 <= IdleScheduler.pending s)%nat) /\
  (IdleScheduler.running s = true -> (1 <= IdleScheduler.pending s)%nat).

(** The guard of the filter animation: the pending guard timeouts are the
    one whose handle the container holds, if any, and the class
    [animating] is only present while one is held. *)
Definition guarded (s : Filters.State) : Prop :=
  match Filters.animGuard s with
  | Some g => exists due, Filters.timers s = [(g, due)]
  | None => Filters.timers s = [] /\ Filters.animating s = false
  end.

(** Button [i], and no other, carries the class [active]. *)
Definition only_active (i : nat) (cls : list bool) : Prop :=
  forall j, nth j cls false = Nat.eqb j i.

(** The page after unload: every instance is torn down and the viewport
    observer is gone. *)
Definition unloaded (w : World) : Prop :=
  Forall (fun s => destroyed s = true) (carousels w) /\
  vo w = mkViewportObserver false [] [] false.


(** ** Vocabulary of the statements on pause composition and observation *)

(** A cycle of autoplay is armed: the transition-end handler of the
    current cycle is set. *)
Definition armed (s : Instance) : bool := isSome (progressEndHandler s).

(** What reaches an instance on the page short of its teardown: the
    requests of the viewport and fullscreen sources (the observer's
    [initialize] included), user navigation and the callbacks of the
    browser.  The other exported operations are called by nothing on the
    page. *)
Definition page_request (e : Event) : Prop :=
  match e with
  | CallPauseAutoplay | CallResumeAutoplay | CallNext | CallPrev
  | CallSetActive _ _ | CallCleanup => False
  | _ => True
  end.

(** An initialized, live instance with a progress fill whose flags are
    consistent (in the viewport exactly when not viewport-paused, [paused]
    exactly when the fullscreen overlay holds it) and in which a cycle is
    armed exactly when neither pause flag is set. *)
Definition armed_unless_paused (s : Instance) : Prop :=
  destroyed s = false /\ initialized s = true /\
  isSome (progressFill s) = true /\
  isInViewport s = negb (viewportPaused s) /\
  paused s = pausedByFullscreen s /\
  armed s = negb (viewportPaused s || pausedByFullscreen s).

(** An instance the visibility signal has not reached: neither
    initialized nor viewport-paused. *)
Definition unseen (s : Instance) : Prop :=
  initialized s = false /\ viewportPaused s = false.

(** The events of a page as they occur: visibility reports, the lightbox,
    the unload, and on an instance the user's navigation and the
    browser's callbacks; no direct call of an exported operation. *)
Definition page_traffic (e : PageEvent) : Prop :=
  match e with
  | PgCarousel _ ev => user_or_browser ev = true
  | _ => True
  end.




(** ** Proof tools

    Symbolic execution of the closures.  A state is split into its fields,
    the flags and handles an operation tests are case-split, and the
    operation is then normalised with the arithmetic left folded. *)

Ltac norm :=
  cbv -[Qplus Qminus Qmult Qdiv Qmax Qmin Qle_bool Qeq_bool Qopp Qinv Qle Qlt
        Qeq intervalMs js_rem Z.add Z.sub Z.rem Z.eqb Z.ltb Z.leb Z.of_nat
        Z.to_nat Z.max Z.le Z.lt Z.modulo nth existsb filter find app In
        set_add set_delete length clamp list_set].

Ltac norm_in H :=
  cbv -[Qplus Qminus Qmult Qdiv Qmax Qmin Qle_bool Qeq_bool Qopp Qinv Qle Qlt
        Qeq intervalMs js_rem Z.add Z.sub Z.rem Z.eqb Z.ltb Z.leb Z.of_nat
        Z.to_nat Z.max Z.le Z.lt Z.modulo nth existsb filter find app In
        set_add set_delete length clamp list_set] in H.

Lemma setActive_true i s :
  setActive i true s =
  if destroyed s then s
  else fill_freeze (WPct 0) (set_index (js_rem (i + nslides s) (nslides s)) s).
Proof.
  unfold setActive, validateState.
  destruct (destroyed s); cbn [negb]; [reflexivity|].
  rewrite andb_false_r. reflexivity.
Qed.

Lemma js_rem_range a n : 0 <= a -> 1 <= n -> 0 <= js_rem a n < n.
Proof.
  intros Ha Hn. unfold js_rem. rewrite Z.rem_mod_nonneg by lia.
  apply Z.mod_pos_bound. lia.
Qed.

Lemma js_rem_wrap i n : - n <= i -> 1 <= n -> js_rem (i + n) n = i mod n.
Proof.
  intros Hi Hn. unfold js_rem. rewrite Z.rem_mod_nonneg by lia.
  rewrite <- (Z.mod_add i 1 n) by lia. f_equal. lia.
Qed.

Lemma set_add_In x l : In x (set_add x l).
Proof.
  unfold set_add. destruct (existsb (Nat.eqb x) l) eqn:E.
  - apply existsb_exists in E. destruct E as (y & Hy & Hxy).
    apply Nat.eqb_eq in Hxy. subst. exact Hy.
  - apply in_or_app. right. left. reflexivity.
Qed.

(** Expose the calls of [setActive] inside the handlers and rewrite the
    ones that force a progress reset. *)
Ltac open_ops :=
  unfold onNextClick, onPrevClick, onDotClick, onKeydown, onViewportClick,
    next, prev, advance, initialize, init_cb, fallback_cb, endHandler;
  cbv zeta;
  unfold next, prev, advance;
  cbv zeta;
  rewrite ?setActive_true.

(** Invariance along a trace. *)
Lemma run_invariant (P : Instance -> Prop) (ok : Event -> Prop) :
  (forall now e s, ok e -> P s -> P (step now e s)) ->
  forall tr s, Forall (fun te => ok (snd te)) tr -> P s -> P (run tr s).
Proof.
  intros Hstep tr. induction tr as [|[now e] tr IH]; intros s Hall Hs.
  - exact Hs.
  - cbn [run]. inversion Hall; subst. apply IH; [assumption|].
    apply Hstep; assumption.
Qed.

Lemma fold_left_invariant {A : Type} (P : Instance -> Prop)
  (f : Instance -> A -> Instance) :
  (forall s a, P s -> P (f s a)) ->
  forall l s, P s -> P (fold_left f l s).
Proof.
  intros Hf l. induction l as [|a l IH]; intros s Hs; cbn; auto.
Qed.

(** Split the tests that normalisation leaves stuck, innermost first. *)
Ltac split_residual :=
  repeat match goal with
  | |- context [match ?x with _ => _ end] =>
      lazymatch x with
      | context [match _ with _ => _ end] => fail
      | _ => destruct x; norm
      end
  end.

(** [exec split] splits the state into its fields, runs the case split
    [split] on the flags and handles the operation tests, and normalises;
    residual tests on data (list membership, comparisons) are split
    afterwards. *)
Ltac exec split :=
  let s := fresh "s" in
  intros s; intros;
  open_ops;
  destruct s as [n pf idx tm af sts pe pa vp ini de pbf sas iiv peh
                   cf cto cra cells ls tos rf nt nr ro];
  repeat match goal with
  | |- context [advanced ?c ?s] =>
      let b := fresh "b" in
      remember (advanced c s) as b; destruct b
  end;
  split;
  norm;
  repeat match goal with
  | H : _ |- _ => progress norm_in H
  end;
  split_residual.

(** *** Closed form of [cleanup] *)

Lemma fold_cleanupFns l : forall s,
  fold_left (fun s f => run_cleanupFn f s) l s =
  set_resizeObserved
    (match l with [] => resizeObserved s | _ :: _ => false end) s.
Proof.
  induction l as [|f l IH]; intros s.
  - destruct s; reflexivity.
  - cbn [fold_left]. rewrite IH. destruct f, l; destruct s; reflexivity.
Qed.

Lemma fold_cancelAnimationFrame l : forall s,
  fold_left (fun s id => cancelAnimationFrame id s) l s =
  set_rafs (fold_left (fun r id => set_delete id r) l (rafs s)) s.
Proof.
  induction l as [|x l IH]; intros s.
  - destruct s; reflexivity.
  - cbn [fold_left]. rewrite IH. destruct s; reflexivity.
Qed.

Lemma fold_clearTimeout l : forall s,
  fold_left (fun s id => clearTimeout id s) l s =
  set_timeouts
    (fold_left
       (fun ts id => filter (fun t => negb (Nat.eqb id (t_id t))) ts) l
       (timeouts s)) s.
Proof.
  induction l as [|x l IH]; intros s.
  - destruct s; reflexivity.
  - cbn [fold_left]. rewrite IH. destruct s; reflexivity.
Qed.

Lemma cleanup_eq s :
  cleanup s = if destroyed s then s else cleanup_result s.
Proof.
  unfold cleanup. destruct (destroyed s) eqn:Hd; [reflexivity|].
  cbv zeta.
  rewrite fold_clearTimeout, fold_cancelAnimationFrame, fold_cleanupFns.
  destruct s; reflexivity.
Qed.

(** *** The lightbox display *)

Lemma showCurrentImage_frame w :
  let w' := state_of (showCurrentImage w) in
  carousels w' = carousels w /\ vo w' = vo w /\
  currentImages (modal w') = currentImages (modal w) /\
  currentIndex (modal w') = currentIndex (modal w) /\
  originalCarousel (modal w') = originalCarousel (modal w) /\
  active (modal w') = active (modal w) /\
  closeTimers (modal w') = closeTimers (modal w).
Proof.
  unfold showCurrentImage.
  destruct (0 <? length (currentImages (modal w)))%nat; cbn;
    [|repeat split].
  destruct (currentIndex (modal w) <? 0); cbn; [repeat split|].
  destruct (nth_error _ _); cbn; repeat split.
Qed.

Lemma showCurrentImage_done w :
  0 <= currentIndex (modal w) < Z.of_nat (length (currentImages (modal w))) ->
  exists w', showCurrentImage w = Done w'.
Proof.
  intros [Hlo Hhi]. unfold showCurrentImage.
  destruct (0 <? length (currentImages (modal w)))%nat; [|eauto].
  destruct (currentIndex (modal w) <? 0) eqn:E;
    [apply Z.ltb_lt in E; lia|].
  destruct (nth_error _ _) eqn:En; [eauto|].
  apply nth_error_None in En. lia.
Qed.

(** ** The delay scheduled by [startAuto] *)

Lemma remaining_floor pe : (16 <= Qmax 16 (intervalMs - pe))%Q.
Proof. apply Q.le_max_l. Qed.

Lemma startAuto_schedule now :
  forall s,
    destroyed s = false ->
    viewportPaused s = false ->
    isSome (progressFill s) = true ->
    let s' := startAuto now s in
    let r := Qmax 16 (intervalMs - pauseElapsed s) in
    progressFill s' = Some (mkFill (Some r) (WPct (currentPct s * 100))) /\
    timer s' = Some (nextTimeoutId s) /\
    progressEndHandler s' = Some (length (advancedCells s)) /\
    In (mkTimeout (nextTimeoutId s) (now + (r + 200))
          (Fallback (length (advancedCells s)))) (timeouts s') /\
    In (length (advancedCells s)) (listeners s') /\
    startTs s' = (now - pauseElapsed s)%Q.
Proof.
  exec ltac:(destruct de, vp, pf, peh, tm, af); try discriminate;
    repeat split; try reflexivity;
    try (apply in_or_app; right; left; reflexivity);
    try apply set_add_In.
Qed.

Lemma startAutoV1_schedule now :
  forall s : CarouselV1.Instance,
    CarouselV1.viewportPaused s = false ->
    let s' := CarouselV1.startAuto now s in
    let r := Qmax 16 (CarouselV1.intervalMs - CarouselV1.pauseElapsed s) in
    CarouselV1.timer s' = Some (CarouselV1.nextTimeoutId s) /\
    In (CarouselV1.mkPending (CarouselV1.nextTimeoutId s) (now + r)
          CarouselV1.AutoAdvance) (CarouselV1.timeouts s').
Proof.
  intros [n pf idx tm sts pe pa hov vp ini tos fr nt] Hvp.
  cbn in Hvp. subst vp.
  unfold CarouselV1.startAuto, CarouselV1.stopAuto, CarouselV1.remaining.
  cbn. split; [reflexivity|].
  apply in_or_app. right. left. reflexivity.
Qed.

(** C10.  In both generations of the script, a [startAuto] that goes
    ahead schedules the next auto-advance [max(16, intervalMs -
    pauseElapsed)] milliseconds ahead, which is at least 16ms.  In the
    later generation this is the duration of the fill transition whose end
    advances the slide, with the fallback timer 200ms behind it; in the
    earlier one it is the delay of the autoplay timer. *)
Theorem startAuto_remaining_floor :
  forall (now : Q) (s : Instance) (s1 : CarouselV1.Instance),
    destroyed s = false ->
    viewportPaused s = false ->
    isSome (progressFill s) = true ->
    CarouselV1.viewportPaused s1 = false ->
    let r := Qmax 16 (intervalMs - pauseElapsed s) in
    let r1 := Qmax 16 (CarouselV1.intervalMs - CarouselV1.pauseElapsed s1) in
    (16 <= r)%Q /\
    (exists w t c,
        progressFill (startAuto now s) = Some (mkFill (Some r) w) /\
        timer (startAuto now s) = Some t /\
        progressEndHandler (startAuto now s) = Some c /\
        In c (listeners (startAuto now s)) /\
        In (mkTimeout t (now + (r + 200)) (Fallback c))
          (timeouts (startAuto now s))) /\
    (16 <= r1)%Q /\
    (exists t,
        CarouselV1.timer (CarouselV1.startAuto now s1) = Some t /\
        In (CarouselV1.mkPending t (now + r1) CarouselV1.AutoAdvance)
          (CarouselV1.timeouts (CarouselV1.startAuto now s1))).
Proof.
  intros now s s1 Hd Hvp Hpf Hvp1 r r1.
  destruct (startAuto_schedule now s Hd Hvp Hpf) as (Hf & Ht & Hh & Hin & Hl & _).
  destruct (startAutoV1_schedule now s1 Hvp1) as (Ht1 & Hin1).
  split; [apply remaining_floor|].
  split.
  { exists (WPct (currentPct s * 100)), (nextTimeoutId s),
      (length (advancedCells s)). auto. }
  split; [apply Q.le_max_l|].
  exists (CarouselV1.nextTimeoutId s1). auto.
Qed.

(** The theorem at an instance paused at the very end of its interval
    ([pauseElapsed = intervalMs]): the scheduled delay is the 16ms floor. *)
Lemma startAuto_remaining_floor_witness :
  let s := set_pauseElapsed 5000 (create 4 true) in
  let s1 :=
    CarouselV1.mkInstance 4 (Some (mkFill None WComputed)) 0 None 0 5000
      false None false true [] 0 1 in
  (16 <= Qmax 16 (intervalMs - pauseElapsed s))%Q /\
  (16 <= Qmax 16 (CarouselV1.intervalMs - CarouselV1.pauseElapsed s1))%Q.
Proof.
  intros s s1.
  assert (Hd : destroyed s = false) by reflexivity.
  assert (Hvp : viewportPaused s = false) by reflexivity.
  assert (Hpf : isSome (progressFill s) = true) by reflexivity.
  assert (Hvp1 : CarouselV1.viewportPaused s1 = false) by reflexivity.
  pose proof (startAuto_remaining_floor 0 s s1 Hd Hvp Hpf Hvp1) as H.
  cbv zeta in H. destruct H as (H16 & _ & H16' & _).
  split; assumption.
Defined.

(** ** Elapsed time and rendered fraction stay within bounds *)

Lemma clamp_bounds lo hi x :
  (lo <= hi)%Q -> (lo <= clamp lo hi x /\ clamp lo hi x <= hi)%Q.
Proof.
  intros H. unfold clamp. split.
  - apply Q.le_max_l.
  - apply Q.max_lub; [exact H | apply Q.le_min_l].
Qed.

Lemma pct_bounds x : (0 <= clamp 0 1 x * 100 /\ clamp 0 1 x * 100 <= 100)%Q.
Proof.
  destruct (clamp_bounds 0 1 x) as [H1 H2]; [lra|]. split; lra.
Qed.

Lemma interval_pos : (0 <= intervalMs)%Q.
Proof. unfold intervalMs. lra. Qed.

Ltac timing_finish :=
  unfold timing_ok, elapsed_ok, fill_ok, width_ok in *; cbn in *;
  repeat match goal with
  | H : _ /\ _ |- _ => destruct H
  | |- _ /\ _ => split
  end;
  try assumption; try exact I;
  try (apply clamp_bounds; apply interval_pos);
  try apply pct_bounds;
  try (pose proof interval_pos; lra).

Lemma stopAuto_timing :
  forall s, timing_ok s -> timing_ok (stopAuto s).
Proof. exec ltac:(destruct de, pf, peh, tm, af); timing_finish. Qed.

Lemma startAuto_timing now :
  forall s, timing_ok s -> timing_ok (startAuto now s).
Proof. exec ltac:(destruct de, vp, pf, peh, tm, af); timing_finish. Qed.

Lemma advance_timing c now :
  forall s, timing_ok s -> timing_ok (advance c now s).
Proof. exec ltac:(destruct de, vp, pa, pf, peh, tm, af); timing_finish. Qed.

Lemma raf_cb_timing :
  forall s, timing_ok s -> timing_ok (raf_cb s).
Proof. exec ltac:(destruct de, vp, pa, pf, af); timing_finish. Qed.

Lemma fallback_cb_timing c now :
  forall s, timing_ok s -> timing_ok (fallback_cb c now s).
Proof. exec ltac:(destruct de, vp, pa, pf, peh, tm, af); timing_finish. Qed.

Lemma init_cb_timing id now :
  forall s, timing_ok s -> timing_ok (init_cb id now s).
Proof. exec ltac:(destruct de, vp, pa, pf, peh, tm, af); timing_finish. Qed.

Lemma pauseAutoplay_timing now :
  forall s, timing_ok s -> timing_ok (pauseAutoplay now s).
Proof. exec ltac:(destruct de, pa, pf, peh, tm, af); timing_finish. Qed.

Lemma resumeAutoplay_timing now :
  forall s, timing_ok s -> timing_ok (resumeAutoplay now s).
Proof. exec ltac:(destruct de, vp, pa, pf, peh, tm, af); timing_finish. Qed.

Lemma pauseForViewport_timing now :
  forall s, timing_ok s -> timing_ok (pauseForViewport now s).
Proof. exec ltac:(destruct de, vp, pa, pf, peh, tm, af); timing_finish. Qed.

Lemma resumeFromViewportPause_timing now :
  forall s, timing_ok s -> timing_ok (resumeFromViewportPause now s).
Proof. exec ltac:(destruct de, pa, pbf, sas, pf, peh, tm, af); timing_finish. Qed.

Lemma initialize_timing now :
  forall s, timing_ok s -> timing_ok (initialize now s).
Proof. exec ltac:(destruct de, ini, pbf, pf, peh, tm, af); timing_finish. Qed.

Lemma onFullscreenOpen_timing now :
  forall s, timing_ok s -> timing_ok (onFullscreenOpen now s).
Proof. exec ltac:(destruct de, ini, pa, pf, peh, tm, af); timing_finish. Qed.

Lemma onFullscreenClose_timing now :
  forall s, timing_ok s -> timing_ok (onFullscreenClose now s).
Proof. exec ltac:(destruct de, ini, iiv, vp, pf, peh, tm, af); timing_finish. Qed.

Lemma onNextClick_timing now :
  forall s, timing_ok s -> timing_ok (onNextClick now s).
Proof. exec ltac:(destruct de, vp, pa, pf, peh, tm, af); timing_finish. Qed.

Lemma onPrevClick_timing now :
  forall s, timing_ok s -> timing_ok (onPrevClick now s).
Proof. exec ltac:(destruct de, vp, pa, pf, peh, tm, af); timing_finish. Qed.

Lemma onDotClick_timing idx0 now :
  forall s, timing_ok s -> timing_ok (onDotClick idx0 now s).
Proof. exec ltac:(destruct de, vp, pa, pf, peh, tm, af); timing_finish. Qed.

Lemma onKeydown_timing k now :
  forall s, timing_ok s -> timing_ok (onKeydown k now s).
Proof. exec ltac:(destruct k; destruct de, vp, pa, pf, peh, tm, af); timing_finish. Qed.

Lemma onViewportClick_timing r now :
  forall s, timing_ok s -> timing_ok (onViewportClick r now s).
Proof. exec ltac:(destruct r; destruct de, vp, pa, pf, peh, tm, af); timing_finish. Qed.

Lemma next_timing :
  forall s, timing_ok s -> timing_ok (next s).
Proof. exec ltac:(destruct de, pf, peh, tm, af); timing_finish. Qed.

Lemma prev_timing :
  forall s, timing_ok s -> timing_ok (prev s).
Proof. exec ltac:(destruct de, pf, peh, tm, af); timing_finish. Qed.

Lemma setActive_timing i r :
  forall s, timing_ok s -> timing_ok (setActive i r s).
Proof.
  intros s H. destruct r; [rewrite setActive_true|unfold setActive];
    revert H; destruct s as [n pf idx tm af sts pe pa vp ini de pbf sas iiv
                               peh cf cto cra cells ls tos rf nt nr ro];
    intros H; destruct de, pf; norm; norm_in H; split_residual;
    timing_finish.
Qed.

Lemma cleanup_timing : forall s, timing_ok s -> timing_ok (cleanup s).
Proof.
  intros s H. rewrite cleanup_eq. destruct (destroyed s); [exact H|].
  unfold cleanup_result. timing_finish.
Qed.

Lemma clearTimeout_timing id s : timing_ok s -> timing_ok (clearTimeout id s).
Proof. intros H. exact H. Qed.

Lemma fireTimeout_timing id now :
  forall s, timing_ok s -> timing_ok (fireTimeout id now s).
Proof.
  intros s H. unfold fireTimeout.
  destruct (find _ (timeouts s)) as [t|]; [|exact H].
  destruct (Qle_bool (t_due t) now); [|exact H].
  destruct (t_cb t).
  - apply init_cb_timing, clearTimeout_timing, H.
  - apply fallback_cb_timing, clearTimeout_timing, H.
Qed.

Lemma fireFrame_timing id : forall s, timing_ok s -> timing_ok (fireFrame id s).
Proof.
  intros s H. unfold fireFrame.
  destruct (existsb _ (rafs s)); [|exact H].
  apply raf_cb_timing. exact H.
Qed.

Lemma dispatchTransitionEnd_timing w now :
  forall s, timing_ok s -> timing_ok (dispatchTransitionEnd w now s).
Proof.
  intros s H. unfold dispatchTransitionEnd.
  apply fold_left_invariant; [|exact H].
  intros s' c Hs'. destruct (existsb _ (listeners s')); [|exact Hs'].
  unfold endHandler. destruct w; [apply advance_timing|]; exact Hs'.
Qed.

Lemma step_timing now e : forall s, timing_ok s -> timing_ok (step now e s).
Proof.
  destruct e; cbn [step].
  - apply fireTimeout_timing.
  - apply fireFrame_timing.
  - apply dispatchTransitionEnd_timing.
  - apply onNextClick_timing.
  - apply onPrevClick_timing.
  - apply onDotClick_timing.
  - apply onKeydown_timing.
  - apply onViewportClick_timing.
  - apply pauseAutoplay_timing.
  - apply resumeAutoplay_timing.
  - apply next_timing.
  - apply prev_timing.
  - apply setActive_timing.
  - apply initialize_timing.
  - apply pauseForViewport_timing.
  - apply resumeFromViewportPause_timing.
  - apply onFullscreenOpen_timing.
  - apply onFullscreenClose_timing.
  - apply cleanup_timing.
Qed.

Lemma create_timing n hasFill : timing_ok (create n hasFill).
Proof.
  unfold timing_ok, elapsed_ok, fill_ok, create; cbn.
  split; [unfold intervalMs; split; lra|]. destruct hasFill; exact I.
Qed.

(** C8.  Whatever the page and the browser do to an instance, and however
    late the clock reads ([now] is arbitrary at every step), the recorded
    elapsed time stays within [[0, intervalMs]] and every width the script
    writes on the progress fill is a percentage within [[0, 100]], that is
    a fraction within [[0, 1]]; in particular after each of
    [pauseAutoplay], [pauseForViewport] and [startAuto]. *)
Theorem elapsed_and_fraction_clamped :
  forall (n : Z) (hasFill : bool) (tr : list (Q * Event)) (now : Q),
    let s := run tr (create n hasFill) in
    ((0 <= pauseElapsed s /\ pauseElapsed s <= intervalMs)%Q /\ fill_ok s) /\
    timing_ok (pauseAutoplay now s) /\
    timing_ok (pauseForViewport now s) /\
    timing_ok (startAuto now s).
Proof.
  intros n hasFill tr now s.
  assert (Hs : timing_ok s).
  { apply (run_invariant timing_ok (fun _ => True)).
    - intros now' e s' _. apply step_timing.
    - apply Forall_forall. intros; exact I.
    - apply create_timing. }
  split; [exact Hs|].
  split; [apply pauseAutoplay_timing, Hs|].
  split; [apply pauseForViewport_timing, Hs|apply startAuto_timing, Hs].
Qed.

(** ** The active index wraps around and stays in range *)

Ltac index_finish :=
  unfold index_ok in *; cbn in *;
  repeat match goal with
  | H : _ /\ _ |- _ => destruct H
  end;
  subst;
  repeat match goal with
  | |- _ /\ _ => split
  end;
  try reflexivity; try assumption; try lia;
  try (apply js_rem_range; lia).

Lemma stopAuto_index m :
  forall s, index_ok m s -> index_ok m (stopAuto s).
Proof. exec ltac:(destruct de, pf, peh, tm, af); index_finish. Qed.

Lemma startAuto_index m now :
  forall s, index_ok m s -> index_ok m (startAuto now s).
Proof. exec ltac:(destruct de, vp, pf, peh, tm, af); index_finish. Qed.

Lemma advance_index m c now :
  forall s, index_ok m s -> index_ok m (advance c now s).
Proof. exec ltac:(destruct de, vp, pa, pf, peh, tm, af); index_finish. Qed.

Lemma raf_cb_index m :
  forall s, index_ok m s -> index_ok m (raf_cb s).
Proof. exec ltac:(destruct de, vp, pa, pf, af); index_finish. Qed.

Lemma fallback_cb_index m c now :
  forall s, index_ok m s -> index_ok m (fallback_cb c now s).
Proof. exec ltac:(destruct de, vp, pa, pf, peh, tm, af); index_finish. Qed.

Lemma init_cb_index m id now :
  forall s, index_ok m s -> index_ok m (init_cb id now s).
Proof. exec ltac:(destruct de, vp, pa, pf, peh, tm, af); index_finish. Qed.

Lemma pauseAutoplay_index m now :
  forall s, index_ok m s -> index_ok m (pauseAutoplay now s).
Proof. exec ltac:(destruct de, pa, pf, peh, tm, af); index_finish. Qed.

Lemma resumeAutoplay_index m now :
  forall s, index_ok m s -> index_ok m (resumeAutoplay now s).
Proof. exec ltac:(destruct de, vp, pa, pf, peh, tm, af); index_finish. Qed.

Lemma pauseForViewport_index m now :
  forall s, index_ok m s -> index_ok m (pauseForViewport now s).
Proof. exec ltac:(destruct de, vp, pa, pf, peh, tm, af); index_finish. Qed.

Lemma resumeFromViewportPause_index m now :
  forall s, index_ok m s -> index_ok m (resumeFromViewportPause now s).
Proof. exec ltac:(destruct de, pa, pbf, sas, pf, peh, tm, af); index_finish. Qed.

Lemma initialize_index m now :
  forall s, index_ok m s -> index_ok m (initialize now s).
Proof. exec ltac:(destruct de, ini, pbf, pf, peh, tm, af); index_finish. Qed.

Lemma onFullscreenOpen_index m now :
  forall s, index_ok m s -> index_ok m (onFullscreenOpen now s).
Proof. exec ltac:(destruct de, ini, pa, pf, peh, tm, af); index_finish. Qed.

Lemma onFullscreenClose_index m now :
  forall s, index_ok m s -> index_ok m (onFullscreenClose now s).
Proof. exec ltac:(destruct de, ini, iiv, vp, pf, peh, tm, af); index_finish. Qed.

Lemma onNextClick_index m now :
  forall s, index_ok m s -> index_ok m (onNextClick now s).
Proof. exec ltac:(destruct de, vp, pa, pf, peh, tm, af); index_finish. Qed.

Lemma onPrevClick_index m now :
  forall s, index_ok m s -> index_ok m (onPrevClick now s).
Proof. exec ltac:(destruct de, vp, pa, pf, peh, tm, af); index_finish. Qed.

Lemma onDotClick_index m idx0 now :
  forall s, index_ok m s -> index_ok m (onDotClick idx0 now s).
Proof. exec ltac:(destruct de, vp, pa, pf, peh, tm, af); index_finish. Qed.

Lemma onKeydown_index m k now :
  forall s, index_ok m s -> index_ok m (onKeydown k now s).
Proof. exec ltac:(destruct k; destruct de, vp, pa, pf, peh, tm, af); index_finish. Qed.

Lemma onViewportClick_index m r now :
  forall s, index_ok m s -> index_ok m (onViewportClick r now s).
Proof. exec ltac:(destruct r; destruct de, vp, pa, pf, peh, tm, af); index_finish. Qed.

Lemma next_index m :
  forall s, index_ok m s -> index_ok m (next s).
Proof. exec ltac:(destruct de, pf, peh, tm, af); index_finish. Qed.

Lemma prev_index m :
  forall s, index_ok m s -> index_ok m (prev s).
Proof. exec ltac:(destruct de, pf, peh, tm, af); index_finish. Qed.

Lemma setActive_index m i r :
  forall s, - m <= i -> index_ok m s -> index_ok m (setActive i r s).
Proof.
  intros s Hi H. destruct r; [rewrite setActive_true|unfold setActive];
    revert H; destruct s as [n pf idx tm af sts pe pa vp ini de pbf sas iiv
                               peh cf cto cra cells ls tos rf nt nr ro];
    intros H; destruct de, pf; norm; norm_in H; split_residual;
    index_finish.
Qed.

Lemma cleanup_index m : forall s, index_ok m s -> index_ok m (cleanup s).
Proof.
  intros s H. rewrite cleanup_eq. destruct (destroyed s); [exact H|].
  unfold cleanup_result. index_finish.
Qed.

Lemma fireTimeout_index m id now :
  forall s, index_ok m s -> index_ok m (fireTimeout id now s).
Proof.
  intros s H. unfold fireTimeout.
  destruct (find _ (timeouts s)) as [t|]; [|exact H].
  destruct (Qle_bool (t_due t) now); [|exact H].
  destruct (t_cb t).
  - apply init_cb_index. exact H.
  - apply fallback_cb_index. exact H.
Qed.

Lemma fireFrame_index m id :
  forall s, index_ok m s -> index_ok m (fireFrame id s).
Proof.
  intros s H. unfold fireFrame.
  destruct (existsb _ (rafs s)); [|exact H].
  apply raf_cb_index. exact H.
Qed.

Lemma dispatchTransitionEnd_index m w now :
  forall s, index_ok m s -> index_ok m (dispatchTransitionEnd w now s).
Proof.
  intros s H. unfold dispatchTransitionEnd.
  apply fold_left_invariant; [|exact H].
  intros s' c Hs'. destruct (existsb _ (listeners s')); [|exact Hs'].
  unfold endHandler. destruct w; [apply advance_index|]; exact Hs'.
Qed.

Lemma step_index m now e :
  forall s, slide_change m e -> index_ok m s -> index_ok m (step now e s).
Proof.
  destruct e; cbn [step slide_change]; intros s He.
  - apply fireTimeout_index.
  - apply fireFrame_index.
  - apply dispatchTransitionEnd_index.
  - apply onNextClick_index.
  - apply onPrevClick_index.
  - apply onDotClick_index.
  - apply onKeydown_index.
  - apply onViewportClick_index.
  - apply pauseAutoplay_index.
  - apply resumeAutoplay_index.
  - apply next_index.
  - apply prev_index.
  - apply setActive_index. exact He.
  - apply initialize_index.
  - apply pauseForViewport_index.
  - apply resumeFromViewportPause_index.
  - apply onFullscreenOpen_index.
  - apply onFullscreenClose_index.
  - apply cleanup_index.
Qed.

Lemma next_index_eq s :
  destroyed s = false ->
  index (next s) = js_rem (index s + 1 + nslides s) (nslides s).
Proof.
  revert s. exec ltac:(destruct de, pf, peh, tm, af); try discriminate;
    reflexivity.
Qed.

Lemma prev_index_eq s :
  destroyed s = false ->
  index (prev s) = js_rem (index s - 1 + nslides s) (nslides s).
Proof.
  revert s. exec ltac:(destruct de, pf, peh, tm, af); try discriminate;
    reflexivity.
Qed.

(** C7.  With at least one slide and the index in range: [next] from the
    last slide yields slide 0, [prev] from slide 0 yields the last slide,
    both are the modular successor and predecessor, and along every trace
    of slide changes (clicks, keys, dots, auto-advance, observer and
    fullscreen calls, teardown) the index stays within [[0, slideCount)]. *)
Theorem wrap_around :
  forall (s : Instance),
    1 <= nslides s ->
    0 <= index s < nslides s ->
    destroyed s = false ->
    (index s = nslides s - 1 -> index (next s) = 0) /\
    (index s = 0 -> index (prev s) = nslides s - 1) /\
    index (next s) = (index s + 1) mod nslides s /\
    index (prev s) = (index s - 1) mod nslides s /\
    (forall tr : list (Q * Event),
        Forall (fun te => slide_change (nslides s) (snd te)) tr ->
        0 <= index (run tr s) < nslides s).
Proof.
  intros s Hn Hi Hd.
  assert (Hnext : index (next s) = (index s + 1) mod nslides s).
  { rewrite next_index_eq by exact Hd. apply js_rem_wrap; lia. }
  assert (Hprev : index (prev s) = (index s - 1) mod nslides s).
  { rewrite prev_index_eq by exact Hd. apply js_rem_wrap; lia. }
  split; [|split; [|split; [exact Hnext|split; [exact Hprev|]]]].
  - intros Hlast. rewrite Hnext, Hlast.
    replace (nslides s - 1 + 1) with (nslides s) by lia.
    apply Z.mod_same. lia.
  - intros Hfirst. rewrite Hprev, Hfirst.
    replace (0 - 1) with (nslides s - 1 + (-1) * nslides s) by lia.
    rewrite Z.mod_add by lia.
    apply Z.mod_small. lia.
  - intros tr Htr.
    assert (H : index_ok (nslides s) (run tr s)).
    { apply (run_invariant (index_ok (nslides s)) (slide_change (nslides s))).
      - intros now e s' He. apply step_index. exact He.
      - exact Htr.
      - unfold index_ok. auto. }
    destruct H as (_ & _ & H). exact H.
Qed.

(** A four-slide instance that has started playing: the theorem applies at
    the last slide, at the first slide and along a trace of two slide
    changes. *)
Lemma wrap_around_witness :
  let s := run [(0%Q, CallInitialize); (100%Q, EvTimeout 1%nat)] (create 4 true) in
  index (next (set_index 3 s)) = 0 /\
  index (prev s) = 3 /\
  0 <= index (run [(200%Q, EvNextClick); (300%Q, EvKeydown ArrowLeft)] s) < 4.
Proof.
  intros s.
  assert (Hn : nslides s = 4) by (vm_compute; reflexivity).
  assert (Hi : index s = 0) by (vm_compute; reflexivity).
  assert (Hd : destroyed s = false) by (vm_compute; reflexivity).
  assert (Hn3 : nslides (set_index 3 s) = 4) by (vm_compute; reflexivity).
  assert (Hi3 : index (set_index 3 s) = 3) by (vm_compute; reflexivity).
  assert (Hd3 : destroyed (set_index 3 s) = false) by (vm_compute; reflexivity).
  split; [|split].
  - apply (wrap_around (set_index 3 s)); rewrite ?Hn3, ?Hi3; try lia.
    exact Hd3.
  - replace 3 with (nslides s - 1) by (rewrite Hn; reflexivity).
    apply (wrap_around s); rewrite ?Hn, ?Hi; try lia. exact Hd.
  - replace 4 with (nslides s) by exact Hn.
    apply (wrap_around s); rewrite ?Hn, ?Hi; try lia; [exact Hd|].
    repeat constructor.
Defined.

(** ** The lightbox navigates its own image list only *)

(** C9.  [nextImage] and [prevImage] leave every carousel instance (its
    active index included), the viewport observer, the image list and the
    owner reference as they are; with more than one image they move the
    lightbox index to its modular successor or predecessor and show that
    image without an error, and with at most one image they do nothing. *)
Theorem lightbox_navigation_frame :
  forall (w : World),
    let m := modal w in
    let len := Z.of_nat (length (currentImages m)) in
    let wn := state_of (nextImage w) in
    let wp := state_of (prevImage w) in
    (carousels wn = carousels w /\ carousels wp = carousels w) /\
    (forall k, option_map index (nth_error (carousels wn) k) =
               option_map index (nth_error (carousels w) k)) /\
    (forall k, option_map index (nth_error (carousels wp) k) =
               option_map index (nth_error (carousels w) k)) /\
    (vo wn = vo w /\ vo wp = vo w) /\
    (currentImages (modal wn) = currentImages m /\
     currentImages (modal wp) = currentImages m) /\
    (originalCarousel (modal wn) = originalCarousel m /\
     originalCarousel (modal wp) = originalCarousel m) /\
    (1 < len -> 0 <= currentIndex m < len ->
       currentIndex (modal wn) = (currentIndex m + 1) mod len /\
       currentIndex (modal wp) = (currentIndex m - 1) mod len /\
       (exists w', nextImage w = Done w') /\
       (exists w', prevImage w = Done w')) /\
    (len <= 1 -> nextImage w = Done w /\ prevImage w = Done w).
Proof.
  intros w m len wn wp.
  assert (Hn : carousels wn = carousels w /\ vo wn = vo w /\
               currentImages (modal wn) = currentImages m /\
               originalCarousel (modal wn) = originalCarousel m).
  { subst wn. unfold nextImage. fold m.
    destruct (1 <? length (currentImages m))%nat; [|cbn; auto].
    match goal with
    | |- context [showCurrentImage ?x] =>
        destruct (showCurrentImage_frame x) as (H1 & H2 & H3 & _ & H5 & _)
    end.
    cbv zeta in *. rewrite H1, H2, H3, H5. cbn. auto. }
  assert (Hp : carousels wp = carousels w /\ vo wp = vo w /\
               currentImages (modal wp) = currentImages m /\
               originalCarousel (modal wp) = originalCarousel m).
  { subst wp. unfold prevImage. fold m.
    destruct (1 <? length (currentImages m))%nat; [|cbn; auto].
    match goal with
    | |- context [showCurrentImage ?x] =>
        destruct (showCurrentImage_frame x) as (H1 & H2 & H3 & _ & H5 & _)
    end.
    cbv zeta in *. rewrite H1, H2, H3, H5. cbn. auto. }
  destruct Hn as (Hn1 & Hn2 & Hn3 & Hn4).
  destruct Hp as (Hp1 & Hp2 & Hp3 & Hp4).
  split; [auto|]. split; [intros k; rewrite Hn1; reflexivity|].
  split; [intros k; rewrite Hp1; reflexivity|].
  split; [auto|]. split; [auto|]. split; [auto|]. split.
  - intros Hlen Hidx.
    assert (Hb : (1 <? length (currentImages m))%nat = true).
    { apply Nat.ltb_lt. subst len. lia. }
    assert (En : js_rem (currentIndex m + 1) len = (currentIndex m + 1) mod len).
    { unfold js_rem. apply Z.rem_mod_nonneg; lia. }
    assert (Ep : js_rem (currentIndex m - 1 + len) len
                 = (currentIndex m - 1) mod len).
    { apply js_rem_wrap; lia. }
    subst wn wp. unfold nextImage, prevImage. fold m. rewrite Hb. fold len.
    rewrite En, Ep.
    repeat match goal with
    | |- context [showCurrentImage ?x] =>
        let H := fresh "Hf" in
        pose proof (showCurrentImage_frame x) as H;
        let D := fresh "Hd" in
        assert (D : exists w', showCurrentImage x = Done w');
        [apply showCurrentImage_done; cbn; fold m; fold len;
         apply Z.mod_pos_bound; lia|];
        generalize dependent (showCurrentImage x); intros
    end.
    cbv zeta in *.
    destruct Hf as (_ & _ & _ & Hci & _), Hf0 as (_ & _ & _ & Hci0 & _).
    rewrite Hci, Hci0. cbn. auto.
  - intros Hlen.
    assert (Hb : (1 <? length (currentImages m))%nat = false).
    { apply Nat.ltb_ge. subst len. lia. }
    unfold nextImage, prevImage. fold m. rewrite Hb. auto.
Qed.

(** The theorem at a lightbox showing the last of three images over a
    playing carousel: next wraps to image 0, the carousel is untouched. *)
Lemma lightbox_navigation_frame_witness :
  let w := state_of (openModal three_images 2 (Some 0%nat) 0 (page1 true)) in
  currentIndex (modal (state_of (nextImage w))) = 0 /\
  currentIndex (modal (state_of (prevImage w))) = 1 /\
  carousels (state_of (nextImage w)) = carousels w.
Proof.
  intros w.
  pose proof (lightbox_navigation_frame w) as H. cbv zeta in H.
  destruct H as ((Hc & _) & _ & _ & _ & _ & _ & Hidx & _).
  assert (Hm : currentImages (modal w) = three_images) by reflexivity.
  assert (Hi : currentIndex (modal w) = 2) by reflexivity.
  rewrite Hm, Hi in Hidx.
  destruct Hidx as (Hn & Hp & _);
    [cbn; lia | cbn; lia |].
  split; [exact Hn|]. split; [exact Hp|exact Hc].
Defined.

(** ** Teardown is terminal and idempotent *)

Lemma cleanup_destroyed s : destroyed (cleanup s) = true.
Proof.
  rewrite cleanup_eq. destruct (destroyed s) eqn:E; [exact E|reflexivity].
Qed.

Lemma cleanup_noop s : destroyed s = true -> cleanup s = s.
Proof. intros H. unfold cleanup. rewrite H. reflexivity. Qed.

Lemma cleanup_iter s : forall N, Nat.iter (S N) cleanup s = cleanup s.
Proof.
  induction N as [|N IH]; [reflexivity|].
  change (Nat.iter (S (S N)) cleanup s)
    with (cleanup (Nat.iter (S N) cleanup s)).
  rewrite IH. apply cleanup_noop, cleanup_destroyed.
Qed.

(** Every call and every user event starts with the [validateState] (or
    [destroyed]) test. *)
Lemma call_on_destroyed now e s :
  destroyed s = true -> is_call e = true -> step now e s = s.
Proof.
  intros Hd He.
  destruct e; try discriminate He; cbn [step];
    unfold onNextClick, onPrevClick, onDotClick, onKeydown, onViewportClick,
      pauseAutoplay, resumeAutoplay, next, prev, setActive, initialize,
      pauseForViewport, resumeFromViewportPause, onFullscreenOpen,
      onFullscreenClose, cleanup, validateState;
    rewrite Hd; reflexivity.
Qed.

Lemma advance_on_destroyed c now s :
  destroyed s = true -> advance c now s = s.
Proof.
  intros Hd. unfold advance. rewrite Hd, orb_true_r.
  destruct (advanced c s); reflexivity.
Qed.

Lemma fallback_cb_on_destroyed c now :
  forall s, destroyed s = true ->
    forget_browser (fallback_cb c now s) = forget_browser s /\
    destroyed (fallback_cb c now s) = true.
Proof.
  intros s Hd. unfold fallback_cb. rewrite Hd.
  rewrite andb_false_r. cbn [negb andb]. cbv zeta.
  destruct s as [n pf idx tm af sts pe pa vp ini de pbf sas iiv peh
                   cf cto cra cells ls tos rf nt nr ro].
  cbn in Hd. subst de. destruct tm; split; reflexivity.
Qed.

Lemma init_cb_on_destroyed id now :
  forall s, destroyed s = true ->
    forget_browser (init_cb id now s) = forget_browser s /\
    destroyed (init_cb id now s) = true.
Proof.
  intros s Hd. unfold init_cb. rewrite Hd.
  rewrite andb_false_r. cbn [negb andb]. cbv zeta.
  destruct s; split; [reflexivity|exact Hd].
Qed.

Lemma raf_cb_on_destroyed :
  forall s, destroyed s = true ->
    forget_browser (raf_cb s) = forget_browser s /\
    destroyed (raf_cb s) = true.
Proof.
  intros s Hd.
  destruct s as [n pf idx tm af sts pe pa vp ini de pbf sas iiv peh
                   cf cto cra cells ls tos rf nt nr ro].
  cbn in Hd. subst de. destruct pf, af, vp; split; reflexivity.
Qed.

Lemma callback_on_destroyed now e s :
  destroyed s = true ->
  forget_browser (step now e s) = forget_browser s /\
  destroyed (step now e s) = true.
Proof.
  intros Hd. destruct (is_call e) eqn:He.
  { rewrite call_on_destroyed by assumption. auto. }
  destruct e; try discriminate He; cbn [step].
  - unfold fireTimeout.
    destruct (find _ (timeouts s)) as [t|]; [|auto].
    destruct (Qle_bool (t_due t) now); [|auto].
    assert (Hc : forget_browser (clearTimeout id s) = forget_browser s /\
                 destroyed (clearTimeout id s) = true)
      by (destruct s; split; [reflexivity|exact Hd]).
    destruct Hc as [Hc1 Hc2]. rewrite <- Hc1.
    destruct (t_cb t);
      [apply init_cb_on_destroyed|apply fallback_cb_on_destroyed]; exact Hc2.
  - unfold fireFrame.
    destruct (existsb _ (rafs s)); [|auto].
    assert (Hc : forget_browser (cancelAnimationFrame id s) = forget_browser s
                 /\ destroyed (cancelAnimationFrame id s) = true)
      by (destruct s; split; [reflexivity|exact Hd]).
    destruct Hc as [Hc1 Hc2]. rewrite <- Hc1.
    apply raf_cb_on_destroyed. exact Hc2.
  - unfold dispatchTransitionEnd.
    apply (fold_left_invariant
             (fun s' => forget_browser s' = forget_browser s /\
                        destroyed s' = true)); [|auto].
    intros s' c [H1 H2].
    destruct (existsb _ (listeners s')); [|auto].
    unfold endHandler.
    assert (Hr : forget_browser (removeEventListener c s') = forget_browser s'
                 /\ destroyed (removeEventListener c s') = true)
      by (destruct s'; split; [reflexivity|exact H2]).
    destruct Hr as [Hr1 Hr2].
    destruct onWidth; [rewrite advance_on_destroyed by exact Hr2|];
      rewrite Hr1; auto.
Qed.

Lemma run_on_destroyed tr : forall s,
  destroyed s = true ->
  forget_browser (run tr s) = forget_browser s /\ destroyed (run tr s) = true.
Proof.
  induction tr as [|[now e] tr IH]; intros s Hd; [auto|].
  cbn [run].
  destruct (callback_on_destroyed now e s Hd) as [H1 H2].
  destruct (IH _ H2) as [H3 H4]. rewrite H3, H1. auto.
Qed.

(** What [cleanup] cancels: every timeout and frame whose handle is in the
    tracking sets. *)
Lemma fold_filter_tracked (l : list nat) : forall ts : list Timeout,
  (forall t, In t ts -> In (t_id t) l) ->
  fold_left (fun ts id => filter (fun t => negb (Nat.eqb id (t_id t))) ts) l ts
  = [].
Proof.
  induction l as [|x l IH]; intros ts H.
  - destruct ts as [|t ts]; [reflexivity|].
    destruct (H t (or_introl eq_refl)).
  - cbn [fold_left]. apply IH. intros t Ht.
    apply filter_In in Ht. destruct Ht as [Ht Hx].
    destruct (H t Ht) as [E|Hin]; [|exact Hin].
    subst x. rewrite Nat.eqb_refl in Hx. discriminate Hx.
Qed.

Lemma fold_set_delete_tracked (l : list nat) : forall rs : list nat,
  (forall r, In r rs -> In r l) ->
  fold_left (fun r id => set_delete id r) l rs = [].
Proof.
  induction l as [|x l IH]; intros rs H.
  - destruct rs as [|r rs]; [reflexivity|].
    destruct (H r (or_introl eq_refl)).
  - cbn [fold_left]. apply IH. intros r Hr.
    unfold set_delete in Hr. apply filter_In in Hr. destruct Hr as [Hr Hx].
    destruct (H r Hr) as [E|Hin]; [|exact Hin].
    subst x. rewrite Nat.eqb_refl in Hx. discriminate Hx.
Qed.

Lemma cleanup_cancels_tracked s :
  destroyed s = false ->
  (forall t, In t (timeouts s) -> In (t_id t) (cleanupTimeouts s)) ->
  (forall r, In r (rafs s) -> In r (cleanupRafs s)) ->
  timeouts (cleanup s) = [] /\ rafs (cleanup s) = [].
Proof.
  intros Hd Ht Hr. rewrite cleanup_eq, Hd. unfold cleanup_result. cbn.
  split; [apply fold_filter_tracked, Ht|apply fold_set_delete_tracked, Hr].
Qed.

(** A late [transitionend] on a destroyed instance uses up the one-shot
    listeners and changes nothing else. *)
Lemma transitionEnd_on_destroyed w now s :
  destroyed s = true ->
  set_listeners [] (dispatchTransitionEnd w now s) = set_listeners [] s.
Proof.
  intros Hd. unfold dispatchTransitionEnd.
  apply (fold_left_invariant
           (fun s' => set_listeners [] s' = set_listeners [] s /\
                      destroyed s' = true)); [|auto].
  intros s' c [H1 H2].
  destruct (existsb _ (listeners s')); [|auto].
  unfold endHandler.
  assert (Hr : set_listeners [] (removeEventListener c s') = set_listeners [] s'
               /\ destroyed (removeEventListener c s') = true)
    by (destruct s'; split; [reflexivity|exact H2]).
  destruct Hr as [Hr1 Hr2].
  destruct w; [rewrite advance_on_destroyed by exact Hr2|];
    rewrite Hr1; auto.
Qed.

Lemma tracked_by_check {A : Type} (key : A -> nat) (l : list A)
  (tracked : list nat) :
  forallb (fun x => existsb (Nat.eqb (key x)) tracked) l = true ->
  forall x, In x l -> In (key x) tracked.
Proof.
  intros H x Hx. rewrite forallb_forall in H. specialize (H x Hx).
  apply existsb_exists in H. destruct H as (y & Hy & E).
  apply Nat.eqb_eq in E. subst y. exact Hy.
Qed.

(** Teardown in general.  [cleanup] is idempotent ([N] calls leave the
    state one call leaves) and [destroyed] stays set along every later
    trace.  On a
    destroyed instance every call of the exported operations, a second
    [initialize] included, and every user event returns the state
    unchanged.  Late callbacks are discarded: [cleanup] cancels every
    tracked timeout and frame, so none of them runs; the closure [advance]
    behind a late [transitionend] returns the state unchanged and the
    event only uses up its one-shot listeners; and whatever callback the
    browser still runs leaves every variable of the instance as it was,
    touching only the browser queues it is taken from and the dead handles
    into them. *)
Theorem teardown_terminal :
  forall (s : Instance) (N : nat) (now : Q) (e : Event) (c id : nat)
         (onWidth : bool) (tr : list (Q * Event)),
    (1 <= N)%nat ->
    let d := cleanup s in
    Nat.iter N cleanup s = d /\
    destroyed d = true /\
    destroyed (run tr d) = true /\
    forget_browser (run tr d) = forget_browser d /\
    (is_call e = true -> step now e d = d) /\
    initialize now d = d /\
    advance c now d = d /\
    set_listeners [] (step now (EvTransitionEnd onWidth) d)
      = set_listeners [] d /\
    forget_browser (step now e d) = forget_browser d /\
    (destroyed s = false ->
     (forall t, In t (timeouts s) -> In (t_id t) (cleanupTimeouts s)) ->
     (forall r, In r (rafs s) -> In r (cleanupRafs s)) ->
     timeouts d = [] /\ rafs d = [] /\
     step now (EvTimeout id) d = d /\ step now (EvFrame id) d = d).
Proof.
  intros s N now e c id onWidth tr HN d.
  assert (Hd : destroyed d = true) by apply cleanup_destroyed.
  split.
  { destruct N as [|N]; [lia|]. apply cleanup_iter. }
  split; [exact Hd|].
  split; [apply run_on_destroyed, Hd|].
  split; [apply run_on_destroyed, Hd|].
  split; [intros He; apply call_on_destroyed; assumption|].
  split; [apply (call_on_destroyed now CallInitialize d Hd eq_refl)|].
  split; [apply advance_on_destroyed, Hd|].
  split; [apply transitionEnd_on_destroyed, Hd|].
  split; [apply callback_on_destroyed, Hd|].
  intros Hs Ht Hr.
  destruct (cleanup_cancels_tracked s Hs Ht Hr) as [H1 H2]. fold d in H1, H2.
  split; [exact H1|]. split; [exact H2|].
  cbn [step]. unfold fireTimeout, fireFrame. rewrite H1, H2. auto.
Qed.

(** The theorem at a playing instance torn down three times, then asked
    to initialize again; its one timeout and one frame are tracked, so
    nothing is left to run. *)
Lemma teardown_terminal_witness :
  Nat.iter 3 cleanup playing4 = cleanup playing4 /\
  step 9000 CallInitialize (cleanup playing4) = cleanup playing4 /\
  timeouts (cleanup playing4) = [] /\ rafs (cleanup playing4) = [].
Proof.
  assert (H3 : (1 <= 3)%nat) by lia.
  assert (Hs : destroyed playing4 = false) by (vm_compute; reflexivity).
  assert (Ht : forall t, In t (timeouts playing4) ->
                         In (t_id t) (cleanupTimeouts playing4))
    by (apply tracked_by_check; vm_compute; reflexivity).
  assert (Hr : forall r, In r (rafs playing4) -> In r (cleanupRafs playing4))
    by (apply (tracked_by_check (fun r => r)); vm_compute; reflexivity).
  destruct (teardown_terminal playing4 3 9000 CallInitialize 0 0 true [] H3)
    as (H1 & _ & _ & _ & H5 & _ & _ & _ & _ & H10).
  destruct (H10 Hs Ht Hr) as (T1 & T2 & _).
  split; [exact H1|]. split; [exact (H5 eq_refl)|]. split; assumption.
Defined.

(** C5 (the code departs from the claim).  The instance has advanced once
    through its fallback timer, whose callback dropped the handle of the
    timer armed by that advance (timeout 3), and has then been paused and
    resumed by the viewport, which armed timeout 4.  [cleanup] cancels
    timeout 4, the only one it tracks, and leaves timeout 3 pending.  When
    timeout 3 runs on the destroyed instance its advance is discarded, but
    the callback still ends by clearing the [timer] variable: the state of
    the destroyed instance changes. *)
Theorem stale_fallback_after_teardown :
  let s := run stale_fallback_prefix playing4 in
  let d := step 6000 CallCleanup s in
  let d' := step 10500 (EvTimeout 3) d in
  (destroyed s = false /\ map t_id (timeouts s) = [3; 4]%nat /\
   cleanupTimeouts s = [4]%nat /\ timer s = Some 4%nat) /\
  (destroyed d = true /\ map t_id (timeouts d) = [3]%nat /\
   timer d = Some 4%nat) /\
  (destroyed d' = true /\ index d' = index d /\ timer d' = None) /\
  d' <> d.
Proof.
  intros s d d'.
  assert (A : timer d' = None) by (vm_compute; reflexivity).
  assert (B : timer d = Some 4%nat) by (vm_compute; reflexivity).
  repeat match goal with
  | |- _ /\ _ => split
  end; try (vm_compute; reflexivity).
  clearbody d d'. intros H. rewrite H in A. rewrite A in B. discriminate B.
Qed.

(** ** Fullscreen opened before the carousel was ever visible *)

Ltac held_cases split :=
  let s := fresh "s" in
  let H := fresh "H" in
  intros s H;
  open_ops;
  destruct s as [n pf idx tm af sts pe pa vp ini de pbf sas iiv peh
                   cf cto cra cells ls tos rf nt nr ro];
  unfold held, quiet in H; cbn in H;
  destruct H as (Hflags & Htm & Haf & Hpeh & Htos & Hls & Hrf);
  subst tm af peh tos ls rf;
  destruct Hflags as [Hde | [Hpbf Hpa]];
  [subst de | subst pbf pa];
  split;
  norm; split_residual;
  unfold held, quiet; cbn;
  try solve [intuition (auto; try congruence)].

Lemma initialize_held now : forall s, held s -> held (initialize now s).
Proof. held_cases ltac:(try destruct de; destruct ini, pf). Qed.

Lemma pauseForViewport_held now :
  forall s, held s -> held (pauseForViewport now s).
Proof. held_cases ltac:(try destruct de; try destruct pa; destruct vp, pf). Qed.

Lemma resumeFromViewportPause_held now :
  forall s, held s -> held (resumeFromViewportPause now s).
Proof.
  held_cases ltac:(try destruct de; try destruct pa; try destruct pbf;
                   destruct sas, vp, pf).
Qed.

Lemma onNextClick_held now : forall s, held s -> held (onNextClick now s).
Proof. held_cases ltac:(try destruct de; try destruct pa; destruct vp, pf). Qed.

Lemma onPrevClick_held now : forall s, held s -> held (onPrevClick now s).
Proof. held_cases ltac:(try destruct de; try destruct pa; destruct vp, pf). Qed.

Lemma onDotClick_held i now : forall s, held s -> held (onDotClick i now s).
Proof. held_cases ltac:(try destruct de; try destruct pa; destruct vp, pf). Qed.

Lemma onKeydown_held k now : forall s, held s -> held (onKeydown k now s).
Proof.
  held_cases ltac:(destruct k; try destruct de; try destruct pa;
                   destruct vp, pf).
Qed.

Lemma onViewportClick_held r now :
  forall s, held s -> held (onViewportClick r now s).
Proof.
  held_cases ltac:(destruct r; try destruct de; try destruct pa;
                   destruct vp, pf).
Qed.

Lemma fold_filter_nil {A B : Type} (p : B -> A -> bool) (l : list B) :
  fold_left (fun ts id => filter (p id) ts) l [] = [].
Proof. induction l as [|x l IH]; [reflexivity|exact IH]. Qed.

Lemma fold_set_delete_nil (l : list nat) :
  fold_left (fun r id => set_delete id r) l [] = [].
Proof. induction l as [|x l IH]; [reflexivity|exact IH]. Qed.

Lemma cleanup_held : forall s, held s -> held (cleanup s).
Proof.
  intros s H. rewrite cleanup_eq. destruct (destroyed s); [exact H|].
  destruct H as (_ & Htm & Haf & Hpeh & Htos & Hls & Hrf).
  unfold held, quiet, cleanup_result. cbn.
  rewrite Htos, Hrf.
  rewrite (fold_filter_nil (fun id t => negb (Nat.eqb id (t_id t)))).
  rewrite fold_set_delete_nil. auto 10.
Qed.

(** With nothing pending, the browser has no callback to run. *)
Lemma step_held now e :
  forall s, user_or_browser e = true -> held s -> held (step now e s).
Proof.
  intros s He H. destruct e; try discriminate He; cbn [step].
  - destruct H as (Hf & Htm & Haf & Hpeh & Htos & Hls & Hrf).
    unfold fireTimeout. rewrite Htos. cbn. unfold held, quiet. auto 10.
  - destruct H as (Hf & Htm & Haf & Hpeh & Htos & Hls & Hrf).
    unfold fireFrame. rewrite Hrf. cbn. unfold held, quiet. auto 10.
  - destruct H as (Hf & Htm & Haf & Hpeh & Htos & Hls & Hrf).
    unfold dispatchTransitionEnd. rewrite Hls. cbn. unfold held, quiet.
    auto 10.
  - apply onNextClick_held, H.
  - apply onPrevClick_held, H.
  - apply onDotClick_held, H.
  - apply onKeydown_held, H.
  - apply onViewportClick_held, H.
Qed.

(** *** The same at the level of the page *)

Lemma nth_error_list_set_eq {A : Type} (l : list A) : forall k x y,
  nth_error l k = Some y -> nth_error (list_set k x l) k = Some x.
Proof.
  induction l as [|a l IH]; intros [|k] x y H; try discriminate H.
  - reflexivity.
  - cbn. apply (IH k x y). exact H.
Qed.

Lemma nth_error_list_set_neq {A : Type} (l : list A) : forall j k x,
  j <> k -> nth_error (list_set j x l) k = nth_error l k.
Proof.
  induction l as [|a l IH]; intros [|j] [|k] x H; try reflexivity.
  - contradiction.
  - cbn. apply IH. congruence.
Qed.

Lemma on_carousel_same k f w s :
  nth_error (carousels w) k = Some s ->
  nth_error (carousels (on_carousel k f w)) k = Some (f s) /\
  modal (on_carousel k f w) = modal w /\
  vo (on_carousel k f w) = vo w.
Proof.
  intros H. unfold on_carousel. rewrite H. cbn.
  split; [apply (nth_error_list_set_eq _ _ _ s H)|auto].
Qed.

Lemma on_carousel_other j k f w :
  j <> k ->
  nth_error (carousels (on_carousel j f w)) k = nth_error (carousels w) k /\
  modal (on_carousel j f w) = modal w /\
  vo (on_carousel j f w) = vo w.
Proof.
  intros H. unfold on_carousel.
  destruct (nth_error (carousels w) j); cbn; [|auto].
  split; [apply nth_error_list_set_neq; exact H|auto].
Qed.

Lemma on_carousel_holds k j f w :
  (forall s, held s -> held (f s)) ->
  overlay_holds k w -> overlay_holds k (on_carousel j f w).
Proof.
  intros Hf ((s & Hs & Hh) & Ho & Hc).
  destruct (Nat.eq_dec j k) as [->|Hne].
  - destruct (on_carousel_same k f w s Hs) as (H1 & H2 & _).
    unfold overlay_holds. rewrite H2. split; [|auto].
    exists (f s). auto.
  - destruct (on_carousel_other j k f w Hne) as (H1 & H2 & _).
    unfold overlay_holds. rewrite H1, H2. split; [|auto].
    exists s. auto.
Qed.

Lemma set_modal_holds k m w :
  originalCarousel m = originalCarousel (modal w) ->
  closeTimers m = closeTimers (modal w) ->
  overlay_holds k w -> overlay_holds k (set_modal m w).
Proof.
  intros H1 H2 (Hs & Ho & Hc). unfold overlay_holds. cbn.
  rewrite H1, H2. auto.
Qed.

Lemma showCurrentImage_holds k w :
  overlay_holds k w -> overlay_holds k (state_of (showCurrentImage w)).
Proof.
  intros (Hs & Ho & Hc).
  destruct (showCurrentImage_frame w) as (H1 & _ & _ & _ & H5 & _ & H7).
  cbv zeta in *. unfold overlay_holds. rewrite H1, H5, H7. auto.
Qed.

Lemma page_step_holds k now e w :
  overlay_stays_open e -> overlay_holds k w ->
  overlay_holds k (page_step now e w).
Proof.
  intros He H. destruct e; cbn [page_step overlay_stays_open] in *;
    try contradiction.
  - (* intersection report *)
    unfold intersect.
    destruct (observer (vo w) && existsb _ _); [|exact H].
    unfold on_entry. destruct (map_get _ _) as [d|]; [|exact H].
    destruct (isDestroying (vo w)); [exact H|].
    destruct isIntersecting, (isInitialized d); cbn [negb]; try exact H.
    + apply on_carousel_holds; [apply resumeFromViewportPause_held|exact H].
    + unfold mark_initialized.
      match goal with
      | |- overlay_holds _ (set_vo ?o ?w') =>
          assert (Hw : overlay_holds k w')
            by (apply on_carousel_holds; [apply initialize_held|exact H]);
          exact Hw
      end.
    + apply on_carousel_holds; [apply pauseForViewport_held|exact H].
  - apply on_carousel_holds; [|exact H].
    intros s. apply step_held. exact He.
  - unfold fireCloseTimer. destruct H as (Hs & Ho & Hc).
    rewrite Hc. unfold overlay_holds. auto.
  - unfold nextImage. destruct (1 <? _)%nat; [|exact H].
    apply showCurrentImage_holds. apply set_modal_holds; auto.
  - unfold prevImage. destruct (1 <? _)%nat; [|exact H].
    apply showCurrentImage_holds. apply set_modal_holds; auto.
  - unfold onModalKeydown. destruct (negb (active (modal w))); [exact H|].
    destruct key; try contradiction; try exact H.
    + unfold nextImage. destruct (1 <? _)%nat; [|exact H].
      apply showCurrentImage_holds. apply set_modal_holds; auto.
    + unfold prevImage. destruct (1 <? _)%nat; [|exact H].
      apply showCurrentImage_holds. apply set_modal_holds; auto.
  - destruct H as ((s & Hs & Hh) & Ho & Hc).
    unfold onBeforeUnload, observer_cleanup, overlay_holds. cbn.
    split; [|auto]. exists (cleanup s).
    split; [|apply cleanup_held, Hh].
    rewrite nth_error_map, Hs. reflexivity.
Qed.

Lemma page_run_holds k tr : forall w,
  Forall (fun te => overlay_stays_open (snd te)) tr ->
  overlay_holds k w -> overlay_holds k (page_run tr w).
Proof.
  induction tr as [|[now e] tr IH]; intros w Hall H; [exact H|].
  inversion Hall; subst. cbn [page_run]. apply IH; [assumption|].
  apply page_step_holds; assumption.
Qed.

Lemma onFullscreenClose_starts now :
  forall s,
    held s ->
    destroyed s = false ->
    initialized s = true ->
    isInViewport s = true ->
    viewportPaused s = false ->
    isSome (progressFill s) = true ->
    let s' := onFullscreenClose now s in
    pausedByFullscreen s' = false /\ paused s' = false /\
    isSome (timer s') = true /\ listeners s' <> [].
Proof.
  intros s H Hd Hi Hv Hvp Hpf.
  destruct s as [n pf idx tm af sts pe pa vp ini de pbf sas iiv peh
                   cf cto cra cells ls tos rf nt nr ro].
  unfold held, quiet in H. cbn in *.
  destruct H as (_ & Htm & Haf & Hpeh & Htos & Hls & Hrf).
  subst. destruct pf; [|discriminate Hpf].
  norm. repeat split; try reflexivity.
  intros E. pose proof (set_add_In (length cells) []) as Hin.
  rewrite E in Hin. exact Hin.
Qed.

Lemma onFullscreenOpen_fresh now n hasFill :
  onFullscreenOpen now (create n hasFill) =
  set_shouldAutoStart true
    (set_paused true (set_pausedByFullscreen true (create n hasFill))).
Proof. destruct hasFill; reflexivity. Qed.

Lemma held_after_open n hasFill :
  held (set_shouldAutoStart true
          (set_paused true (set_pausedByFullscreen true (create n hasFill)))).
Proof. unfold held, quiet. cbn. auto 10. Qed.

(** Fullscreen before visibility, when no close timer of an earlier
    lightbox is pending.  A carousel that was never initialized is the
    owner of a fullscreen open.  The open completes without an error; its
    only trace
    in the coordinator is the owner reference, the intent being written
    in the owner's flags [pausedByFullscreen], [paused] and
    [shouldAutoStart].  Whatever then happens short of closing the overlay
    (the carousel scrolling into and out of view, clicks, keys, browser
    callbacks, lightbox navigation, page unload), the carousel arms no
    timer, frame or listener.  Once the overlay is closed and the close
    timer has run, a carousel that has become visible meanwhile starts
    autoplay. *)
Theorem fullscreen_before_visibility :
  forall (w : World) (k : nat) (n : Z) (hasFill : bool)
         (images : list Image) (activeSlideIndex : Z) (now t1 t2 : Q)
         (tr : list (Q * PageEvent)),
    nth_error (carousels w) k = Some (create n hasFill) ->
    closeTimers (modal w) = [] ->
    Z.max 0 activeSlideIndex < Z.of_nat (length images) ->
    Forall (fun te => overlay_stays_open (snd te)) tr ->
    (t1 + 300 <= t2)%Q ->
    exists w1,
      onFullscreenBtn k images activeSlideIndex now w = Done w1 /\
      originalCarousel (modal w1) = Some k /\
      nth_error (carousels w1) k =
        Some (set_shouldAutoStart true
                (set_paused true
                   (set_pausedByFullscreen true (create n hasFill)))) /\
      exists s,
        nth_error (carousels (page_run tr w1)) k = Some s /\
        quiet s /\
        (destroyed s = true \/ pausedByFullscreen s = true) /\
        (destroyed s = false -> initialized s = true ->
         isInViewport s = true -> viewportPaused s = false ->
         isSome (progressFill s) = true ->
         let w3 := page_step t2 PgCloseTimer
                     (page_step t1 PgModalClose (page_run tr w1)) in
         exists s',
           nth_error (carousels w3) k = Some s' /\
           pausedByFullscreen s' = false /\
           isSome (timer s') = true /\ listeners s' <> []).
Proof.
  intros w k n hasFill images asi now t1 t2 tr Hk Hct Hidx Htr Ht.
  unfold onFullscreenBtn, openModal. rewrite Hk.
  set (m := modal w).
  set (w0 := set_modal (mkModal images (Z.max 0 asi) (Some k) (active m)
                          (image_src m) (image_alt m) (counter m)
                          (navVisible m) (closeTimers m)) w).
  assert (Hk0 : nth_error (carousels w0) k = Some (create n hasFill)) by exact Hk.
  destruct (on_carousel_same k (onFullscreenOpen now) w0 _ Hk0)
    as (Hc1 & Hm1 & _).
  set (w0' := on_carousel k (onFullscreenOpen now) w0) in *.
  rewrite onFullscreenOpen_fresh in Hc1.
  destruct (showCurrentImage_done w0') as [w1' Hshow].
  { rewrite Hm1. cbn. lia. }
  rewrite Hshow.
  destruct (showCurrentImage_frame w0') as (F1 & _ & _ & _ & F5 & _ & F7).
  rewrite Hshow in F1, F5, F7. cbn [state_of] in F1, F5, F7.
  exists (set_active true w1').
  split; [reflexivity|].
  split; [cbn; rewrite F5, Hm1; reflexivity|].
  split; [cbn; rewrite F1; exact Hc1|].
  assert (Hold : overlay_holds k (set_active true w1')).
  { unfold overlay_holds. cbn. rewrite F1, F5, F7, Hm1. cbn.
    split; [|split; [reflexivity|exact Hct]].
    eexists. split; [exact Hc1|apply held_after_open]. }
  pose proof (page_run_holds k tr _ Htr Hold) as Hrun.
  set (w2 := page_run tr (set_active true w1')) in *.
  destruct Hrun as ((s & Hs & Hh) & Ho & Hc).
  exists s. split; [exact Hs|]. split; [apply Hh|].
  split; [destruct Hh as ([Hd|[Hp _]] & _); auto|].
  intros Hd Hi Hv Hvp Hpf. cbn [page_step].
  unfold fireCloseTimer, closeModal. cbn. rewrite Hc. cbn.
  assert (Hle : Qle_bool (t1 + 300) t2 = true) by (apply Qle_bool_iff; exact Ht).
  rewrite Hle, Ho.
  match goal with
  | |- context [on_carousel k ?f ?w'] =>
      destruct (on_carousel_same k f w' s Hs) as (G1 & _)
  end.
  eexists. split; [exact G1|].
  destruct (onFullscreenClose_starts t2 s Hh Hd Hi Hv Hvp Hpf)
    as (P1 & _ & P3 & P4).
  auto.
Qed.

(** The scenario on a one-carousel page: fullscreen is opened at 10ms,
    the carousel becomes visible at 500ms (and is initialized, yet quiet),
    the overlay is closed at 2000ms and the carousel plays from 2300ms. *)
Lemma fullscreen_before_visibility_witness :
  exists w1 s,
    onFullscreenBtn 0 three_images (-1) 10 (page1 true) = Done w1 /\
    nth_error (carousels (page_run [(500%Q, PgIntersect 0 true)] w1)) 0
      = Some s /\
    initialized s = true /\ quiet s /\
    exists s',
      nth_error
        (carousels (page_step 2300 PgCloseTimer
                      (page_step 2000 PgModalClose
                         (page_run [(500%Q, PgIntersect 0 true)] w1)))) 0
        = Some s' /\
      isSome (timer s') = true.
Proof.
  assert (Hk : nth_error (carousels (page1 true)) 0 = Some (create 4 true))
    by reflexivity.
  assert (Hct : closeTimers (modal (page1 true)) = []) by reflexivity.
  assert (Hidx : Z.max 0 (-1) < Z.of_nat (length three_images))
    by (vm_compute; reflexivity).
  assert (Htr : Forall (fun te : Q * PageEvent => overlay_stays_open (snd te))
                  [(500%Q, PgIntersect 0 true)])
    by (repeat constructor).
  assert (Ht : (2000 + 300 <= 2300)%Q) by (vm_compute; discriminate).
  destruct (fullscreen_before_visibility (page1 true) 0%nat 4 true
              three_images (-1) 10 2000 2300 _ Hk Hct Hidx Htr Ht)
    as (w1 & Hopen & _ & Hc1 & s & Hs & Hq & _ & Hclose).
  exists w1, s. split; [exact Hopen|]. split; [exact Hs|].
  assert (Hw1 : w1 = state_of (onFullscreenBtn 0 three_images (-1) 10 (page1 true)))
    by (rewrite Hopen; reflexivity).
  assert (Hs' : s = initialize 500 (onFullscreenOpen 10 (create 4 true))).
  { rewrite Hw1 in Hs. vm_compute in Hs. vm_compute. congruence. }
  assert (Hini : initialized s = true) by (rewrite Hs'; reflexivity).
  split; [exact Hini|]. split; [exact Hq|].
  destruct Hclose as (s' & G1 & _ & G3 & _);
    try (rewrite Hs'; reflexivity).
  exists s'. split; [exact G1|exact G3].
Defined.

(** C3 (the code departs from the claim).  The lightbox is opened on a
    carousel that was never initialized, closed, and opened on it again
    within the 300ms of the close timer.  The second open records the
    intent in the owner's flags, but the timer of the first close then
    runs under the open lightbox and calls [onFullscreenClose] on the
    owner, which clears them.  When the carousel becomes visible it is
    initialized, passes the fullscreen test, and starts autoplay after
    the settle delay: the slide advances with the lightbox open and never
    closed since. *)
Theorem stale_close_timer_starts_under_overlay :
  let owner (w : World) := nth_error (carousels w) 0 in
  let w1 := page_run [(10%Q, PgFullscreenBtn 0 three_images (-1));
                      (1000%Q, PgModalClose);
                      (1100%Q, PgFullscreenBtn 0 three_images (-1))]
              (page1 true) in
  let w2 := page_step 1300 PgCloseTimer w1 in
  let w3 := page_run [(2000%Q, PgIntersect 0 true);
                      (2100%Q, PgCarousel 0 (EvTimeout 1))] w2 in
  let w4 := page_run [(2116%Q, PgCarousel 0 (EvFrame 1));
                      (7100%Q, PgCarousel 0 (EvTransitionEnd true))] w3 in
  (active (modal w1) = true /\ originalCarousel (modal w1) = Some 0%nat /\
   option_map initialized (owner w1) = Some false /\
   option_map pausedByFullscreen (owner w1) = Some true /\
   option_map paused (owner w1) = Some true) /\
  (active (modal w2) = true /\
   option_map pausedByFullscreen (owner w2) = Some false /\
   option_map paused (owner w2) = Some false) /\
  (active (modal w3) = true /\
   option_map initialized (owner w3) = Some true /\
   option_map autoplay_running (owner w3) = Some true /\
   option_map index (owner w3) = Some 0) /\
  (active (modal w4) = true /\ closeTimers (modal w4) = [] /\
   option_map index (owner w4) = Some 1 /\
   option_map autoplay_running (owner w4) = Some true).
Proof.
  cbv zeta.
  repeat match goal with
  | |- _ /\ _ => split
  end; vm_compute; reflexivity.
Qed.

(** ** Pausing freezes the progress, resuming continues it *)

Lemma clamp_id lo hi x : (lo <= x)%Q -> (x <= hi)%Q -> clamp lo hi x == x.
Proof.
  intros H1 H2. unfold clamp.
  rewrite (Q.min_r hi x) by exact H2. apply Q.max_r. exact H1.
Qed.

Lemma pct_of_elapsed e x :
  (0 <= e)%Q -> (e <= intervalMs)%Q -> x == e ->
  clamp 0 1 (x / intervalMs) * 100 == e / intervalMs * 100.
Proof.
  intros H1 H2 Hx.
  assert (Hd : x / intervalMs == x * (1 # 5000)) by reflexivity.
  assert (Hc : clamp 0 1 (x / intervalMs) == x / intervalMs)
    by (unfold intervalMs in H2; apply clamp_id; rewrite Hd, Hx; lra).
  rewrite Hc, Hx. reflexivity.
Qed.

Lemma pct_of_zero : clamp 0 1 (0 / intervalMs) * 100 == 0.
Proof. vm_compute. reflexivity. Qed.

Lemma remaining_of_zero : Qmax 16 (intervalMs - 0) == intervalMs.
Proof. vm_compute. reflexivity. Qed.

(** C4, as stated, fails.  A playing instance is paused by the fullscreen
    overlay 2000ms into its 5000ms interval: the fill is frozen at 40%,
    but closing the overlay, with no other pause active, restarts a fresh
    5000ms interval and not the remaining 3000ms.  And a viewport exit
    4990ms into the interval is resumed with 16ms remaining, not 10ms. *)
Lemma resume_remaining_counterexample :
  let s1 := onFullscreenOpen 2100 playing4 in
  let s2 := onFullscreenClose 12100 s1 in
  let v2 := resumeFromViewportPause 20000 (pauseForViewport 5090 playing4) in
  playing playing4 /\
  pauseElapsed s1 == 2000 /\
  no_pause_flag s2 /\
  (exists r w, progressFill s2 = Some (mkFill (Some r) w) /\
               r == 5000 /\ ~ r == intervalMs - 2000) /\
  (exists r w, progressFill v2 = Some (mkFill (Some r) w) /\
               r == 16 /\ ~ r == intervalMs - 4990).
Proof.
  cbv zeta. split; [vm_compute; auto 10|].
  split; [vm_compute; reflexivity|].
  split; [vm_compute; auto|].
  split.
  - eexists. eexists. split; [vm_compute; reflexivity|].
    split; [vm_compute; reflexivity|].
    intros H. vm_compute in H. discriminate H.
  - eexists. eexists. split; [vm_compute; reflexivity|].
    split; [vm_compute; reflexivity|].
    intros H. vm_compute in H. discriminate H.
Qed.

(** C4, amended.  An instance is playing: not destroyed, initialized, in
    the viewport, with a progress fill, none of the three pause flags set,
    no auto-start request pending ([shouldAutoStart] false) and the handle
    of its fallback timer held; its interval started at a time other than
    0.  It is paused [e] milliseconds into the interval, [0 <= e <=
    intervalMs].  By a viewport exit or by [pauseAutoplay]: the fill is
    frozen at [e / intervalMs] and the matching resume, no other pause
    being active, restarts from that position with [max(16, intervalMs -
    e)] remaining.  By the fullscreen overlay: the fill is frozen the same
    way, and closing the overlay restarts a full interval from 0%. *)
Theorem pause_freezes_resume_continues :
  forall (s : Instance) (now1 now2 : Q),
    playing s ->
    ~ startTs s == 0 ->
    let e := (now1 - startTs s)%Q in
    (0 <= e)%Q -> (e <= intervalMs)%Q ->
    (frozen_at e (pauseForViewport now1 s) /\
     restarted_with (Qmax 16 (intervalMs - e)) (e / intervalMs * 100) now2
       (resumeFromViewportPause now2 (pauseForViewport now1 s))) /\
    (frozen_at e (pauseAutoplay now1 s) /\
     restarted_with (Qmax 16 (intervalMs - e)) (e / intervalMs * 100) now2
       (resumeAutoplay now2 (pauseAutoplay now1 s))) /\
    (frozen_at e (onFullscreenOpen now1 s) /\
     restarted_with intervalMs 0 now2
       (onFullscreenClose now2 (onFullscreenOpen now1 s))).
Proof.
  intros s now1 now2 Hp Hts e He0 He1.
  destruct s as [n pf idx tm af sts pe pa vp ini de pbf sas iiv peh
                   cf cto cra cells ls tos rf nt nr ro].
  unfold playing in Hp. cbn in Hp, Hts, e.
  destruct Hp as (Hde & Hini & Hiiv & Hvp & Hpa & Hpbf & Hsas & Htm & Hpf).
  subst de ini iiv vp pa pbf sas.
  destruct tm as [t|]; [|discriminate Htm].
  destruct pf as [f|]; [|discriminate Hpf].
  assert (Hq : Qeq_bool sts 0 = false).
  { destruct (Qeq_bool sts 0) eqn:E; [|reflexivity].
    apply Qeq_bool_eq in E. contradiction. }
  assert (Hc : clamp 0 intervalMs e == e) by (apply clamp_id; assumption).
  assert (Hpct : clamp 0 1 (clamp 0 intervalMs e / intervalMs) * 100
                 == e / intervalMs * 100)
    by (apply pct_of_elapsed; assumption).
  assert (Hrem : Qmax 16 (intervalMs - clamp 0 intervalMs e)
                 == Qmax 16 (intervalMs - e))
    by (rewrite Hc; reflexivity).
  unfold frozen_at, restarted_with, no_pause_flag.
  split; [|split].
  - destruct peh, af; norm; fold e;
      (split; [split; [exact Hc|split; [reflexivity|eauto]]|]);
      (split; [auto|]);
      do 4 eexists;
      (split; [reflexivity|]);
      (split; [exact Hrem|]);
      (split; [exact Hpct|]);
      (split; [reflexivity|]);
      apply in_or_app; right; left; reflexivity.
  - destruct peh, af; norm; rewrite Hq; fold e;
      (split; [split; [exact Hc|split; [reflexivity|eauto]]|]);
      (split; [auto|]);
      do 4 eexists;
      (split; [reflexivity|]);
      (split; [exact Hrem|]);
      (split; [exact Hpct|]);
      (split; [reflexivity|]);
      apply in_or_app; right; left; reflexivity.
  - destruct peh, af; norm; rewrite Hq; fold e;
      (split; [split; [exact Hc|split; [reflexivity|eauto]]|]);
      (split; [auto|]);
      do 4 eexists;
      (split; [reflexivity|]);
      (split; [exact remaining_of_zero|]);
      (split; [exact pct_of_zero|]);
      (split; [reflexivity|]);
      apply in_or_app; right; left; reflexivity.
Qed.

(** The scenario of the specification: paused by a viewport exit 2000ms
    into the interval, resumed 10000ms later. *)
Lemma pause_freezes_resume_continues_witness :
  frozen_at 2000 (pauseForViewport 2100 playing4) /\
  restarted_with 3000 40 12100
    (resumeFromViewportPause 12100 (pauseForViewport 2100 playing4)).
Proof.
  assert (Hp : playing playing4) by (vm_compute; auto 10).
  assert (Hts : ~ startTs playing4 == 0)
    by (intros H; vm_compute in H; discriminate H).
  assert (He0 : (0 <= 2100 - startTs playing4)%Q) by (vm_compute; discriminate).
  assert (He1 : (2100 - startTs playing4 <= intervalMs)%Q)
    by (vm_compute; discriminate).
  destruct (pause_freezes_resume_continues playing4 2100 12100 Hp Hts He0 He1)
    as ((Hf & Hr) & _).
  assert (E : 2100 - startTs playing4 == 2000) by (vm_compute; reflexivity).
  split.
  - destruct Hf as (F1 & F2 & p & F3 & F4).
    split; [rewrite F1; exact E|]. split; [exact F2|].
    exists p. split; [exact F3|]. rewrite F4, E. reflexivity.
  - destruct Hr as (R0 & r & p & t & c & R1 & R2 & R3 & R4 & R5).
    split; [exact R0|]. exists r, p, t, c.
    split; [exact R1|].
    split; [rewrite R2, E; vm_compute; reflexivity|].
    split; [rewrite R3, E; vm_compute; reflexivity|].
    split; [exact R4|exact R5].
Defined.

(** ** Composition of the pause sources *)

Ltac composed_cases split :=
  let s := fresh "s" in
  let H := fresh "H" in
  intros s H;
  open_ops;
  destruct s as [n pf idx tm af sts pe pa vp ini de pbf sas iiv peh
                   cf cto cra cells ls tos rf nt nr ro];
  unfold composed, autoplay_running in H; cbn in H;
  destruct H as (Hde & Hini & Hpf & Hiiv & Hpa & Htm);
  subst de ini iiv pa;
  destruct pf; [|discriminate Hpf];
  split;
  cbn in Htm; try discriminate Htm;
  norm; split_residual;
  unfold composed, autoplay_running; cbn;
  auto 10.

Lemma pauseForViewport_composed now :
  forall s, composed s -> composed (pauseForViewport now s).
Proof. composed_cases ltac:(destruct vp, pbf, tm, af, peh). Qed.

Lemma resumeFromViewportPause_composed now :
  forall s, composed s -> composed (resumeFromViewportPause now s).
Proof. composed_cases ltac:(destruct vp, pbf, sas, tm, af, peh). Qed.

Lemma onFullscreenOpen_composed now :
  forall s, composed s -> composed (onFullscreenOpen now s).
Proof. composed_cases ltac:(destruct vp, pbf, tm, af, peh). Qed.

Lemma onFullscreenClose_composed now :
  forall s, composed s -> composed (onFullscreenClose now s).
Proof. composed_cases ltac:(destruct vp, pbf, tm, af, peh). Qed.

(** The viewport and fullscreen sources compose as the specification asks:
    along any interleaving of their requests the timer runs exactly when
    neither flag is set. *)
Lemma viewport_fullscreen_compose :
  forall (tr : list (Q * Event)) (s : Instance),
    composed s ->
    Forall (fun te => viewport_or_fullscreen (snd te)) tr ->
    autoplay_running (run tr s)
    = negb (viewportPaused (run tr s) || pausedByFullscreen (run tr s)).
Proof.
  intros tr s Hs Htr.
  assert (H : composed (run tr s)).
  { apply (run_invariant composed viewport_or_fullscreen); try assumption.
    intros now e s' He Hs'. destruct e; try contradiction; cbn [step].
    - apply pauseForViewport_composed, Hs'.
    - apply resumeFromViewportPause_composed, Hs'.
    - apply onFullscreenOpen_composed, Hs'.
    - apply onFullscreenClose_composed, Hs'. }
  apply H.
Qed.

(** [resumeAutoplay] tests [viewportPaused] and nothing else: with the
    fullscreen flag set it clears [paused] and arms the timer. *)
Lemma resumeAutoplay_under_fullscreen now :
  forall s,
    destroyed s = false -> paused s = true -> viewportPaused s = false ->
    pausedByFullscreen s = true -> isSome (progressFill s) = true ->
    pausedByFullscreen (resumeAutoplay now s) = true /\
    autoplay_running (resumeAutoplay now s) = true.
Proof.
  exec ltac:(destruct de, pa, vp, pbf, pf, peh, tm, af); try discriminate;
    split; reflexivity.
Qed.

(** C1, as stated, fails.  With a third, manual source: a playing instance
    is paused by the fullscreen overlay, which stops its timer, and the
    manual resume ([resumeAutoplay]) arriving while the overlay is still
    open restarts the timer although [pausedByFullscreen] is still set;
    the slide then advances under the overlay.  And with no request at
    all: an instance just initialized has no pause flag set, yet for the
    100ms of its settle delay no timer runs and no cycle is armed. *)
Lemma manual_resume_counterexample :
  let s1 := onFullscreenOpen 2100 playing4 in
  let s2 := resumeAutoplay 3000 s1 in
  let s0 := initialize 0 fresh4 in
  (initialized playing4 = true /\ destroyed playing4 = false /\
   autoplay_running playing4 = true) /\
  (pausedByFullscreen s1 = true /\ autoplay_running s1 = false) /\
  (initialized s2 = true /\ destroyed s2 = false /\
   pausedByFullscreen s2 = true /\ autoplay_running s2 = true) /\
  (index s2 = 0 /\
   index (step 6000 (EvTransitionEnd true) s2) = 1 /\
   pausedByFullscreen (step 6000 (EvTransitionEnd true) s2) = true) /\
  (initialized s0 = true /\ destroyed s0 = false /\ no_pause_flag s0 /\
   autoplay_running s0 = false /\ armed s0 = false).
Proof.
  cbv zeta. unfold no_pause_flag.
  repeat match goal with
  | |- _ /\ _ => split
  end; vm_compute; reflexivity.
Qed.

(** *** The two sources of the page, with navigation and callbacks *)

Ltac armed_cases split :=
  let s := fresh "s" in
  let H := fresh "H" in
  intros s H;
  open_ops;
  destruct s as [n pf idx tm af sts pe pa vp ini de pbf sas iiv peh
                   cf cto cra cells ls tos rf nt nr ro];
  unfold armed_unless_paused, armed in H; cbn in H;
  destruct H as (Hde & Hini & Hpf & Hiiv & Hpa & Harm);
  subst de ini iiv pa;
  destruct pf; [|discriminate Hpf];
  repeat match goal with
  | |- context [advanced ?c ?s] =>
      let b := fresh "b" in
      remember (advanced c s) as b; destruct b
  end;
  split;
  cbn in Harm; try discriminate Harm;
  norm; split_residual;
  unfold armed_unless_paused, armed; cbn;
  auto 10.

Lemma pauseForViewport_armed now :
  forall s, armed_unless_paused s -> armed_unless_paused (pauseForViewport now s).
Proof. armed_cases ltac:(destruct vp, pbf, tm, af, peh). Qed.

Lemma resumeFromViewportPause_armed now :
  forall s, armed_unless_paused s ->
            armed_unless_paused (resumeFromViewportPause now s).
Proof. armed_cases ltac:(destruct vp, pbf, sas, tm, af, peh). Qed.

Lemma onFullscreenOpen_armed now :
  forall s, armed_unless_paused s -> armed_unless_paused (onFullscreenOpen now s).
Proof. armed_cases ltac:(destruct vp, pbf, tm, af, peh). Qed.

Lemma onFullscreenClose_armed now :
  forall s, armed_unless_paused s -> armed_unless_paused (onFullscreenClose now s).
Proof. armed_cases ltac:(destruct vp, pbf, tm, af, peh). Qed.

Lemma initialize_armed now :
  forall s, armed_unless_paused s -> armed_unless_paused (initialize now s).
Proof. armed_cases ltac:(destruct vp, pbf, tm, af, peh). Qed.

Lemma onNextClick_armed now :
  forall s, armed_unless_paused s -> armed_unless_paused (onNextClick now s).
Proof. armed_cases ltac:(destruct vp, pbf, tm, af, peh). Qed.

Lemma onPrevClick_armed now :
  forall s, armed_unless_paused s -> armed_unless_paused (onPrevClick now s).
Proof. armed_cases ltac:(destruct vp, pbf, tm, af, peh). Qed.

Lemma onDotClick_armed i now :
  forall s, armed_unless_paused s -> armed_unless_paused (onDotClick i now s).
Proof. armed_cases ltac:(destruct vp, pbf, tm, af, peh). Qed.

Lemma onKeydown_armed k now :
  forall s, armed_unless_paused s -> armed_unless_paused (onKeydown k now s).
Proof. armed_cases ltac:(destruct k; destruct vp, pbf, tm, af, peh). Qed.

Lemma onViewportClick_armed r now :
  forall s, armed_unless_paused s ->
            armed_unless_paused (onViewportClick r now s).
Proof. armed_cases ltac:(destruct r; destruct vp, pbf, tm, af, peh). Qed.

Lemma advance_armed c now :
  forall s, armed_unless_paused s -> armed_unless_paused (advance c now s).
Proof. armed_cases ltac:(destruct vp, pbf, tm, af, peh). Qed.

Lemma raf_cb_armed :
  forall s, armed_unless_paused s -> armed_unless_paused (raf_cb s).
Proof. armed_cases ltac:(destruct vp, pbf, af, peh). Qed.

Lemma fallback_cb_armed c now :
  forall s, armed_unless_paused s -> armed_unless_paused (fallback_cb c now s).
Proof. armed_cases ltac:(destruct vp, pbf, tm, af, peh). Qed.

Lemma init_cb_armed id now :
  forall s, armed_unless_paused s -> armed_unless_paused (init_cb id now s).
Proof. armed_cases ltac:(destruct vp, pbf, tm, af, peh). Qed.

Lemma clearTimeout_armed id s :
  armed_unless_paused s -> armed_unless_paused (clearTimeout id s).
Proof. intros H. destruct s. exact H. Qed.

Lemma cancelAnimationFrame_armed id s :
  armed_unless_paused s -> armed_unless_paused (cancelAnimationFrame id s).
Proof. intros H. destruct s. exact H. Qed.

Lemma removeEventListener_armed c s :
  armed_unless_paused s -> armed_unless_paused (removeEventListener c s).
Proof. intros H. destruct s. exact H. Qed.

Lemma fireTimeout_armed id now :
  forall s, armed_unless_paused s -> armed_unless_paused (fireTimeout id now s).
Proof.
  intros s H. unfold fireTimeout.
  destruct (find _ (timeouts s)) as [t|]; [|exact H].
  destruct (Qle_bool (t_due t) now); [|exact H].
  destruct (t_cb t).
  - apply init_cb_armed, clearTimeout_armed, H.
  - apply fallback_cb_armed, clearTimeout_armed, H.
Qed.

Lemma fireFrame_armed id :
  forall s, armed_unless_paused s -> armed_unless_paused (fireFrame id s).
Proof.
  intros s H. unfold fireFrame.
  destruct (existsb _ (rafs s)); [|exact H].
  apply raf_cb_armed, cancelAnimationFrame_armed, H.
Qed.

Lemma dispatchTransitionEnd_armed w now :
  forall s, armed_unless_paused s ->
            armed_unless_paused (dispatchTransitionEnd w now s).
Proof.
  intros s H. unfold dispatchTransitionEnd.
  apply fold_left_invariant; [|exact H].
  intros s' c Hs'. destruct (existsb _ (listeners s')); [|exact Hs'].
  unfold endHandler.
  destruct w; [apply advance_armed|]; apply removeEventListener_armed, Hs'.
Qed.

Lemma step_armed now e :
  forall s, page_request e -> armed_unless_paused s ->
            armed_unless_paused (step now e s).
Proof.
  destruct e; cbn [step page_request]; intros s He; try contradiction.
  - apply fireTimeout_armed.
  - apply fireFrame_armed.
  - apply dispatchTransitionEnd_armed.
  - apply onNextClick_armed.
  - apply onPrevClick_armed.
  - apply onDotClick_armed.
  - apply onKeydown_armed.
  - apply onViewportClick_armed.
  - apply initialize_armed.
  - apply pauseForViewport_armed.
  - apply resumeFromViewportPause_armed.
  - apply onFullscreenOpen_armed.
  - apply onFullscreenClose_armed.
Qed.

Lemma settled_armed (n : Z) (t0 t1 : Q) :
  0 < n ->
  (t0 + 100 <= t1)%Q ->
  armed_unless_paused
    (run [(t0, CallInitialize); (t1, EvTimeout 1%nat)] (create n true)).
Proof.
  intros Hn Ht. apply Qle_bool_iff in Ht. apply Z.ltb_lt in Hn.
  cbn [run step].
  assert (E : initialize t0 (create n true)
              = set_cleanupTimeouts [1%nat]
                  (set_nextTimeoutId 2%nat
                     (set_timeouts [mkTimeout 1 (t0 + 100) InitTimer]
                        (set_progressFill (Some (mkFill None (WPct 0)))
                           (set_index (js_rem (0 + n) n)
                              (set_isInViewport true
                                 (set_initialized true (create n true)))))))).
  { unfold initialize. cbv zeta. rewrite setActive_true.
    unfold create. norm. rewrite Hn. norm. reflexivity. }
  rewrite E. clear E.
  unfold fireTimeout, create.
  cbn [find timeouts t_id Nat.eqb t_due set_cleanupTimeouts set_nextTimeoutId
       set_timeouts set_progressFill set_index set_isInViewport
       set_initialized nslides progressFill index timer animationFrame
       startTs pauseElapsed paused viewportPaused initialized destroyed
       pausedByFullscreen shouldAutoStart isInViewport progressEndHandler
       cleanupFns cleanupTimeouts cleanupRafs advancedCells listeners rafs
       nextTimeoutId nextRafId resizeObserved].
  rewrite Ht.
  unfold armed_unless_paused.
  repeat match goal with |- _ /\ _ => split end; norm; reflexivity.
Qed.

(** C1, amended.  The page has two pause sources, the viewport and the
    fullscreen overlay.  Take a live, initialized instance with a
    progress fill, in the viewport exactly when [viewportPaused] is not
    set, with [paused] set exactly when [pausedByFullscreen] is, and with
    a cycle armed (the handler of the fill's transition end held) exactly
    when neither of the two flags is set.  After every interleaving of
    the requests of the two sources with user navigation and browser
    callbacks all of this still holds: a cycle is armed if and only if
    neither flag is set.  For the requests of the two sources alone the
    same holds of the handle of the autoplay timer.  An instance with a
    progress fill and at least one slide is in such a state once it has
    been initialized and its settle delay has run. *)
Theorem armed_iff_no_pause_flag :
  forall (tr : list (Q * Event)) (s : Instance),
    let s' := run tr s in
    (armed_unless_paused s ->
     Forall (fun te => page_request (snd te)) tr ->
     armed s' = negb (viewportPaused s' || pausedByFullscreen s') /\
     paused s' = pausedByFullscreen s' /\
     isInViewport s' = negb (viewportPaused s') /\
     initialized s' = true /\ destroyed s' = false) /\
    (composed s ->
     Forall (fun te => viewport_or_fullscreen (snd te)) tr ->
     autoplay_running s'
     = negb (viewportPaused s' || pausedByFullscreen s')) /\
    (forall (n : Z) (t0 t1 : Q),
        0 < n -> (t0 + 100 <= t1)%Q ->
        Forall (fun te => page_request (snd te)) tr ->
        let s1 := run ((t0, CallInitialize) :: (t1, EvTimeout 1%nat) :: tr)
                    (create n true) in
        armed s1 = negb (viewportPaused s1 || pausedByFullscreen s1)).
Proof.
  intros tr s s'.
  assert (Inv : forall s0, armed_unless_paused s0 ->
                  Forall (fun te => page_request (snd te)) tr ->
                  armed_unless_paused (run tr s0)).
  { intros s0 Hs Htr.
    apply (run_invariant armed_unless_paused page_request); try assumption.
    intros now e s2 He Hs2. apply step_armed; assumption. }
  split; [|split].
  - intros Hs Htr.
    destruct (Inv s Hs Htr) as (H1 & H2 & _ & H4 & H5 & H6). auto.
  - intros Hs Htr. apply viewport_fullscreen_compose; assumption.
  - intros n t0 t1 Hn Ht Htr s1.
    assert (H : armed_unless_paused s1).
    { subst s1.
      change (run ((t0, CallInitialize) :: (t1, EvTimeout 1%nat) :: tr)
                (create n true))
        with (run tr (run [(t0, CallInitialize); (t1, EvTimeout 1%nat)]
                        (create n true))).
      apply Inv; [apply settled_armed|]; assumption. }
    destruct H as (_ & _ & _ & _ & _ & H6). exact H6.
Qed.

(** The theorem at the playing instance: the overlay opens, the carousel
    leaves the viewport, the overlay closes, a key is pressed, the
    carousel comes back. *)
Lemma armed_iff_no_pause_flag_witness :
  armed (run [(2100%Q, CallOnFullscreenOpen); (2500%Q, CallPauseForViewport);
              (3000%Q, CallOnFullscreenClose);
              (3500%Q, EvKeydown ArrowRight)] playing4) = false /\
  armed (run [(2100%Q, CallOnFullscreenOpen); (2500%Q, CallPauseForViewport);
              (3000%Q, CallOnFullscreenClose);
              (3500%Q, EvKeydown ArrowRight);
              (4000%Q, CallResumeFromViewportPause)] playing4) = true.
Proof.
  pose (tr := [(2100%Q, CallOnFullscreenOpen); (2500%Q, CallPauseForViewport);
               (3000%Q, CallOnFullscreenClose);
               (3500%Q, EvKeydown ArrowRight)]).
  pose (tr2 := tr ++ [(4000%Q, CallResumeFromViewportPause)]).
  change (armed (run tr playing4) = false /\
          armed (run tr2 playing4) = true).
  assert (Hs : armed_unless_paused playing4)
    by (unfold armed_unless_paused;
        repeat match goal with
        | |- _ /\ _ => split
        end; vm_compute; reflexivity).
  assert (H1 : Forall (fun te => page_request (snd te)) tr)
    by (repeat constructor).
  assert (H2 : Forall (fun te => page_request (snd te)) tr2)
    by (repeat constructor).
  destruct (proj1 (armed_iff_no_pause_flag tr playing4) Hs H1) as (A & _).
  destruct (proj1 (armed_iff_no_pause_flag tr2 playing4) Hs H2) as (B & _).
  split.
  - rewrite A. vm_compute. reflexivity.
  - rewrite B. vm_compute. reflexivity.
Defined.

(** ** One advance per cycle *)

Lemma nth_list_set_eq (l : list bool) : forall c,
  (c < length l)%nat -> nth c (list_set c true l) false = true.
Proof.
  induction l as [|a l IH]; intros [|c] H; cbn in *;
    try lia; try reflexivity.
  apply IH. lia.
Qed.

Lemma length_list_set {A : Type} (l : list A) : forall c x,
  length (list_set c x l) = length l.
Proof.
  induction l as [|a l IH]; intros [|c] x; cbn; try reflexivity.
  rewrite IH. reflexivity.
Qed.

Lemma advance_cells c now :
  forall s,
    advanced c s = false ->
    viewportPaused s || destroyed s || paused s = false ->
    advancedCells (advance c now s)
    = list_set c true (advancedCells s)
      ++ (if isSome (progressFill s) then [false] else []).
Proof.
  exec ltac:(destruct de, vp, pa, pf, peh, tm, af); try discriminate;
    rewrite ?app_nil_r; reflexivity.
Qed.

(** The one-shot guard: the closure [advance] of a cycle acts at most
    once, whichever of the transition end and the fallback timer calls it
    first. *)
Lemma advance_one_shot c now now' s :
  (c < length (advancedCells s))%nat ->
  advance c now' (advance c now s) = advance c now s.
Proof.
  intros Hc.
  destruct (advanced c s) eqn:Ha.
  { unfold advance. rewrite Ha. rewrite Ha. reflexivity. }
  destruct (viewportPaused s || destroyed s || paused s) eqn:Hf.
  { unfold advance. rewrite Ha, Hf. rewrite Ha, Hf. reflexivity. }
  assert (Hcells := advance_cells c now s Ha Hf).
  assert (Hadv : advanced c (advance c now s) = true).
  { unfold advanced at 1. rewrite Hcells.
    rewrite app_nth1 by (rewrite length_list_set; exact Hc).
    apply nth_list_set_eq. exact Hc. }
  unfold advance at 1. rewrite Hadv. reflexivity.
Qed.

(** After the transition end has advanced the slide, the fallback
    callback of the same cycle does not advance again. *)
Lemma fallback_after_transition_end c now now' s :
  (c < length (advancedCells s))%nat ->
  advanced c s = false ->
  viewportPaused s || destroyed s || paused s = false ->
  index (fallback_cb c now' (advance c now s)) = index (advance c now s).
Proof.
  intros Hc Ha Hf.
  assert (Hcells := advance_cells c now s Ha Hf).
  assert (Hadv : advanced c (advance c now s) = true).
  { unfold advanced at 1. rewrite Hcells.
    rewrite app_nth1 by (rewrite length_list_set; exact Hc).
    apply nth_list_set_eq. exact Hc. }
  unfold fallback_cb. rewrite Hadv, andb_false_r. cbv zeta.
  destruct (timer (advance c now s)); destruct (advance c now s); reflexivity.
Qed.

(** C2 (the code departs from the claim).  The guard is one flag per
    cycle, and the fallback callback ends with [timer = null] after
    [advance] has already armed the timer of the next cycle, so that timer
    is never cancelled.  On the trace below the cycle started at 5400ms
    with 5000ms remaining sees two auto-advances within its window
    [[10400, 10600]]: its own at 10416ms and, at 10500ms, the one of the
    fallback timer left over from the cycle before. *)
Theorem stale_fallback_double_advance :
  let s := run stale_fallback_prefix playing4 in
  let s' := run stale_fallback_trace playing4 in
  index playing4 = 0 /\
  (index s = 1 /\ startTs s == 5400 /\ remaining s == 5000 /\
   no_pause_flag s /\
   map t_due (timeouts s) = [10500%Q; 10600%Q] /\ timer s = Some 4%nat) /\
  index (step 10416 (EvTransitionEnd true) s) = 2 /\
  index s' = 3 /\
  no_pause_flag s' /\
  advancedCells s' = [true; true; true; false; false].
Proof.
  cbv zeta.
  split; [vm_compute; reflexivity|].
  split.
  { split; [vm_compute; reflexivity|].
    split; [vm_compute; reflexivity|].
    split; [vm_compute; reflexivity|].
    split; [vm_compute; auto|].
    split; vm_compute; reflexivity. }
  split; [vm_compute; reflexivity|].
  split; [vm_compute; reflexivity|].
  split; [vm_compute; auto|].
  vm_compute; reflexivity.
Qed.

(** ** The autoplay cycle *)

Lemma nth_app_false (l : list bool) :
  nth (length l) (l ++ [false]) false = false.
Proof. rewrite app_nth2 by lia. rewrite Nat.sub_diag. reflexivity. Qed.

Lemma full_interval_values :
  Qmax 16 (intervalMs - 0) == intervalMs /\
  clamp 0 1 (0 / intervalMs) * 100 == 0.
Proof. split; vm_compute; reflexivity. Qed.

(** Normalisation that also computes on the handle lists; the equality
    tests on handles stay folded and are discharged by rewriting. *)
Ltac norm_lists :=
  cbv -[Qplus Qminus Qmult Qdiv Qmax Qmin Qle_bool Qeq_bool Qopp Qinv Qle Qlt
        Qeq intervalMs js_rem Z.add Z.sub Z.rem Z.eqb Z.ltb Z.leb Z.of_nat
        Z.to_nat Z.max Z.le Z.lt Z.modulo nth length clamp list_set Nat.eqb].

Ltac run_cycle Hadv :=
  norm_lists;
  repeat (progress (rewrite ?Nat.eqb_refl, ?Hadv); norm_lists).

(** Split a state known to be in a cycle into its fields and consume the
    facts about them. *)
Ltac open_cycle s H :=
  destruct s as [n pf idx tm af sts pe pa vp ini de pbf sas iiv peh
                   cf cto cra cells ls tos rf nt nr ro];
  destruct H as (Hde & Hini & Hiiv & Hvp & Hpa & Hpbf & Hsas & Hpf & Hpeh
                 & Htm & Htos & Hls & Hcto & Hadv & Hlen & Hfr);
  unfold advanced in Hadv; unfold frame_state in Hfr; cbn in *;
  destruct pf as [f|]; [|discriminate Hpf];
  subst de ini iiv vp pa pbf sas peh tm tos ls cto;
  destruct Hfr as [(r & Haf & Hrf & Hcra)|(Haf & Hrf & Hcra)];
  subst af rf cra.

Ltac close_cycle :=
  unfold in_cycle, frame_state, advanced; cbn;
  repeat match goal with
  | |- _ /\ _ => split
  end;
  try reflexivity;
  try (rewrite length_list_set; apply nth_app_false);
  try (rewrite length_app, length_list_set; cbn; lia);
  try (rewrite length_app; cbn; lia);
  try apply nth_app_false;
  try (left; eexists; repeat split; reflexivity).

Lemma transition_end_advances (now : Q) s c t due :
  in_cycle c t due s ->
  let s' := step now (EvTransitionEnd true) s in
  index s' = js_rem (index s + 1 + nslides s) (nslides s) /\
  nslides s' = nslides s /\
  fresh_interval now s'.
Proof.
  intros H. open_cycle s H;
    cbn [step]; unfold dispatchTransitionEnd; cbn [listeners fold_left];
    unfold endHandler, advance; cbv zeta;
    rewrite !setActive_true; run_cycle Hadv;
    (split; [reflexivity|]); (split; [reflexivity|]);
    unfold fresh_interval; cbn;
    (split; [reflexivity|]); (split; [reflexivity|]);
    (split; [reflexivity|]);
    do 2 eexists; close_cycle.
Qed.

Lemma fresh_interval_cycling now s : fresh_interval now s -> cycling s.
Proof. intros (_ & _ & _ & c & t & H). exists c, t. eexists. exact H. Qed.

Lemma transition_ends_index times : forall s,
  cycling s -> 1 <= nslides s -> 0 <= index s < nslides s ->
  index (run (transition_ends times) s)
  = (index s + Z.of_nat (length times)) mod nslides s /\
  nslides (run (transition_ends times) s) = nslides s /\
  cycling (run (transition_ends times) s).
Proof.
  induction times as [|now times IH]; intros s Hc Hn Hi.
  - cbn. rewrite Z.add_0_r, Z.mod_small by lia. auto.
  - destruct Hc as (c & t & due & Hc).
    destruct (transition_end_advances now s c t due Hc) as (H1 & H2 & H3).
    cbv zeta in *.
    rewrite js_rem_wrap in H1 by lia.
    cbn [transition_ends map run].
    destruct (IH (step now (EvTransitionEnd true) s)) as (I1 & I2 & I3).
    + eapply fresh_interval_cycling. exact H3.
    + rewrite H2. exact Hn.
    + rewrite H1, H2. apply Z.mod_pos_bound. lia.
    + fold (transition_ends times). rewrite I1, I2, H1, H2.
      split; [|auto].
      rewrite Zplus_mod_idemp_l. f_equal.
      cbn [length]. lia.
Qed.

(** X1.  While autoplay runs with one cycle armed, the end of the fill's
    width transition moves to the next slide (modulo the slide count) and
    starts a full interval from 0% with the next cycle armed; so [k]
    transition ends in a row move [k] slides on, and as many as there are
    slides come back to the slide they started from. *)
Theorem auto_advance_cycle :
  forall (s : Instance) (now : Q) (times : list Q),
    cycling s ->
    1 <= nslides s ->
    0 <= index s < nslides s ->
    let s1 := step now (EvTransitionEnd true) s in
    let sk := run (transition_ends times) s in
    index s1 = (index s + 1) mod nslides s /\
    fresh_interval now s1 /\
    remaining s1 == intervalMs /\
    index sk = (index s + Z.of_nat (length times)) mod nslides s /\
    cycling sk /\
    (Z.of_nat (length times) = nslides s -> index sk = index s).
Proof.
  intros s now times Hc Hn Hi s1 sk. subst s1 sk.
  destruct (transition_ends_index times s Hc Hn Hi) as (K1 & K2 & K3).
  destruct Hc as (c & t & due & Hc).
  destruct (transition_end_advances now s c t due Hc) as (H1 & H2 & H3).
  cbv zeta in *. rewrite js_rem_wrap in H1 by lia.
  split; [exact H1|]. split; [exact H3|].
  split.
  { unfold remaining. destruct H3 as (Hpe & _). rewrite Hpe.
    apply full_interval_values. }
  split; [exact K1|]. split; [exact K3|].
  intros Hlen. rewrite K1, Hlen.
  rewrite <- (Z.mul_1_l (nslides s)) at 1.
  rewrite Z.mod_add by lia. apply Z.mod_small. exact Hi.
Qed.

Lemma playing4_cycling : cycling playing4.
Proof.
  exists 0%nat, 2%nat, 5300%Q.
  unfold in_cycle, frame_state, advanced.
  repeat split; try (vm_compute; reflexivity).
  left. exists 1%nat. repeat split; vm_compute; reflexivity.
Qed.

(** The basic loop: four slides, four transition ends 5000ms apart. *)
Lemma auto_advance_cycle_witness :
  index (step 5100 (EvTransitionEnd true) playing4) = 1 /\
  index (run (transition_ends [5100; 10100; 15100; 20100]%Q) playing4) = 0.
Proof.
  assert (Hn : nslides playing4 = 4) by (vm_compute; reflexivity).
  assert (Hi : index playing4 = 0) by (vm_compute; reflexivity).
  assert (Hn1 : 1 <= nslides playing4) by (rewrite Hn; lia).
  assert (Hi1 : 0 <= index playing4 < nslides playing4)
    by (rewrite Hn, Hi; lia).
  destruct (auto_advance_cycle playing4 5100
              [5100; 10100; 15100; 20100]%Q playing4_cycling Hn1 Hi1)
    as (H1 & _ & _ & _ & _ & H6).
  split.
  - rewrite H1, Hn, Hi. reflexivity.
  - rewrite H6; [exact Hi|]. rewrite Hn. reflexivity.
Defined.

(** ** A pause cancels everything the cycle had armed *)




(** *** In any state: the guards of the callbacks *)
















(** ** Manual navigation *)









Lemma navigation_while_paused (now : Q) (i : nat) :
  forall s,
    destroyed s = false ->
    paused s = true \/ viewportPaused s = true ->
    quiet s ->
    let ok s' :=
      quiet s' /\ paused s' = paused s /\
      viewportPaused s' = viewportPaused s /\
      pauseElapsed s' = 0%Q /\
      progressFill s'
      = match progressFill s with
        | Some _ => Some (mkFill None (WPct 0))
        | None => None
        end in
    (index (onNextClick now s) = js_rem (index s + 1 + nslides s) (nslides s)
     /\ ok (onNextClick now s)) /\
    (index (onPrevClick now s) = js_rem (index s - 1 + nslides s) (nslides s)
     /\ ok (onPrevClick now s)) /\
    (index (onDotClick i now s) = js_rem (Z.of_nat i + nslides s) (nslides s)
     /\ ok (onDotClick i now s)).
Proof.
  intros s Hd Hp Hq.
  unfold onNextClick, onPrevClick, onDotClick, next, prev; cbv zeta.
  rewrite !setActive_true.
  destruct s as [n pf idx tm af sts pe pa vp ini de pbf sas iiv peh
                   cf cto cra cells ls tos rf nt nr ro].
  unfold quiet in *. cbn in Hd, Hp, Hq |- *.
  destruct Hq as (Htm & Haf & Hpeh & Htos & Hls & Hrf).
  subst de tm af peh tos ls rf.
  destruct Hp as [Hp|Hp]; subst; destruct pf; try destruct pa;
    try destruct vp; norm; auto 20.
Qed.

(** X4.  A manual slide change while a pause holds still changes the slide
    (wrapped into range) and puts the progress back to 0% with no elapsed
    time recorded, but arms nothing: the instance stays paused and
    quiet. *)
Theorem navigation_while_paused_stays_paused :
  forall (s : Instance) (now : Q) (i : nat),
    destroyed s = false ->
    paused s = true \/ viewportPaused s = true ->
    quiet s ->
    1 <= nslides s ->
    0 <= index s < nslides s ->
    (index (onNextClick now s) = (index s + 1) mod nslides s /\
     index (onPrevClick now s) = (index s - 1) mod nslides s /\
     index (onDotClick i now s) = Z.of_nat i mod nslides s) /\
    (quiet (onNextClick now s) /\ quiet (onPrevClick now s) /\
     quiet (onDotClick i now s)) /\
    (paused (onNextClick now s) = paused s /\
     viewportPaused (onNextClick now s) = viewportPaused s) /\
    (pauseElapsed (onNextClick now s) = 0%Q /\
     pauseElapsed (onPrevClick now s) = 0%Q /\
     pauseElapsed (onDotClick i now s) = 0%Q) /\
    (isSome (progressFill s) = true ->
     progressFill (onNextClick now s) = Some (mkFill None (WPct 0))).
Proof.
  intros s now i Hd Hp Hq Hn Hi.
  destruct (navigation_while_paused now i s Hd Hp Hq)
    as ((N1 & N2 & N3 & N4 & N5 & N6) & (P1 & P2 & _ & _ & P5 & _)
        & (D1 & D2 & _ & _ & D5 & _)).
  rewrite js_rem_wrap in N1, P1, D1 by lia.
  split; [auto|]. split; [auto|]. split; [auto|]. split; [auto|].
  intros Hpf. rewrite N6. destruct (progressFill s); [reflexivity|].
  discriminate Hpf.
Qed.

Lemma navigation_while_paused_stays_paused_witness :
  index (onNextClick 3000 (pauseForViewport 2100 playing4)) = 1 /\
  quiet (onNextClick 3000 (pauseForViewport 2100 playing4)).
Proof.
  pose (s := pauseForViewport 2100 playing4).
  assert (Hd : destroyed s = false) by (vm_compute; reflexivity).
  assert (Hp : paused s = true \/ viewportPaused s = true)
    by (right; vm_compute; reflexivity).
  assert (Hq : quiet s) by (unfold quiet; repeat split; vm_compute; reflexivity).
  assert (Hn : nslides s = 4) by (vm_compute; reflexivity).
  assert (Hi : index s = 0) by (vm_compute; reflexivity).
  assert (Hn1 : 1 <= nslides s) by (rewrite Hn; lia).
  assert (Hi1 : 0 <= index s < nslides s) by (rewrite Hn, Hi; lia).
  destruct (navigation_while_paused_stays_paused s 3000 0 Hd Hp Hq Hn1 Hi1)
    as ((N1 & _) & (Q1 & _) & _).
  fold s. rewrite N1, Hn, Hi. split; [reflexivity|exact Q1].
Defined.

(** ** The listener is one-shot; the fallback timer takes over *)

Lemma other_transition_end_value (now : Q) s c t due :
  in_cycle c t due s ->
  step now (EvTransitionEnd false) s = set_listeners [] s.
Proof.
  intros H. open_cycle s H;
    cbn [step]; unfold dispatchTransitionEnd; cbn [listeners fold_left];
    unfold endHandler; run_cycle Hadv; reflexivity.
Qed.

Lemma fallback_without_listener (now2 : Q) s c t due :
  in_cycle c t due s ->
  (Qle_bool due now2 = true ->
   index (fireTimeout t now2 (set_listeners [] s))
   = js_rem (index s + 1 + nslides s) (nslides s)) /\
  (Qle_bool due now2 = false ->
   fireTimeout t now2 (set_listeners [] s) = set_listeners [] s).
Proof.
  intros H. open_cycle s H;
    (split; intros Hdue);
    unfold fireTimeout; cbn [set_listeners timeouts find t_id];
    rewrite Nat.eqb_refl; cbn [t_due t_cb]; rewrite Hdue;
    try reflexivity;
    unfold fallback_cb, advance; cbv zeta; rewrite !setActive_true;
    run_cycle Hadv; reflexivity.
Qed.

Lemma other_transition_end (now now1 now2 : Q) s c t due :
  in_cycle c t due s ->
  let s1 := step now (EvTransitionEnd false) s in
  index s1 = index s /\ listeners s1 = [] /\
  step now1 (EvTransitionEnd true) s1 = s1 /\
  (Qle_bool due now2 = true ->
   index (step now2 (EvTimeout t) s1)
   = js_rem (index s + 1 + nslides s) (nslides s)) /\
  (Qle_bool due now2 = false -> step now2 (EvTimeout t) s1 = s1).
Proof.
  intros H s1. subst s1. rewrite (other_transition_end_value now s c t due H).
  destruct (fallback_without_listener now2 s c t due H) as [F1 F2].
  cbn [step]. split; [destruct s; reflexivity|].
  split; [destruct s; reflexivity|].
  split; [|auto].
  unfold dispatchTransitionEnd.
  replace (listeners (set_listeners [] s)) with (@nil nat)
    by (destruct s; reflexivity).
  reflexivity.
Qed.

(** X5.  The [transitionend] listener is registered once per cycle: an
    event for another property or target uses it up without advancing,
    after which the width transition end no longer does anything and the
    slide advances only when the fallback timer comes due, not before. *)
Theorem lost_listener_falls_back :
  forall (s : Instance) (c t : nat) (due now now1 now2 : Q),
    in_cycle c t due s ->
    1 <= nslides s ->
    0 <= index s < nslides s ->
    let s1 := step now (EvTransitionEnd false) s in
    index s1 = index s /\
    listeners s1 = [] /\
    step now1 (EvTransitionEnd true) s1 = s1 /\
    ((due <= now2)%Q ->
     index (step now2 (EvTimeout t) s1) = (index s + 1) mod nslides s) /\
    (~ (due <= now2)%Q -> step now2 (EvTimeout t) s1 = s1).
Proof.
  intros s c t due now now1 now2 Hc Hn Hi s1. subst s1.
  destruct (other_transition_end now now1 now2 s c t due Hc)
    as (H1 & H2 & H4 & H5 & H6).
  cbv zeta in *.
  split; [exact H1|]. split; [exact H2|]. split; [exact H4|].
  split.
  - intros Hdue. apply Qle_bool_iff in Hdue.
    rewrite (H5 Hdue). apply js_rem_wrap; lia.
  - intros Hdue. apply H6.
    destruct (Qle_bool due now2) eqn:E; [|reflexivity].
    apply Qle_bool_iff in E. contradiction.
Qed.

Lemma playing4_in_cycle : in_cycle 0 2 5300 playing4.
Proof.
  unfold in_cycle, frame_state, advanced.
  repeat split; try (vm_compute; reflexivity).
  left. exists 1%nat. repeat split; vm_compute; reflexivity.
Qed.

Lemma lost_listener_falls_back_witness :
  index (step 5300 (EvTimeout 2)
           (step 3000 (EvTransitionEnd false) playing4)) = 1.
Proof.
  assert (Hn : nslides playing4 = 4) by (vm_compute; reflexivity).
  assert (Hi : index playing4 = 0) by (vm_compute; reflexivity).
  assert (Hn1 : 1 <= nslides playing4) by (rewrite Hn; lia).
  assert (Hi1 : 0 <= index playing4 < nslides playing4)
    by (rewrite Hn, Hi; lia).
  destruct (lost_listener_falls_back playing4 0 2 5300 3000 5100 5300
              playing4_in_cycle Hn1 Hi1) as (_ & _ & _ & H & _).
  rewrite H; [rewrite Hn, Hi; reflexivity|].
  vm_compute. discriminate.
Defined.

(** ** The settle delay of [initialize] *)

(** Flatten setter chains over an explicit state. *)
Ltac flat :=
  cbv beta iota delta
    [
       nslides progressFill index timer animationFrame startTs
       pauseElapsed paused viewportPaused initialized destroyed
       pausedByFullscreen shouldAutoStart isInViewport
       progressEndHandler cleanupFns cleanupTimeouts cleanupRafs
       advancedCells listeners timeouts rafs nextTimeoutId nextRafId
       resizeObserved set_progressFill set_index set_timer
       set_animationFrame set_startTs set_pauseElapsed set_paused
       set_viewportPaused set_initialized set_destroyed
       set_pausedByFullscreen set_shouldAutoStart set_isInViewport
       set_progressEndHandler set_cleanupFns set_cleanupTimeouts
       set_cleanupRafs set_advancedCells set_listeners set_timeouts
       set_rafs set_nextTimeoutId set_nextRafId set_resizeObserved
       create
    ].

Lemma initialize_fresh (now : Q) (n : Z) :
  1 <= n ->
  initialize now (create n true)
  = set_cleanupTimeouts [1%nat]
      (set_nextTimeoutId 2
         (set_timeouts [mkTimeout 1 (now + 100) InitTimer]
            (set_isInViewport true
               (set_initialized true
                  (set_index (js_rem (0 + n) n)
                     (set_progressFill (Some (mkFill None (WPct 0)))
                        (create n true))))))).
Proof.
  intros Hn. unfold initialize. cbv zeta. rewrite setActive_true.
  assert (E : (0 <? n) = true) by (apply Z.ltb_lt; lia).
  norm_lists. rewrite E. reflexivity.
Qed.

Lemma settle_timer_fires (now now1 : Q) (n : Z) :
  1 <= n ->
  Qle_bool (now + 100) now1 = true ->
  fresh_interval now1 (step now1 (EvTimeout 1) (initialize now (create n true))).
Proof.
  intros Hn Hdue. rewrite initialize_fresh by exact Hn.
  cbn [step]. unfold fireTimeout. flat. cbn [find t_id Nat.eqb t_due t_cb].
  rewrite Hdue. norm_lists.
  unfold fresh_interval; cbn.
  split; [reflexivity|]. split; [reflexivity|]. split; [reflexivity|].
  exists 0%nat, 2%nat. unfold in_cycle, frame_state, advanced. cbn.
  repeat split; try reflexivity; try lia.
  left. exists 1%nat. auto.
Qed.

Lemma settle_timer_early (now now1 : Q) (n : Z) :
  1 <= n ->
  Qle_bool (now + 100) now1 = false ->
  step now1 (EvTimeout 1) (initialize now (create n true))
  = initialize now (create n true).
Proof.
  intros Hn Hdue. rewrite initialize_fresh by exact Hn.
  cbn [step]. unfold fireTimeout. flat. cbn [find t_id Nat.eqb t_due t_cb].
  rewrite Hdue. reflexivity.
Qed.

Lemma settle_timer_after_exit (now now0 now1 : Q) (n : Z) :
  1 <= n ->
  Qle_bool (now + 100) now1 = true ->
  let s2 := step now1 (EvTimeout 1)
              (pauseForViewport now0 (initialize now (create n true))) in
  quiet s2 /\ viewportPaused s2 = true /\ cleanupTimeouts s2 = [].
Proof.
  intros Hn Hdue. rewrite initialize_fresh by exact Hn.
  cbn [step]. unfold fireTimeout.
  assert (E : timeouts (pauseForViewport now0
                (set_cleanupTimeouts [1%nat]
                   (set_nextTimeoutId 2
                      (set_timeouts [mkTimeout 1 (now + 100) InitTimer]
                         (set_isInViewport true
                            (set_initialized true
                               (set_index (js_rem (0 + n) n)
                                  (set_progressFill
                                     (Some (mkFill None (WPct 0)))
                                     (create n true)))))))))
              = [mkTimeout 1 (now + 100) InitTimer]) by reflexivity.
  rewrite E. cbn [find t_id Nat.eqb t_due t_cb]. rewrite Hdue.
  unfold quiet. norm_lists. auto 10.
Qed.

(** X6.  [initialize] on a fresh instance shows slide 0 and arms nothing
    but the settle timer, due 100ms later.  Before that time the timer
    does not run; when it runs, autoplay starts with a full interval; and
    if the carousel has left the viewport in between, the timer runs
    without starting anything. *)
Theorem settle_delay :
  forall (n : Z) (now now0 now1 : Q),
    1 <= n ->
    let s1 := initialize now (create n true) in
    (index s1 = 0 /\ initialized s1 = true /\ timer s1 = None /\
     listeners s1 = [] /\ rafs s1 = [] /\
     timeouts s1 = [mkTimeout 1 (now + 100) InitTimer]) /\
    (~ (now + 100 <= now1)%Q -> step now1 (EvTimeout 1) s1 = s1) /\
    ((now + 100 <= now1)%Q ->
     fresh_interval now1 (step now1 (EvTimeout 1) s1) /\
     index (step now1 (EvTimeout 1) s1) = 0 /\
     quiet (step now1 (EvTimeout 1) (pauseForViewport now0 s1))).
Proof.
  intros n now now0 now1 Hn s1. subst s1.
  split.
  { rewrite initialize_fresh by exact Hn. flat.
    repeat split; try reflexivity.
    unfold js_rem. rewrite Z.add_0_l. apply Z.rem_same. lia. }
  split.
  - intros Hdue. apply settle_timer_early; [exact Hn|].
    destruct (Qle_bool (now + 100) now1) eqn:E; [|reflexivity].
    apply Qle_bool_iff in E. contradiction.
  - intros Hdue. apply Qle_bool_iff in Hdue.
    split; [apply settle_timer_fires; assumption|].
    split.
    + rewrite initialize_fresh by exact Hn.
      cbn [step]. unfold fireTimeout. flat.
      cbn [find t_id Nat.eqb t_due t_cb]. rewrite Hdue. norm_lists.
      unfold js_rem. rewrite Z.add_0_l. apply Z.rem_same. lia.
    + apply (settle_timer_after_exit now now0 now1 n Hn Hdue).
Qed.

Lemma settle_delay_witness :
  index (step 100 (EvTimeout 1) (initialize 0 (create 4 true))) = 0 /\
  step 99 (EvTimeout 1) (initialize 0 (create 4 true))
  = initialize 0 (create 4 true).
Proof.
  assert (Hn : 1 <= 4) by lia.
  destruct (settle_delay 4 0 50 100 Hn) as (_ & _ & H).
  destruct (settle_delay 4 0 50 99 Hn) as (_ & H' & _).
  split.
  - apply H. vm_compute. discriminate.
  - apply H'. vm_compute. intros E. apply E. reflexivity.
Defined.

(** ** Repeated requests *)

Ltac fields s :=
  destruct s as [n pf idx tm af sts pe pa vp ini de pbf sas iiv peh
                   cf cto cra cells ls tos rf nt nr ro].

Lemma pauseForViewport_twice (now1 now2 : Q) s :
  pauseForViewport now2 (pauseForViewport now1 s) = pauseForViewport now1 s.
Proof.
  assert (H : destroyed (pauseForViewport now1 s) = true \/
              viewportPaused (pauseForViewport now1 s) = true).
  { fields s. destruct de; [left; reflexivity|]. right.
    destruct vp; [reflexivity|].
    destruct pf, tm, af, peh, pa; norm; reflexivity. }
  unfold pauseForViewport at 1. unfold validateState.
  destruct H as [H|H]; rewrite H; [reflexivity|].
  rewrite orb_true_r. reflexivity.
Qed.

Lemma pauseAutoplay_twice (now1 now2 : Q) s :
  pauseAutoplay now2 (pauseAutoplay now1 s) = pauseAutoplay now1 s.
Proof.
  assert (H : destroyed (pauseAutoplay now1 s) = true \/
              paused (pauseAutoplay now1 s) = true).
  { fields s. destruct de; [left; reflexivity|]. right.
    destruct pa; [reflexivity|].
    destruct pf, tm, af, peh; norm; reflexivity. }
  unfold pauseAutoplay at 1. unfold validateState.
  destruct H as [H|H]; rewrite H; [reflexivity|].
  rewrite orb_true_r. reflexivity.
Qed.

Lemma initialize_twice (now1 now2 : Q) s :
  initialize now2 (initialize now1 s) = initialize now1 s.
Proof.
  assert (H : destroyed (initialize now1 s) = true \/
              initialized (initialize now1 s) = true).
  { unfold initialize, validateState. cbv zeta. rewrite setActive_true.
    fields s. destruct de; [left; reflexivity|]. right.
    destruct ini; [reflexivity|].
    cbn [negb orb destroyed initialized nslides set_initialized
         set_isInViewport].
    destruct (0 <? n); [|reflexivity].
    destruct pf, tm, af, peh, pbf; norm; reflexivity. }
  unfold initialize at 1. unfold validateState.
  destruct H as [H|H]; rewrite H; [reflexivity|].
  rewrite orb_true_r. reflexivity.
Qed.

Lemma onFullscreenOpen_twice (now1 now2 : Q) s :
  onFullscreenOpen now2 (onFullscreenOpen now1 s) = onFullscreenOpen now1 s.
Proof.
  fields s. destruct de; [reflexivity|].
  destruct ini.
  - destruct pa; [norm; reflexivity|].
    destruct pf, tm, af, peh; norm; reflexivity.
  - norm; reflexivity.
Qed.

(** X7.  The requests that put an instance into a state are idempotent:
    a second [initialize], viewport exit, [pauseAutoplay] or fullscreen
    open, at whatever later time, changes nothing of what the first one
    left; in particular the elapsed time recorded by the first pause is
    not overwritten. *)
Theorem repeated_request_is_noop :
  forall (s : Instance) (now1 now2 : Q),
    initialize now2 (initialize now1 s) = initialize now1 s /\
    pauseForViewport now2 (pauseForViewport now1 s) = pauseForViewport now1 s /\
    pauseAutoplay now2 (pauseAutoplay now1 s) = pauseAutoplay now1 s /\
    onFullscreenOpen now2 (onFullscreenOpen now1 s) = onFullscreenOpen now1 s.
Proof.
  intros s now1 now2.
  split; [apply initialize_twice|].
  split; [apply pauseForViewport_twice|].
  split; [apply pauseAutoplay_twice|].
  apply onFullscreenOpen_twice.
Qed.

(** ** The instances of a page do not interfere *)

Lemma on_carousel_length k f w :
  length (carousels (on_carousel k f w)) = length (carousels w).
Proof.
  unfold on_carousel. destruct (nth_error (carousels w) k); [|reflexivity].
  cbn. apply length_list_set.
Qed.

Lemma on_carousel_frame j k f w :
  Nat.eqb k j = false ->
  nth_error (carousels (on_carousel k f w)) j = nth_error (carousels w) j.
Proof.
  intros H. apply Nat.eqb_neq in H. apply on_carousel_other. exact H.
Qed.

Lemma openModal_carousels images i c now w :
  carousels (state_of (openModal images i c now w))
  = match c with
    | Some k => carousels (on_carousel k (onFullscreenOpen now) w)
    | None => carousels w
    end.
Proof.
  unfold openModal. cbv zeta.
  match goal with
  | |- context [showCurrentImage ?x] =>
      pose proof (showCurrentImage_frame x) as H;
      destruct (showCurrentImage x) as [w1|w1]
  end; cbn in H |- *; destruct H as (H & _); rewrite H;
    destruct c; try reflexivity;
    unfold on_carousel; cbn;
    destruct (nth_error (carousels w) n); reflexivity.
Qed.

Lemma modal_step_carousels now e w :
  match e with
  | PgModalClose | PgModalNext | PgModalPrev | PgModalKey _ => True
  | _ => False
  end ->
  carousels (page_step now e w) = carousels w.
Proof.
  destruct e; try contradiction; intros _; cbn [page_step].
  - reflexivity.
  - unfold nextImage.
    destruct (1 <? length (currentImages (modal w)))%nat; [|reflexivity].
    match goal with
    | |- context [showCurrentImage ?x] =>
        destruct (showCurrentImage_frame x) as (H & _)
    end. rewrite H. reflexivity.
  - unfold prevImage.
    destruct (1 <? length (currentImages (modal w)))%nat; [|reflexivity].
    match goal with
    | |- context [showCurrentImage ?x] =>
        destruct (showCurrentImage_frame x) as (H & _)
    end. rewrite H. reflexivity.
  - unfold onModalKeydown.
    destruct (active (modal w)); [|reflexivity]. cbn [negb].
    destruct key; try reflexivity.
    + unfold nextImage.
      destruct (1 <? length (currentImages (modal w)))%nat; [|reflexivity].
      match goal with
      | |- context [showCurrentImage ?x] =>
          destruct (showCurrentImage_frame x) as (H & _)
      end. rewrite H. reflexivity.
    + unfold prevImage.
      destruct (1 <? length (currentImages (modal w)))%nat; [|reflexivity].
      match goal with
      | |- context [showCurrentImage ?x] =>
          destruct (showCurrentImage_frame x) as (H & _)
      end. rewrite H. reflexivity.
Qed.

Lemma page_step_length now e w :
  length (carousels (page_step now e w)) = length (carousels w).
Proof.
  destruct e;
    try (rewrite modal_step_carousels by exact I; reflexivity);
    cbn [page_step].
  - unfold intersect. destruct (_ && _); [|reflexivity].
    unfold on_entry. destruct (map_get _ _) as [d|]; [|reflexivity].
    destruct (isDestroying (vo w)); [reflexivity|].
    destruct isIntersecting, (isInitialized d); cbn [negb];
      try reflexivity; apply on_carousel_length.
  - apply on_carousel_length.
  - unfold onFullscreenBtn. rewrite openModal_carousels.
    destruct (nth_error (carousels w) k); [|reflexivity].
    apply on_carousel_length.
  - unfold fireCloseTimer. cbv zeta.
    destruct (closeTimers (modal w)) as [|due rest]; [reflexivity|].
    destruct (Qle_bool due now); [|reflexivity].
    destruct (originalCarousel (modal w)); [|reflexivity].
    rewrite on_carousel_length. reflexivity.
  - unfold onBeforeUnload. cbn. apply length_map.
Qed.

Lemma page_step_frame now e w j :
  reaches e w j = false ->
  nth_error (carousels (page_step now e w)) j = nth_error (carousels w) j.
Proof.
  destruct e;
    try (intros _; rewrite modal_step_carousels by exact I; reflexivity);
    cbn [reaches page_step]; intros H; try discriminate H.
  - unfold intersect. destruct (_ && _); [|reflexivity].
    unfold on_entry. destruct (map_get _ _) as [d|]; [|reflexivity].
    destruct (isDestroying (vo w)); [reflexivity|].
    destruct isIntersecting, (isInitialized d); cbn [negb];
      try reflexivity; apply on_carousel_frame; exact H.
  - apply on_carousel_frame. exact H.
  - unfold onFullscreenBtn. rewrite openModal_carousels.
    destruct (nth_error (carousels w) k); [|reflexivity].
    apply on_carousel_frame. exact H.
  - unfold fireCloseTimer. cbv zeta.
    destruct (closeTimers (modal w)) as [|due rest]; [reflexivity|].
    destruct (Qle_bool due now); [|reflexivity].
    destruct (originalCarousel (modal w)); [|reflexivity].
    rewrite on_carousel_frame by exact H. reflexivity.
Qed.

(** X8.  The instances of a page are independent: an event leaves every
    instance it does not reach exactly as it was (state, timers, frames
    and listeners included); only the unload reaches all of them, and the
    lightbox's close timer reaches the owner recorded last.  No event
    creates or removes an instance. *)
Theorem instances_independent :
  forall (w : World) (now : Q) (e : PageEvent) (j : nat),
    length (carousels (page_step now e w)) = length (carousels w) /\
    (reaches e w j = false ->
     nth_error (carousels (page_step now e w)) j
     = nth_error (carousels w) j).
Proof.
  intros w now e j. split.
  - apply page_step_length.
  - apply page_step_frame.
Qed.

Lemma instances_independent_witness :
  nth_error (carousels (page_step 2000 (PgCarousel 0 EvNextClick) page2)) 1
  = nth_error (carousels page2) 1.
Proof.
  apply (instances_independent page2 2000 (PgCarousel 0 EvNextClick) 1).
  reflexivity.
Defined.

(** ** The close timer of the lightbox *)

Lemma fullscreen_round_trip (t1 t2 : Q) s c t due :
  in_cycle c t due s ->
  let s' := onFullscreenClose t2 (onFullscreenOpen t1 s) in
  pausedByFullscreen s' = false /\ paused s' = false /\
  index s' = index s /\ fresh_interval t2 s'.
Proof.
  intros H. open_cycle s H; run_cycle Hadv;
    (split; [reflexivity|]); (split; [reflexivity|]);
    (split; [reflexivity|]);
    unfold fresh_interval; cbn;
    (split; [reflexivity|]); (split; [reflexivity|]);
    (split; [reflexivity|]);
    do 2 eexists; close_cycle.
Qed.

Lemma fullscreen_open_holds (t1 : Q) s c t due :
  in_cycle c t due s ->
  pausedByFullscreen (onFullscreenOpen t1 s) = true /\
  paused (onFullscreenOpen t1 s) = true /\
  quiet (onFullscreenOpen t1 s).
Proof.
  intros H. open_cycle s H; unfold quiet; run_cycle Hadv; auto 10.
Qed.

(** X9.  The timer armed by closing the lightbox resumes whatever carousel
    is the lightbox's owner when it fires, not the one that was closed:
    if the lightbox is opened on a second carousel within the 300ms, the
    timer restarts that carousel under the open lightbox, and the first
    one stays held by its fullscreen pause with no timer left to release
    it. *)
Theorem close_timer_resumes_current_owner :
  forall (w : World) (k1 k2 : nat) (s1 s2 : Instance)
         (images : list Image) (i : Z) (t0 t1 t2 : Q),
    k1 <> k2 ->
    originalCarousel (modal w) = Some k1 ->
    closeTimers (modal w) = [] ->
    nth_error (carousels w) k1 = Some s1 ->
    pausedByFullscreen s1 = true ->
    nth_error (carousels w) k2 = Some s2 ->
    cycling s2 ->
    Z.max 0 i < Z.of_nat (length images) ->
    (t0 + 300 <= t2)%Q ->
    let w1 := page_step t0 PgModalClose w in
    let w2 := page_step t1 (PgFullscreenBtn k2 images i) w1 in
    let w3 := page_step t2 PgCloseTimer w2 in
    (active (modal w2) = true /\
     exists s, nth_error (carousels w2) k2 = Some s /\
               pausedByFullscreen s = true /\ quiet s) /\
    active (modal w3) = true /\
    originalCarousel (modal w3) = Some k2 /\
    closeTimers (modal w3) = [] /\
    nth_error (carousels w3) k1 = Some s1 /\
    exists s, nth_error (carousels w3) k2 = Some s /\
              pausedByFullscreen s = false /\ paused s = false /\
              fresh_interval t2 s.
Proof.
  intros w k1 k2 s1 s2 images i t0 t1 t2 Hk Ho Hct H1 Hp1 H2 Hc Hi Ht
         w1 w2 w3.
  destruct Hc as (c & t & due & Hc).
  assert (Hw1c : carousels w1 = carousels w) by reflexivity.
  assert (Hw1t : closeTimers (modal w1) = [(t0 + 300)%Q]).
  { subst w1. cbn. rewrite Hct. reflexivity. }
  (* the lightbox opens on the second carousel *)
  set (M := mkModal images (Z.max 0 i) (Some k2) (active (modal w1))
              (image_src (modal w1)) (image_alt (modal w1))
              (counter (modal w1)) (navVisible (modal w1))
              (closeTimers (modal w1))).
  set (wA := on_carousel k2 (onFullscreenOpen t1) (set_modal M w1)).
  destruct (on_carousel_same k2 (onFullscreenOpen t1) (set_modal M w1) s2)
    as (HA2 & HAm & _); [cbn; exact H2|].
  fold wA in HA2, HAm. cbn in HAm.
  assert (HA1 : nth_error (carousels wA) k1 = Some s1).
  { subst wA.
    destruct (on_carousel_other k2 k1 (onFullscreenOpen t1) (set_modal M w1))
      as (E & _); [congruence|].
    rewrite E. cbn. exact H1. }
  assert (Hshow : exists wB, showCurrentImage wA = Done wB).
  { apply showCurrentImage_done. rewrite HAm. cbn. lia. }
  destruct Hshow as (wB & HB).
  pose proof (showCurrentImage_frame wA) as HF. rewrite HB in HF.
  cbn in HF. destruct HF as (Fc & _ & _ & _ & Fo & _ & Ft).
  assert (Hw2 : w2 = set_active true wB).
  { subst w2. cbn [page_step]. unfold onFullscreenBtn.
    rewrite Hw1c, H2. unfold openModal. cbv zeta.
    fold M. fold wA. rewrite HB. reflexivity. }
  assert (Hw2c : carousels w2 = carousels wA).
  { rewrite Hw2. cbn. exact Fc. }
  assert (Hw2o : originalCarousel (modal w2) = Some k2).
  { rewrite Hw2. cbn. rewrite Fo, HAm. reflexivity. }
  assert (Hw2t : closeTimers (modal w2) = [(t0 + 300)%Q]).
  { rewrite Hw2. cbn. rewrite Ft, HAm. cbn. exact Hw1t. }
  assert (Hw2a : active (modal w2) = true).
  { rewrite Hw2. reflexivity. }
  destruct (fullscreen_open_holds t1 s2 c t due Hc) as (Q1 & _ & Q3).
  split.
  { split; [exact Hw2a|].
    exists (onFullscreenOpen t1 s2). rewrite Hw2c. auto. }
  (* the timer of the first close comes due *)
  assert (Hdue : Qle_bool (t0 + 300) t2 = true)
    by (apply Qle_bool_iff; exact Ht).
  set (M3 := mkModal (currentImages (modal w2)) (currentIndex (modal w2))
               (Some k2) (active (modal w2))
               (image_src (modal w2)) (image_alt (modal w2))
               (counter (modal w2)) (navVisible (modal w2)) []).
  assert (Hw3 : w3 = on_carousel k2 (onFullscreenClose t2) (set_modal M3 w2)).
  { subst w3. cbn [page_step]. unfold fireCloseTimer. cbv zeta.
    rewrite Hw2t, Hdue, Hw2o. reflexivity. }
  destruct (on_carousel_same k2 (onFullscreenClose t2) (set_modal M3 w2)
              (onFullscreenOpen t1 s2)) as (E2 & Em & _).
  { change (nth_error (carousels w2) k2 = Some (onFullscreenOpen t1 s2)).
    rewrite Hw2c. exact HA2. }
  destruct (on_carousel_other k2 k1 (onFullscreenClose t2) (set_modal M3 w2))
    as (E1 & _); [congruence|].
  rewrite Hw3, Em, E1, E2.
  split; [exact Hw2a|].
  split; [reflexivity|].
  split; [reflexivity|].
  split; [change (nth_error (carousels w2) k1 = Some s1);
          rewrite Hw2c; exact HA1|].
  exists (onFullscreenClose t2 (onFullscreenOpen t1 s2)).
  split; [reflexivity|].
  destruct (fullscreen_round_trip t1 t2 s2 c t due Hc) as (R1 & R2 & _ & R4).
  auto.
Qed.

Lemma close_timer_resumes_current_owner_witness :
  let w3 := page_run [(3000%Q, PgModalClose);
                      (3100%Q, PgFullscreenBtn 1 three_images 0);
                      (3300%Q, PgCloseTimer)] page2_lightbox in
  originalCarousel (modal w3) = Some 1%nat /\
  nth_error (carousels w3) 0 = Some (onFullscreenOpen 2000 playing4).
Proof.
  assert (Hk : 0%nat <> 1%nat) by discriminate.
  assert (Ho : originalCarousel (modal page2_lightbox) = Some 0%nat)
    by (vm_compute; reflexivity).
  assert (Hct : closeTimers (modal page2_lightbox) = [])
    by (vm_compute; reflexivity).
  assert (H1 : nth_error (carousels page2_lightbox) 0
               = Some (onFullscreenOpen 2000 playing4))
    by (vm_compute; reflexivity).
  assert (Hp : pausedByFullscreen (onFullscreenOpen 2000 playing4) = true)
    by (vm_compute; reflexivity).
  assert (H2 : nth_error (carousels page2_lightbox) 1 = Some playing4)
    by (vm_compute; reflexivity).
  assert (Hi : Z.max 0 0 < Z.of_nat (length three_images))
    by (vm_compute; reflexivity).
  assert (Ht : (3000 + 300 <= 3300)%Q) by (vm_compute; discriminate).
  destruct (close_timer_resumes_current_owner page2_lightbox 0 1
              (onFullscreenOpen 2000 playing4) playing4 three_images 0
              3000 3100 3300 Hk Ho Hct H1 Hp H2 playing4_cycling Hi Ht)
    as (_ & _ & A & _ & B & _).
  split; [exact A|exact B].
Defined.

(** ** Navigation in the lightbox *)

Lemma show_self w : displays w -> show_image (currentIndex (modal w)) w = w.
Proof.
  intros (H0 & im & Him & Hs & Ha & Hc & Hn). unfold show_image. rewrite Him.
  destruct w as [cs o m io]. destruct m. cbn in *. subst.
  reflexivity.
Qed.

Lemma show_show i j w :
  0 <= i < Z.of_nat (length (currentImages (modal w))) ->
  0 <= j < Z.of_nat (length (currentImages (modal w))) ->
  show_image j (show_image i w) = show_image j w.
Proof.
  intros Hi Hj. unfold show_image at 2.
  destruct (nth_error _ (Z.to_nat i)) eqn:E.
  - unfold show_image. cbn.
    destruct (nth_error (currentImages (modal w)) (Z.to_nat j)) eqn:Ej;
      [reflexivity|].
    apply nth_error_None in Ej. lia.
  - apply nth_error_None in E. lia.
Qed.

Lemma show_images j w :
  currentImages (modal (show_image j w)) = currentImages (modal w).
Proof.
  unfold show_image. destruct (nth_error _ _); reflexivity.
Qed.

Lemma show_index j w :
  0 <= j < Z.of_nat (length (currentImages (modal w))) ->
  currentIndex (modal (show_image j w)) = j.
Proof.
  intros Hj. unfold show_image.
  destruct (nth_error _ _) eqn:E; [reflexivity|].
  apply nth_error_None in E. lia.
Qed.

Lemma show_displays j w :
  0 <= j < Z.of_nat (length (currentImages (modal w))) ->
  displays (show_image j w).
Proof.
  intros Hj. unfold show_image.
  destruct (nth_error _ _) eqn:E.
  - unfold displays. cbn. split; [lia|]. exists i. rewrite E. auto.
  - apply nth_error_None in E. lia.
Qed.

Lemma showCurrentImage_at j w :
  0 <= j < Z.of_nat (length (currentImages (modal w))) ->
  showCurrentImage (set_currentIndex j w) = Done (show_image j w).
Proof.
  intros Hj. unfold showCurrentImage, show_image, set_currentIndex.
  cbn [modal set_modal currentImages currentIndex originalCarousel active
       closeTimers].
  destruct (0 <? length (currentImages (modal w)))%nat eqn:E0;
    [|apply Nat.ltb_ge in E0; lia].
  destruct (j <? 0) eqn:E1; [apply Z.ltb_lt in E1; lia|].
  destruct (nth_error _ _) eqn:E; [reflexivity|].
  apply nth_error_None in E. lia.
Qed.

Lemma next_shown_eq w :
  let m := modal w in
  let n := Z.of_nat (length (currentImages m)) in
  1 < n -> 0 <= currentIndex m < n ->
  next_shown w = show_image ((currentIndex m + 1) mod n) w.
Proof.
  intros m n Hn Hi. subst n m. unfold next_shown, nextImage.
  destruct (1 <? length (currentImages (modal w)))%nat eqn:E;
    [|apply Nat.ltb_ge in E; lia].
  unfold js_rem. rewrite Z.rem_mod_nonneg by lia.
  rewrite showCurrentImage_at; [reflexivity|].
  apply Z.mod_pos_bound. lia.
Qed.

Lemma prev_shown_eq w :
  let m := modal w in
  let n := Z.of_nat (length (currentImages m)) in
  1 < n -> 0 <= currentIndex m < n ->
  prev_shown w = show_image ((currentIndex m - 1) mod n) w.
Proof.
  intros m n Hn Hi. subst n m. unfold prev_shown, prevImage.
  destruct (1 <? length (currentImages (modal w)))%nat eqn:E;
    [|apply Nat.ltb_ge in E; lia].
  unfold js_rem. rewrite Z.rem_mod_nonneg by lia.
  set (n := Z.of_nat (length (currentImages (modal w)))) in *.
  replace ((currentIndex (modal w) - 1 + n) mod n)
    with ((currentIndex (modal w) - 1) mod n)
    by (rewrite <- (Z.mod_add (currentIndex (modal w) - 1) 1 n) by lia;
        f_equal; lia).
  rewrite showCurrentImage_at; [reflexivity|].
  apply Z.mod_pos_bound. lia.
Qed.

Lemma next_iter w (k : nat) :
  let m := modal w in
  let n := Z.of_nat (length (currentImages m)) in
  1 < n -> 0 <= currentIndex m < n -> displays w ->
  Nat.iter k next_shown w = show_image ((currentIndex m + Z.of_nat k) mod n) w.
Proof.
  intros m n Hn Hi Hd. subst n m. induction k as [|k IH].
  - cbn [Nat.iter Z.of_nat]. rewrite Z.add_0_r, Z.mod_small by lia.
    symmetry. apply show_self. exact Hd.
  - rewrite Nat.iter_succ, IH.
    set (n := Z.of_nat (length (currentImages (modal w)))) in *.
    set (i := currentIndex (modal w)) in *.
    assert (Hr : 0 <= (i + Z.of_nat k) mod n < n)
      by (apply Z.mod_pos_bound; lia).
    assert (Hr' : 0 <= (i + Z.of_nat (S k)) mod n < n)
      by (apply Z.mod_pos_bound; lia).
    rewrite next_shown_eq; rewrite ?show_images, ?show_index;
      fold n; try assumption; try lia.
    replace (((i + Z.of_nat k) mod n + 1) mod n)
      with ((i + Z.of_nat (S k)) mod n)
      by (rewrite Zplus_mod_idemp_l; f_equal; lia).
    apply show_show; assumption.
Qed.

(** X10.  While the lightbox displays one of several images, next and
    previous are inverse to each other, each leaves the lightbox
    displaying the image of the new index, and as many steps forward as
    there are images come back to the very state they started from. *)
Theorem lightbox_round_trip :
  forall (w : World),
    let m := modal w in
    let n := Z.of_nat (length (currentImages m)) in
    1 < n -> currentIndex m < n -> displays w ->
    prev_shown (next_shown w) = w /\
    next_shown (prev_shown w) = w /\
    displays (next_shown w) /\ displays (prev_shown w) /\
    Nat.iter (length (currentImages m)) next_shown w = w.
Proof.
  intros w m n Hn Hi Hd. subst n m.
  assert (H0 : 0 <= currentIndex (modal w)) by (destruct Hd; assumption).
  pose proof (next_shown_eq w) as En.
  pose proof (prev_shown_eq w) as Ep.
  pose proof (next_iter w (length (currentImages (modal w)))) as Ei.
  cbv zeta in En, Ep, Ei.
  set (n := Z.of_nat (length (currentImages (modal w)))) in *.
  set (i := currentIndex (modal w)) in *.
  assert (Hnx : 0 <= (i + 1) mod n < n) by (apply Z.mod_pos_bound; lia).
  assert (Hpv : 0 <= (i - 1) mod n < n) by (apply Z.mod_pos_bound; lia).
  rewrite En, Ep, Ei by (try assumption; lia).
  split.
  { rewrite prev_shown_eq; rewrite ?show_images, ?show_index;
      fold n; try assumption; try lia.
    replace (((i + 1) mod n - 1) mod n) with i.
    - rewrite show_show by (fold n; lia). apply show_self. exact Hd.
    - rewrite Zminus_mod_idemp_l.
      replace (i + 1 - 1) with i by lia.
      symmetry. apply Z.mod_small. lia. }
  split.
  { rewrite next_shown_eq; rewrite ?show_images, ?show_index;
      fold n; try assumption; try lia.
    replace (((i - 1) mod n + 1) mod n) with i.
    - rewrite show_show by (fold n; lia). apply show_self. exact Hd.
    - rewrite Zplus_mod_idemp_l.
      replace (i - 1 + 1) with i by lia.
      symmetry. apply Z.mod_small. lia. }
  split; [apply show_displays; fold n; exact Hnx|].
  split; [apply show_displays; fold n; exact Hpv|].
  replace ((i + n) mod n) with i.
  - apply show_self. exact Hd.
  - replace (i + n) with (i + 1 * n) by lia. rewrite Z.mod_add by lia.
    symmetry. apply Z.mod_small. lia.
Qed.

Lemma lightbox_round_trip_witness :
  prev_shown (next_shown page2_lightbox) = page2_lightbox /\
  Nat.iter 3 next_shown page2_lightbox = page2_lightbox.
Proof.
  assert (Hn : 1 < Z.of_nat (length (currentImages (modal page2_lightbox))))
    by (vm_compute; reflexivity).
  assert (Hi : currentIndex (modal page2_lightbox)
               < Z.of_nat (length (currentImages (modal page2_lightbox))))
    by (vm_compute; reflexivity).
  assert (Hd : displays page2_lightbox).
  { split; [vm_compute; discriminate|].
    exists (mkImage String.EmptyString String.EmptyString).
    repeat split; vm_compute; reflexivity. }
  destruct (lightbox_round_trip page2_lightbox Hn Hi Hd)
    as (A & _ & _ & _ & B).
  split; [exact A|exact B].
Defined.

(** ** The viewport observer routes visibility to the instance *)

Lemma map_get_map_set k l :
  map_get k (map_set k l) = Some (mkCarouselData k false).
Proof.
  unfold map_get, map_set.
  destruct (existsb (fun d => Nat.eqb k (cd_container d)) l) eqn:E.
  - induction l as [|d l IH]; [discriminate E|].
    cbn in E |- *. destruct (Nat.eqb k (cd_container d)) eqn:Ek; cbn.
    + rewrite Nat.eqb_refl. reflexivity.
    + rewrite Ek. apply IH. exact E.
  - induction l as [|d l IH]; cbn.
    + rewrite Nat.eqb_refl. reflexivity.
    + cbn in E. apply orb_false_iff in E. destruct E as (E1 & E2).
      rewrite E1. apply IH. exact E2.
Qed.

Lemma map_get_mark k l d :
  map_get k l = Some d ->
  map_get k (map (fun d => if Nat.eqb k (cd_container d)
                           then mkCarouselData k true else d) l)
  = Some (mkCarouselData k true).
Proof.
  unfold map_get. induction l as [|a l IH]; [discriminate|].
  cbn. destruct (Nat.eqb k (cd_container a)) eqn:Ek; cbn.
  - rewrite Nat.eqb_refl. reflexivity.
  - rewrite Ek. exact IH.
Qed.

Lemma map_get_map_delete k l : map_get k (map_delete k l) = None.
Proof.
  unfold map_get, map_delete. induction l as [|a l IH]; [reflexivity|].
  cbn. destruct (Nat.eqb k (cd_container a)) eqn:Ek; cbn; [exact IH|].
  rewrite Ek. exact IH.
Qed.

Lemma existsb_set_add k l : existsb (Nat.eqb k) (set_add k l) = true.
Proof.
  apply existsb_exists. exists k. split; [apply set_add_In|].
  apply Nat.eqb_refl.
Qed.

Lemma observe_registers k w :
  ioAvailable w = true -> isDestroying (vo w) = false ->
  let w' := observe k w in
  carousels w' = carousels w /\
  observer (vo w') = true /\ isDestroying (vo w') = false /\
  map_get k (observedCarousels (vo w')) = Some (mkCarouselData k false) /\
  existsb (Nat.eqb k) (observedTargets (vo w')) = true.
Proof.
  intros Hio Hd. unfold observe, initObserver. rewrite Hd.
  destruct w as [cs o m io]. destruct o as [ob oc ot de].
  cbn in Hio, Hd. subst io de.
  destruct ob; cbn -[map_get map_set set_add existsb];
    rewrite map_get_map_set, existsb_set_add; auto.
Qed.

Lemma routed k f w :
  nth_error (carousels (on_carousel k f w)) k
  = option_map f (nth_error (carousels w) k).
Proof.
  destruct (nth_error (carousels w) k) as [s|] eqn:E.
  - destruct (on_carousel_same k f w s E) as (H & _). exact H.
  - unfold on_carousel. rewrite E. exact E.
Qed.

(** X11.  Once a carousel is registered with an available observer, the
    visibility reports for its container are routed to it: an exit
    reported before the first entry is ignored, the first entry
    initialises the instance, after that an exit is a viewport pause and
    an entry a viewport resume; and once the container is unobserved no
    report reaches the instance any more. *)
Theorem observer_routes_visibility :
  forall (w : World) (n : Z) (hasFill : bool) (now0 now1 now2 : Q),
    ioAvailable w = true ->
    isDestroying (vo w) = false ->
    n <> 0 ->
    let k := length (carousels w) in
    let s0 := create n hasFill in
    let w0 := initializeSingleCarousel n hasFill w in
    let w1 := intersect k true now0 w0 in
    let w2 := intersect k false now1 w1 in
    let w3 := intersect k true now2 w2 in
    nth_error (carousels w0) k = Some s0 /\
    intersect k false now0 w0 = w0 /\
    nth_error (carousels w1) k = Some (initialize now0 s0) /\
    nth_error (carousels w2) k
      = Some (pauseForViewport now1 (initialize now0 s0)) /\
    nth_error (carousels w3) k
      = Some (resumeFromViewportPause now2
                (pauseForViewport now1 (initialize now0 s0))) /\
    (forall b now, intersect k b now (unobserve k w1) = unobserve k w1).
Proof.
  intros w n hasFill now0 now1 now2 Hio Hd Hn k s0 w0 w1 w2 w3.
  set (wc := set_carousels (carousels w ++ [s0]) w).
  assert (Hw0 : w0 = observe k wc).
  { subst w0. unfold initializeSingleCarousel.
    destruct (n =? 0) eqn:E; [apply Z.eqb_eq in E; contradiction|].
    reflexivity. }
  destruct (observe_registers k wc Hio Hd) as (Rc & Ro & Rd & Rg & Rt).
  rewrite <- Hw0 in Rc, Ro, Rd, Rg, Rt.
  assert (H0 : nth_error (carousels w0) k = Some s0).
  { rewrite Rc. cbn. subst k. rewrite nth_error_app2 by lia.
    rewrite Nat.sub_diag. reflexivity. }
  (* the first entry *)
  assert (Hw1 : w1 = mark_initialized k (on_carousel k (initialize now0) w0)).
  { subst w1. unfold intersect. rewrite Ro, Rt. cbn [andb].
    unfold on_entry. rewrite Rg, Rd. reflexivity. }
  assert (H1 : nth_error (carousels w1) k = Some (initialize now0 s0)).
  { rewrite Hw1. cbn [mark_initialized carousels set_vo].
    rewrite routed, H0. reflexivity. }
  assert (V1 : observer (vo w1) = true /\ isDestroying (vo w1) = false /\
               existsb (Nat.eqb k) (observedTargets (vo w1)) = true /\
               map_get k (observedCarousels (vo w1))
               = Some (mkCarouselData k true)).
  { rewrite Hw1. unfold mark_initialized.
    cbn [vo set_vo observer isDestroying observedTargets observedCarousels].
    destruct (on_carousel_same k (initialize now0) w0 s0 H0) as (_ & _ & Ev).
    rewrite !Ev, Ro, Rd, Rt.
    rewrite (map_get_mark k _ _ Rg). auto. }
  destruct V1 as (O1 & D1 & T1 & G1).
  (* exit, then entry *)
  assert (Hw2 : w2 = on_carousel k (pauseForViewport now1) w1).
  { subst w2. unfold intersect. rewrite O1, T1. cbn [andb].
    unfold on_entry. rewrite G1, D1. reflexivity. }
  assert (H2 : nth_error (carousels w2) k
               = Some (pauseForViewport now1 (initialize now0 s0))).
  { rewrite Hw2, routed, H1. reflexivity. }
  assert (V2 : vo w2 = vo w1).
  { rewrite Hw2.
    destruct (on_carousel_same k (pauseForViewport now1) w1 _ H1)
      as (_ & _ & Ev). exact Ev. }
  assert (Hw3 : w3 = on_carousel k (resumeFromViewportPause now2) w2).
  { subst w3. unfold intersect. rewrite V2, O1, T1. cbn [andb].
    unfold on_entry. rewrite V2, G1, D1. reflexivity. }
  split; [exact H0|].
  split.
  { unfold intersect. rewrite Ro, Rt. cbn [andb].
    unfold on_entry. rewrite Rg, Rd. reflexivity. }
  split; [exact H1|]. split; [exact H2|].
  split; [rewrite Hw3, routed, H2; reflexivity|].
  intros b now. unfold intersect, on_entry, unobserve.
  cbn [vo set_vo observer isDestroying observedTargets observedCarousels].
  rewrite map_get_map_delete.
  destruct (observer (vo w1) && _); reflexivity.
Qed.

Lemma observer_routes_visibility_witness :
  let w0 := initializeSingleCarousel 4 true (page1 true) in
  nth_error (carousels (intersect 1 true 0 w0)) 1
  = Some (initialize 0 (create 4 true)) /\
  intersect 1 false 0 w0 = w0.
Proof.
  assert (Hio : ioAvailable (page1 true) = true) by reflexivity.
  assert (Hd : isDestroying (vo (page1 true)) = false) by reflexivity.
  assert (Hn : 4 <> 0) by discriminate.
  destruct (observer_routes_visibility (page1 true) 4 true 0 50 90
              Hio Hd Hn) as (_ & A & B & _).
  split; [exact B|exact A].
Defined.

(** ** Unloading the page *)

Lemma list_set_destroyed (f : Instance -> Instance) :
  (forall s, destroyed s = true ->
             forget_browser (f s) = forget_browser s /\
             destroyed (f s) = true) ->
  forall (l : list Instance) (k : nat) (s : Instance),
    Forall (fun s => destroyed s = true) l ->
    nth_error l k = Some s ->
    Forall (fun s => destroyed s = true) (list_set k (f s) l) /\
    map forget_browser (list_set k (f s) l) = map forget_browser l.
Proof.
  intros Hf l. induction l as [|a l IH]; intros [|k] s Hall Hk;
    try discriminate Hk; inversion Hall; subst; cbn in Hk |- *.
  - injection Hk as ->. destruct (Hf s H1) as (F1 & F2).
    split; [constructor; assumption|]. rewrite F1. reflexivity.
  - destruct (IH k s H2 Hk) as (I1 & I2).
    split; [constructor; assumption|]. rewrite I2. reflexivity.
Qed.

Lemma on_carousel_unloaded k f w :
  (forall s, destroyed s = true ->
             forget_browser (f s) = forget_browser s /\
             destroyed (f s) = true) ->
  Forall (fun s => destroyed s = true) (carousels w) ->
  Forall (fun s => destroyed s = true) (carousels (on_carousel k f w)) /\
  map forget_browser (carousels (on_carousel k f w))
  = map forget_browser (carousels w) /\
  vo (on_carousel k f w) = vo w /\ modal (on_carousel k f w) = modal w.
Proof.
  intros Hf Hall. unfold on_carousel.
  destruct (nth_error (carousels w) k) as [s|] eqn:E; [|auto].
  destruct (list_set_destroyed f Hf (carousels w) k s Hall E) as (L1 & L2).
  cbn. auto.
Qed.

Lemma call_keeps_destroyed now e :
  is_call e = true ->
  forall s, destroyed s = true ->
            forget_browser (step now e s) = forget_browser s /\
            destroyed (step now e s) = true.
Proof.
  intros He s Hd. rewrite call_on_destroyed by assumption. auto.
Qed.

Lemma modal_step_vo now e w :
  match e with
  | PgModalClose | PgModalNext | PgModalPrev | PgModalKey _ => True
  | _ => False
  end ->
  vo (page_step now e w) = vo w.
Proof.
  assert (Hn : vo (state_of (nextImage w)) = vo w).
  { unfold nextImage.
    destruct (1 <? length (currentImages (modal w)))%nat; [|reflexivity].
    match goal with
    | |- context [showCurrentImage ?x] =>
        destruct (showCurrentImage_frame x) as (_ & H & _)
    end. rewrite H. reflexivity. }
  assert (Hp : vo (state_of (prevImage w)) = vo w).
  { unfold prevImage.
    destruct (1 <? length (currentImages (modal w)))%nat; [|reflexivity].
    match goal with
    | |- context [showCurrentImage ?x] =>
        destruct (showCurrentImage_frame x) as (_ & H & _)
    end. rewrite H. reflexivity. }
  destruct e; try contradiction; intros _; cbn [page_step];
    try reflexivity; try assumption.
  unfold onModalKeydown.
  destruct (active (modal w)); [|reflexivity]. cbn [negb].
  destruct key; try reflexivity; assumption.
Qed.

Lemma page_step_unloaded now e w :
  unloaded w ->
  unloaded (page_step now e w) /\
  map forget_browser (carousels (page_step now e w))
  = map forget_browser (carousels w).
Proof.
  intros (Hall & Hvo).
  assert (Hm : forall e',
             match e' with
             | PgModalClose | PgModalNext | PgModalPrev | PgModalKey _ => True
             | _ => False
             end ->
             unloaded (page_step now e' w) /\
             map forget_browser (carousels (page_step now e' w))
             = map forget_browser (carousels w)).
  { intros e' He. unfold unloaded.
    rewrite (modal_step_carousels now e' w He), (modal_step_vo now e' w He).
    auto. }
  destruct e; try (apply Hm; exact I); clear Hm.
  - cbn [page_step]. unfold intersect. rewrite Hvo. cbn [observer andb].
    split; [split; assumption|reflexivity].
  - cbn [page_step].
    destruct (on_carousel_unloaded k (step now e) w
                (fun s => callback_on_destroyed now e s) Hall)
      as (A & B & C & _).
    split; [split; [exact A|rewrite C; exact Hvo]|exact B].
  - cbn [page_step]. unfold onFullscreenBtn.
    pose proof (openModal_carousels images (Z.max 0 activeSlideIndex)
                  (match nth_error (carousels w) k with
                   | Some _ => Some k
                   | None => None
                   end) now w) as Hc.
    assert (Hv : vo (state_of
                       (openModal images (Z.max 0 activeSlideIndex)
                          (match nth_error (carousels w) k with
                           | Some _ => Some k
                           | None => None
                           end) now w)) = vo w).
    { unfold openModal. cbv zeta.
      match goal with
      | |- context [showCurrentImage ?x] =>
          pose proof (showCurrentImage_frame x) as Hs;
          destruct (showCurrentImage x) as [w1|w1]
      end; cbn in Hs |- *; destruct Hs as (_ & Hs & _); rewrite Hs;
        destruct (nth_error (carousels w) k); try reflexivity;
        unfold on_carousel; cbn;
        destruct (nth_error (carousels w) k); reflexivity. }
    unfold unloaded. rewrite Hc, Hv.
    destruct (nth_error (carousels w) k) as [s|]; [|auto].
    destruct (on_carousel_unloaded k (onFullscreenOpen now) w
                (call_keeps_destroyed now CallOnFullscreenOpen eq_refl) Hall)
      as (A & B & _).
    auto.
  - cbn [page_step]. unfold fireCloseTimer. cbv zeta.
    destruct (closeTimers (modal w)) as [|due rest];
      [split; [split; assumption|reflexivity]|].
    destruct (Qle_bool due now);
      [|split; [split; assumption|reflexivity]].
    destruct (originalCarousel (modal w)) as [k|];
      [|split; [split; assumption|reflexivity]].
    match goal with
    | |- context [on_carousel k ?f ?x] =>
        destruct (on_carousel_unloaded k (onFullscreenClose now) x
                    (call_keeps_destroyed now CallOnFullscreenClose eq_refl)
                    Hall)
          as (A & B & C & _)
    end.
    split; [split; [exact A|rewrite C; exact Hvo]|exact B].
  - cbn [page_step]. unfold onBeforeUnload, observer_cleanup.
    cbn [carousels set_vo set_carousels vo].
    assert (E : map cleanup (carousels w) = carousels w).
    { clear Hvo. induction (carousels w) as [|a l IH]; [reflexivity|].
      inversion Hall; subst. cbn. rewrite cleanup_noop by assumption.
      rewrite IH by assumption. reflexivity. }
    rewrite E. split; [split; [exact Hall|reflexivity]|reflexivity].
Qed.

Lemma page_run_unloaded tr : forall w,
  unloaded w ->
  unloaded (page_run tr w) /\
  map forget_browser (carousels (page_run tr w))
  = map forget_browser (carousels w).
Proof.
  induction tr as [|[now e] tr IH]; intros w H; [auto|].
  cbn [page_run].
  destruct (page_step_unloaded now e w H) as (S1 & S2).
  destruct (IH _ S1) as (I1 & I2).
  split; [exact I1|]. rewrite I2. exact S2.
Qed.

(** X12.  The unload handler is final for the whole page: it tears down
    every instance and drops the viewport observer with all its
    registrations, and whatever the page sees afterwards (visibility
    reports, clicks, keys, timers, frames, the lightbox, another unload)
    every instance stays torn down and keeps its slide, its flags, its
    timing record and its fill, and the observer stays gone.  What can
    still change in an instance is what [forget_browser] erases: the
    browser's queues (pending timeouts, frames, listeners) and the
    instance's own [timer] and [animationFrame] handles and two tracking
    sets, which a callback that outlives the teardown still clears. *)
Theorem unload_is_final :
  forall (w : World) (tr : list (Q * PageEvent)),
    let w0 := onBeforeUnload w in
    let w' := page_run tr w0 in
    length (carousels w0) = length (carousels w) /\
    Forall (fun s => destroyed s = true) (carousels w') /\
    map forget_browser (carousels w') = map forget_browser (carousels w0) /\
    vo w' = mkViewportObserver false [] [] false /\
    (forall k b now, intersect k b now w' = w').
Proof.
  intros w tr w0 w'.
  assert (H0 : unloaded w0).
  { subst w0. unfold unloaded, onBeforeUnload, observer_cleanup.
    cbn [carousels set_vo set_carousels vo].
    split; [|reflexivity].
    apply Forall_forall. intros s Hs. apply in_map_iff in Hs.
    destruct Hs as (s0 & <- & _). apply cleanup_destroyed. }
  destruct (page_run_unloaded tr w0 H0) as ((A & B) & C). fold w' in A, B, C.
  split; [subst w0; unfold onBeforeUnload; cbn; apply length_map|].
  split; [exact A|]. split; [exact C|]. split; [exact B|].
  intros k b now. unfold intersect. rewrite B. reflexivity.
Qed.

(** ** The viewport observer when the browser has no IntersectionObserver *)

(** C6, as stated, fails: in a browser without the intersection observer
    the carousel handed to [observe] is not initialized, neither at once
    nor when its container is reported visible afterwards. *)
Lemma observer_unavailable_counterexample :
  let w := page1 false in
  ioAvailable w = false /\
  option_map initialized (nth_error (carousels w) 0) = Some false /\
  option_map initialized
    (nth_error (carousels (intersect 0 true 50 w)) 0) = Some false /\
  ~ (forall s, nth_error (carousels w) 0 = Some s -> initialized s = true).
Proof.
  cbv zeta. split; [reflexivity|]. split; [reflexivity|].
  split; [reflexivity|].
  intros H. specialize (H fresh4 eq_refl). discriminate H.
Qed.

Lemma intersect_without_observer k b now w :
  observer (vo w) = false -> intersect k b now w = w.
Proof. intros H. unfold intersect. rewrite H. reflexivity. Qed.

(** *** Along the life of the page *)

Ltac unseen_cases split :=
  let s := fresh "s" in
  let H := fresh "H" in
  intros s H;
  open_ops;
  destruct s as [n pf idx tm af sts pe pa vp ini de pbf sas iiv peh
                   cf cto cra cells ls tos rf nt nr ro];
  unfold unseen in H; cbn in H;
  destruct H as (Hini & Hvp);
  subst ini vp;
  repeat match goal with
  | |- context [advanced ?c ?s] =>
      let b := fresh "b" in
      remember (advanced c s) as b; destruct b
  end;
  split;
  norm; split_residual;
  unfold unseen; cbn;
  auto.

Lemma advance_unseen c now :
  forall s, unseen s -> unseen (advance c now s).
Proof. unseen_cases ltac:(destruct de, pa, pf, peh, tm, af). Qed.

Lemma raf_cb_unseen : forall s, unseen s -> unseen (raf_cb s).
Proof. unseen_cases ltac:(destruct de, pa, pf, af). Qed.

Lemma fallback_cb_unseen c now :
  forall s, unseen s -> unseen (fallback_cb c now s).
Proof. unseen_cases ltac:(destruct de, pa, pf, peh, tm, af). Qed.

Lemma init_cb_unseen id now :
  forall s, unseen s -> unseen (init_cb id now s).
Proof. unseen_cases ltac:(destruct de, pa, pf, peh, tm, af). Qed.

Lemma onNextClick_unseen now :
  forall s, unseen s -> unseen (onNextClick now s).
Proof. unseen_cases ltac:(destruct de, pa, pf, peh, tm, af). Qed.

Lemma onPrevClick_unseen now :
  forall s, unseen s -> unseen (onPrevClick now s).
Proof. unseen_cases ltac:(destruct de, pa, pf, peh, tm, af). Qed.

Lemma onDotClick_unseen i now :
  forall s, unseen s -> unseen (onDotClick i now s).
Proof. unseen_cases ltac:(destruct de, pa, pf, peh, tm, af). Qed.

Lemma onKeydown_unseen k now :
  forall s, unseen s -> unseen (onKeydown k now s).
Proof. unseen_cases ltac:(destruct k; destruct de, pa, pf, peh, tm, af). Qed.

Lemma onViewportClick_unseen r now :
  forall s, unseen s -> unseen (onViewportClick r now s).
Proof. unseen_cases ltac:(destruct r; destruct de, pa, pf, peh, tm, af). Qed.

Lemma onFullscreenOpen_unseen now :
  forall s, unseen s -> unseen (onFullscreenOpen now s).
Proof. unseen_cases ltac:(destruct de, pa, pf, peh, tm, af). Qed.

Lemma onFullscreenClose_unseen now :
  forall s, unseen s -> unseen (onFullscreenClose now s).
Proof. unseen_cases ltac:(destruct de, iiv, pa, pf, peh, tm, af). Qed.

Lemma cleanup_unseen : forall s, unseen s -> unseen (cleanup s).
Proof.
  intros s H. rewrite cleanup_eq. destruct (destroyed s); [exact H|].
  unfold unseen, cleanup_result. cbn. auto.
Qed.

Lemma step_unseen now e :
  forall s, user_or_browser e = true -> unseen s -> unseen (step now e s).
Proof.
  destruct e; cbn [step user_or_browser]; intros s He H;
    try discriminate He.
  - unfold fireTimeout.
    destruct (find _ (timeouts s)) as [t|]; [|exact H].
    destruct (Qle_bool (t_due t) now); [|exact H].
    assert (Hc : unseen (clearTimeout id s)) by (destruct s; exact H).
    destruct (t_cb t);
      [apply init_cb_unseen|apply fallback_cb_unseen]; exact Hc.
  - unfold fireFrame.
    destruct (existsb _ (rafs s)); [|exact H].
    apply raf_cb_unseen. destruct s; exact H.
  - unfold dispatchTransitionEnd.
    apply fold_left_invariant; [|exact H].
    intros s' c Hs'. destruct (existsb _ (listeners s')); [|exact Hs'].
    unfold endHandler.
    assert (Hr : unseen (removeEventListener c s'))
      by (destruct s'; exact Hs').
    destruct onWidth; [apply advance_unseen|]; exact Hr.
  - apply onNextClick_unseen, H.
  - apply onPrevClick_unseen, H.
  - apply onDotClick_unseen, H.
  - apply onKeydown_unseen, H.
  - apply onViewportClick_unseen, H.
Qed.

Lemma on_carousel_Forall (P : Instance -> Prop) k f w :
  (forall s, P s -> P (f s)) ->
  Forall P (carousels w) -> Forall P (carousels (on_carousel k f w)).
Proof.
  intros Hf Hall. unfold on_carousel.
  destruct (nth_error (carousels w) k) as [s|] eqn:E; [|exact Hall].
  cbn [carousels set_carousels].
  assert (Hs : P s).
  { rewrite Forall_forall in Hall. apply Hall.
    eapply nth_error_In. exact E. }
  clear E. revert k. induction Hall as [|a l Ha Hl IH]; intros [|k]; cbn;
    constructor; auto.
Qed.

Lemma on_carousel_vo k f w : vo (on_carousel k f w) = vo w.
Proof.
  unfold on_carousel. destruct (nth_error (carousels w) k); reflexivity.
Qed.

Lemma openModal_vo images i c now w :
  vo (state_of (openModal images i c now w)) = vo w.
Proof.
  unfold openModal. cbv zeta.
  match goal with
  | |- context [showCurrentImage ?x] =>
      pose proof (showCurrentImage_frame x) as Hs;
      destruct (showCurrentImage x) as [w1|w1]
  end; cbn in Hs |- *; destruct Hs as (_ & Hs & _); rewrite Hs;
    destruct c; try reflexivity; rewrite on_carousel_vo; reflexivity.
Qed.

Lemma page_step_unseen now e w :
  page_traffic e ->
  observer (vo w) = false ->
  Forall unseen (carousels w) ->
  observer (vo (page_step now e w)) = false /\
  Forall unseen (carousels (page_step now e w)).
Proof.
  intros He Ho Hall.
  assert (Hm : forall e',
             match e' with
             | PgModalClose | PgModalNext | PgModalPrev | PgModalKey _ => True
             | _ => False
             end ->
             observer (vo (page_step now e' w)) = false /\
             Forall unseen (carousels (page_step now e' w))).
  { intros e' He'.
    rewrite (modal_step_carousels now e' w He'), (modal_step_vo now e' w He').
    auto. }
  destruct e; try (apply Hm; exact I); clear Hm; cbn [page_step].
  - rewrite intersect_without_observer by exact Ho. auto.
  - cbn in He. rewrite on_carousel_vo.
    split; [exact Ho|].
    apply on_carousel_Forall; [|exact Hall].
    intros s. apply step_unseen. exact He.
  - unfold onFullscreenBtn. rewrite openModal_vo, openModal_carousels.
    split; [exact Ho|].
    destruct (nth_error (carousels w) k); [|exact Hall].
    apply on_carousel_Forall; [|exact Hall].
    intros s. apply onFullscreenOpen_unseen.
  - unfold fireCloseTimer. cbv zeta.
    destruct (closeTimers (modal w)) as [|due rest]; [auto|].
    destruct (Qle_bool due now); [|auto].
    destruct (originalCarousel (modal w)) as [k|]; [|auto].
    rewrite on_carousel_vo. split; [exact Ho|].
    apply on_carousel_Forall; [|exact Hall].
    intros s. apply onFullscreenClose_unseen.
  - unfold onBeforeUnload, observer_cleanup.
    cbn [carousels set_vo set_carousels vo observer].
    split; [reflexivity|].
    apply Forall_forall. intros s Hs. apply in_map_iff in Hs.
    destruct Hs as (s0 & <- & Hin). apply cleanup_unseen.
    rewrite Forall_forall in Hall. apply Hall. exact Hin.
Qed.

Lemma page_run_unseen tr : forall w,
  Forall (fun te => page_traffic (snd te)) tr ->
  observer (vo w) = false ->
  Forall unseen (carousels w) ->
  observer (vo (page_run tr w)) = false /\
  Forall unseen (carousels (page_run tr w)).
Proof.
  induction tr as [|[now e] tr IH]; intros w Htr Ho Hall; [auto|].
  inversion Htr; subst. cbn [page_run].
  destruct (page_step_unseen now e w) as (S1 & S2); try assumption.
  apply IH; assumption.
Qed.

(** C6, amended.  When the observer cannot be built, [observe] is total
    (nothing is thrown), registers nothing and leaves every instance as it
    was, and a visibility report changes nothing.  A carousel with at
    least one image created on such a page is handed to [observe]
    uninitialized and not viewport-paused; and if no carousel of the page
    was initialized or viewport-paused before, then through the whole
    life of the page (visibility reports, navigation by the user, the
    lightbox, callbacks of the browser, the unload) the observer stays
    unavailable and every carousel stays that way: never initialized,
    never viewport-paused. *)
Theorem observer_unavailable_registers_nothing :
  forall (w : World) (k : nat),
    ioAvailable w = false ->
    observer (vo w) = false ->
    let w' := observe k w in
    carousels w' = carousels w /\
    observedCarousels (vo w') = observedCarousels (vo w) /\
    observedTargets (vo w') = observedTargets (vo w) /\
    observer (vo w') = false /\
    (forall k' b now, intersect k' b now w' = w') /\
    (forall n hasFill,
        let w2 := initializeSingleCarousel n hasFill w in
        n <> 0 ->
        nth_error (carousels w2) (length (carousels w))
          = Some (create n hasFill) /\
        initialized (create n hasFill) = false /\
        viewportPaused (create n hasFill) = false /\
        forall k' b now, intersect k' b now w2 = w2) /\
    (forall n hasFill (tr : list (Q * PageEvent)),
        let w2 := initializeSingleCarousel n hasFill w in
        Forall unseen (carousels w) ->
        Forall (fun te => page_traffic (snd te)) tr ->
        observer (vo (page_run tr w2)) = false /\
        Forall unseen (carousels (page_run tr w2))).
Proof.
  intros w k Hio Hobs w'.
  assert (Hobserve : forall k0 w0,
             ioAvailable w0 = false -> observer (vo w0) = false ->
             carousels (observe k0 w0) = carousels w0 /\
             observedCarousels (vo (observe k0 w0))
               = observedCarousels (vo w0) /\
             observedTargets (vo (observe k0 w0)) = observedTargets (vo w0) /\
             observer (vo (observe k0 w0)) = false).
  { intros k0 w0 H1 H2. unfold observe, initObserver. cbv zeta.
    rewrite H2, H1.
    destruct (isDestroying (vo w0)); cbn; auto. }
  destruct (Hobserve k w Hio Hobs) as (H1 & H2 & H3 & H4).
  split; [exact H1|]. split; [exact H2|]. split; [exact H3|].
  split; [exact H4|].
  split; [intros; apply intersect_without_observer; exact H4|].
  split.
  { intros n hasFill w2 Hn. subst w2. unfold initializeSingleCarousel.
    apply Z.eqb_neq in Hn. rewrite Hn.
    match goal with
    | |- context [observe ?k0 ?w0] =>
        destruct (Hobserve k0 w0 Hio Hobs) as (G1 & _ & _ & G4)
    end.
    split.
    - rewrite G1. cbn. rewrite nth_error_app2 by lia.
      rewrite Nat.sub_diag. reflexivity.
    - split; [reflexivity|]. split; [reflexivity|].
      intros; apply intersect_without_observer; exact G4. }
  intros n hasFill tr w2 Hall Htr. subst w2.
  apply page_run_unseen; [exact Htr| |];
    unfold initializeSingleCarousel; destruct (n =? 0);
    try assumption;
    match goal with
    | |- context [observe ?k0 ?w0] =>
        destruct (Hobserve k0 w0 Hio Hobs) as (G1 & _ & _ & G4)
    end.
  - exact G4.
  - rewrite G1. cbn [carousels set_carousels].
    apply Forall_app. split; [exact Hall|].
    constructor; [|constructor].
    unfold unseen. destruct hasFill; auto.
Qed.

(** The theorem on the one-carousel page of a browser without the
    observer: the container is reported visible (to no one) and the user
    clicks next; the carousel is still not initialized. *)
Lemma observer_unavailable_registers_nothing_witness :
  let w := mkWorld [] (mkViewportObserver false [] [] false) empty_modal false in
  (carousels (observe 0 w) = carousels w /\
   observer (vo (observe 0 w)) = false) /\
  Forall unseen
    (carousels
       (page_run [(50%Q, PgIntersect 0 true);
                  (1000%Q, PgCarousel 0 EvNextClick)]
          (initializeSingleCarousel 4 true w))).
Proof.
  intros w.
  destruct (observer_unavailable_registers_nothing w 0%nat eq_refl eq_refl)
    as (H1 & _ & _ & H4 & _ & _ & H7).
  split; [split; [exact H1|exact H4]|].
  apply (H7 4 true [(50%Q, PgIntersect 0 true);
                    (1000%Q, PgCarousel 0 EvNextClick)]).
  - constructor.
  - repeat constructor.
Defined.

(** ** Debounced calls *)

Section DebounceFacts.

Context {A : Type}.

Import Debounce.

Lemma call_single (delay now : Q) (a : A) (s : State A) :
  single_pending s ->
  timers (call delay now a s) = [mkPending (nextId s) (now + delay)%Q a] /\
  timeoutId (call delay now a s) = Some (nextId s) /\
  applied (call delay now a s) = applied s.
Proof.
  intros [H|(p & H & Hid)]; unfold call; cbn; rewrite H.
  - destruct (timeoutId s); cbn; auto.
  - rewrite Hid. cbn. rewrite Nat.eqb_refl. cbn. auto.
Qed.

Lemma fire_single (id : nat) (now : Q) (s : State A) :
  single_pending s ->
  single_pending (fire id now s) /\
  (length (applied (fire id now s)) + length (timers (fire id now s))
   = length (applied s) + length (timers s))%nat.
Proof.
  intros H. unfold fire.
  destruct H as [H|(p & H & Hid)]; rewrite H; cbn.
  - split; [left; exact H|]. rewrite H. reflexivity.
  - destruct (Nat.eqb id (p_id p)) eqn:E; cbn.
    + destruct (Qle_bool (p_due p) now); cbn.
      * rewrite ?E. cbn. split; [left; reflexivity|].
        rewrite length_app. cbn. lia.
      * split; [right; exists p; auto|]. rewrite H. reflexivity.
    + split; [right; exists p; auto|]. rewrite H. reflexivity.
Qed.

Lemma step_single (delay now : Q) (e : Event A) (s : State A) :
  single_pending s -> single_pending (step delay now e s).
Proof.
  intros H. destruct e as [a|id]; cbn [step].
  - destruct (call_single delay now a s H) as (H1 & H2 & _).
    right. eexists. split; [exact H1|exact H2].
  - apply fire_single. exact H.
Qed.

Lemma run_single (delay : Q) (tr : list (Q * Event A)) : forall s,
  single_pending s ->
  single_pending (run delay tr s) /\
  (length (applied (run delay tr s)) + length (timers (run delay tr s))
   <= length (applied s) + length (timers s) + calls_in tr)%nat.
Proof.
  induction tr as [|[now e] tr IH]; intros s H.
  - cbn. split; [exact H|lia].
  - cbn [run].
    destruct (IH (step delay now e s) (step_single delay now e s H))
      as (I1 & I2).
    split; [exact I1|].
    destruct e as [a|id]; cbn [step] in *.
    + destruct (call_single delay now a s H) as (H1 & _ & H3).
      rewrite H1, H3 in I2. unfold calls_in in *. cbn in *. lia.
    + destruct (fire_single id now s H) as (_ & F).
      unfold calls_in in *. cbn in *. lia.
Qed.

End DebounceFacts.

(** X13.  Whatever calls and timer runs came before, a call of a debounced
    function leaves exactly one timeout pending: its own, due [delay]
    after the call and carrying its arguments; every earlier pending call
    is dropped.  [func] is applied with these arguments when that timeout
    runs, not before it is due; and over any history [func] is applied at
    most once per call. *)
Theorem debounce_last_call_wins :
  forall (A : Type) (delay : Q) (tr : list (Q * Debounce.Event A))
         (now : Q) (a : A),
    let s0 := Debounce.run delay tr Debounce.init in
    let s := Debounce.call delay now a s0 in
    (length (Debounce.applied s0) <= calls_in tr)%nat /\
    exists id,
      Debounce.timers s = [Debounce.mkPending id (now + delay)%Q a] /\
      Debounce.timeoutId s = Some id /\
      Debounce.applied s = Debounce.applied s0 /\
      (forall now', (now + delay <= now')%Q ->
         Debounce.applied (Debounce.fire id now' s)
         = Debounce.applied s0 ++ [a] /\
         Debounce.timers (Debounce.fire id now' s) = []) /\
      (forall now', ~ (now + delay <= now')%Q ->
         Debounce.fire id now' s = s).
Proof.
  intros A delay tr now a s0 s.
  assert (Hi : single_pending (@Debounce.init A)) by (left; reflexivity).
  destruct (run_single delay tr Debounce.init Hi) as (H0 & Hc).
  fold s0 in H0, Hc. cbn in Hc.
  split; [lia|].
  destruct (call_single delay now a s0 H0) as (H1 & H2 & H3).
  fold s in H1, H2, H3. clearbody s. clearbody s0.
  exists (Debounce.nextId s0).
  split; [exact H1|]. split; [exact H2|]. split; [exact H3|].
  split.
  - intros now' Hd. apply Qle_bool_iff in Hd.
    unfold Debounce.fire. rewrite H1.
    cbn -[Qle_bool Qplus]. rewrite Nat.eqb_refl.
    cbn -[Qle_bool Qplus]. rewrite Hd.
    cbn -[Qle_bool Qplus]. rewrite ?Nat.eqb_refl, H3. auto.
  - intros now' Hd. unfold Debounce.fire. rewrite H1.
    cbn -[Qle_bool Qplus]. rewrite Nat.eqb_refl.
    cbn -[Qle_bool Qplus].
    destruct (Qle_bool (now + delay) now') eqn:E; [|reflexivity].
    apply Qle_bool_iff in E. contradiction.
Qed.

(** The resize handler of the scroll indicator (delay 100ms): three resize
    events in a burst, then the timer of the last one. *)
Lemma debounce_last_call_wins_witness :
  Debounce.applied
    (Debounce.run 100
       [(0%Q, Debounce.Call 1%nat); (40%Q, Debounce.Call 2%nat);
        (80%Q, Debounce.Call 3%nat); (180%Q, Debounce.Fire 3%nat)]
       Debounce.init)
  = [3%nat].
Proof.
  destruct (debounce_last_call_wins nat 100
              [(0%Q, Debounce.Call 1%nat); (40%Q, Debounce.Call 2%nat)]
              80 3%nat) as (_ & id & H1 & _ & _ & H4 & _).
  cbv zeta in *.
  assert (Hid : id = 3%nat).
  { vm_compute in H1. congruence. }
  subst id.
  destruct (H4 180%Q) as (Ha & _); [vm_compute; discriminate|].
  exact Ha.
Defined.

(** ** Delegated listeners *)

Section DelegatorFacts.

Import EventDelegator.

Lemma find_app_eq {B : Type} (f : B -> bool) (l1 l2 : list B) :
  find f (l1 ++ l2)
  = match find f l1 with Some x => Some x | None => find f l2 end.
Proof.
  induction l1 as [|a l1 IH]; [reflexivity|].
  cbn. destruct (f a); [reflexivity|exact IH].
Qed.

Lemma has_filed k s :
  filed s ->
  has k (delegateMap s) = existsb (fun d => String.eqb k (dkey d)) (attached s).
Proof.
  intros H. unfold has. rewrite H.
  induction (attached s) as [|d l IH]; [reflexivity|].
  cbn. rewrite IH. reflexivity.
Qed.

Lemma first_for_skip k d l1 l2 :
  (String.eqb k (dkey d) = true ->
   existsb (fun d' => String.eqb k (dkey d')) l1 = true) ->
  first_for k (l1 ++ d :: l2) = first_for k (l1 ++ l2).
Proof.
  unfold first_for. induction l1 as [|a l1 IH]; intros H; cbn in *.
  - destruct (String.eqb k (dkey d)); [|reflexivity].
    discriminate (H eq_refl).
  - destruct (String.eqb k (dkey a)); [reflexivity|].
    apply IH. exact H.
Qed.

Lemma register_filed d s :
  filed s ->
  filed (register d s) /\
  (forall k, first_for k (attached (register d s))
             = first_for k (attached s ++ [d])) /\
  (NoDup (map dkey (attached s)) ->
   NoDup (map dkey (attached (register d s)))).
Proof.
  intros H. unfold register, addDelegatedListener. cbv zeta.
  fold (dkey d). rewrite (has_filed _ _ H).
  destruct (existsb _ (attached s)) eqn:E; cbn [negb].
  - split; [exact H|]. split; [|auto].
    intros k. rewrite first_for_skip, app_nil_r; [reflexivity|].
    intros Hk. apply String.eqb_eq in Hk. subst k. exact E.
  - destruct d as [c sel ev h]. cbn.
    split.
    { unfold filed. cbn. rewrite map_app, H. reflexivity. }
    split; [reflexivity|].
    intros Hnd. rewrite map_app. cbn.
    apply NoDup_app; [exact Hnd|repeat constructor; intros []|].
    intros x Hx [Hy|[]]. subst x.
    apply in_map_iff in Hx. destruct Hx as (d' & Hk & Hin).
    assert (Ht : existsb
                   (fun d0 => String.eqb (dkey (mkDelegate c sel ev h))
                                (dkey d0)) (attached s) = true).
    { apply existsb_exists. exists d'. split; [exact Hin|].
      rewrite Hk. apply String.eqb_refl. }
    rewrite Ht in E. discriminate E.
Qed.

Lemma register_all_filed rs : forall s,
  filed s ->
  (forall k, first_for k (attached (register_all rs s))
             = first_for k (attached s ++ rs)) /\
  (NoDup (map dkey (attached s)) ->
   NoDup (map dkey (attached (register_all rs s)))).
Proof.
  induction rs as [|d rs IH]; intros s H.
  - cbn. rewrite app_nil_r. auto.
  - cbn [register_all fold_left].
    destruct (register_filed d s H) as (F1 & F2 & F3).
    destruct (IH (register d s) F1) as (I1 & I2).
    split; [|auto].
    intros k. fold (register_all rs (register d s)). rewrite I1.
    pose proof (F2 k) as F2k.
    unfold first_for in *. rewrite !find_app_eq in *. rewrite F2k.
    cbn [find].
    destruct (find _ (attached s)); [reflexivity|].
    destruct (String.eqb k (dkey d)); reflexivity.
Qed.

Lemma register_twice c1 c2 sel ev h1 h2 s :
  addDelegatedListener c2 sel ev h2 (addDelegatedListener c1 sel ev h1 s)
  = addDelegatedListener c1 sel ev h1 s.
Proof.
  set (s1 := addDelegatedListener c1 sel ev h1 s).
  assert (H : has (key ev sel) (delegateMap s1) = true).
  { subst s1. unfold addDelegatedListener. cbv zeta.
    destruct (has (key ev sel) (delegateMap s)) eqn:E; cbn [negb];
      [exact E|].
    cbn [delegateMap]. unfold has. rewrite existsb_app. cbn [existsb fst].
    rewrite String.eqb_refl. cbn [orb]. apply orb_true_r. }
  unfold addDelegatedListener at 1. cbv zeta. rewrite H. reflexivity.
Qed.

End DelegatorFacts.

(** X14.  The delegator attaches one listener per [event-selector] key:
    after any sequence of registrations the listener attached for a key is
    the first one registered under it, and a later registration under the
    same key, be it for another container or another handler, attaches
    nothing and is recorded nowhere. *)
Theorem delegator_first_registration_wins :
  forall (rs : list EventDelegator.Delegate) (k : String.string)
         (s : EventDelegator.State) (c1 c2 h1 h2 : nat)
         (sel ev : String.string),
    first_for k (EventDelegator.attached (register_all rs EventDelegator.empty))
    = first_for k rs /\
    NoDup (map dkey
             (EventDelegator.attached (register_all rs EventDelegator.empty))) /\
    EventDelegator.addDelegatedListener c2 sel ev h2
      (EventDelegator.addDelegatedListener c1 sel ev h1 s)
    = EventDelegator.addDelegatedListener c1 sel ev h1 s.
Proof.
  intros rs k s c1 c2 h1 h2 sel ev.
  assert (H : filed EventDelegator.empty) by reflexivity.
  destruct (register_all_filed rs EventDelegator.empty H) as (H1 & H2).
  split; [apply H1|].
  split; [apply H2; constructor|].
  apply register_twice.
Qed.

(** ** The scroll indicator *)

Section ScrollFacts.

Import ProjectScroll.

Local Open Scope Q_scope.

Lemma Qmult_le_nonneg_l a b c : 0 <= a -> b <= c -> a * b <= a * c.
Proof.
  intros Ha Hbc. rewrite (Qmult_comm a b), (Qmult_comm a c).
  apply Qmult_le_compat_r; assumption.
Qed.

Lemma Qgt_bool_true x y : Qgt_bool x y = true -> y < x.
Proof.
  unfold Qgt_bool. intros H. apply negb_true_iff in H.
  apply Qnot_le_lt. intros Hle. apply Qle_bool_iff in Hle.
  rewrite Hle in H. discriminate H.
Qed.

Lemma or_else_pos x d : 0 < x -> or_else x d = x.
Proof.
  intros H. unfold or_else. destruct (Qeq_bool x 0) eqn:E; [|reflexivity].
  apply Qeq_bool_iff in E. rewrite E in H. discriminate H.
Qed.

Lemma js_round_bounds x :
  0 <= x ->
  0 <= js_round x /\ js_round x <= x + (1 # 2) /\ x - (1 # 2) < js_round x.
Proof.
  intros H. unfold js_round. split; [|split].
  - change 0 with (inject_Z 0). rewrite <- Zle_Qle.
    change 0%Z with (Qround.Qfloor 0).
    apply Qround.Qfloor_resp_le. lra.
  - apply Qround.Qfloor_le.
  - pose proof (Qround.Qlt_floor (x + (1 # 2))) as Hf.
    rewrite inject_Z_plus in Hf. change (inject_Z 1) with 1 in Hf. lra.
Qed.

(** The geometry [updateThumb] computes when the description overflows. *)
Lemma thumb_geometry s :
  hasOverflow s = true ->
  0 <= clientHeight s ->
  20 <= trackHeight s ->
  0 <= scrollTop s ->
  scrollTop s <= scrollHeight s - clientHeight s ->
  20 <= thumbH s /\ thumbH s <= trackHeight s /\
  0 <= top s /\ top s <= maxThumbTop s.
Proof.
  intros Ho Hc Ht Hs0 Hs1.
  apply Qgt_bool_true in Ho.
  assert (Hsh : 0 < scrollHeight s) by lra.
  assert (Hd : 0 < scrollHeight s - clientHeight s) by lra.
  assert (Hr0 : 0 <= clientHeight s / scrollHeight s).
  { apply Qle_shift_div_l; [exact Hsh|lra]. }
  assert (Hr1 : clientHeight s / scrollHeight s <= 1).
  { apply Qle_shift_div_r; [exact Hsh|lra]. }
  assert (Hth : trackHeight s * (clientHeight s / scrollHeight s)
                <= trackHeight s).
  { rewrite <- (Qmult_1_r (trackHeight s)) at 2.
    apply Qmult_le_nonneg_l; lra. }
  assert (H20 : 20 <= thumbH s) by apply Q.le_max_l.
  assert (Hle : thumbH s <= trackHeight s)
    by (apply Q.max_lub; assumption).
  split; [exact H20|]. split; [exact Hle|].
  unfold top, maxThumbTop. rewrite or_else_pos by exact Hd.
  set (m := trackHeight s - thumbH s).
  assert (Hm : 0 <= m) by (unfold m; lra).
  assert (Hq0 : 0 <= scrollTop s / (scrollHeight s - clientHeight s)).
  { apply Qle_shift_div_l; [exact Hd|lra]. }
  assert (Hq1 : scrollTop s / (scrollHeight s - clientHeight s) <= 1).
  { apply Qle_shift_div_r; [exact Hd|lra]. }
  split.
  - apply Qmult_le_0_compat; assumption.
  - rewrite <- (Qmult_1_r m) at 2. apply Qmult_le_nonneg_l; assumption.
Qed.

Lemma updateThumb_overflow s :
  hasOverflow s = true ->
  updateThumb s = set_thumb true (thumbH s) (js_round (top s * 100) / 100) s.
Proof. intros H. unfold updateThumb. rewrite H. reflexivity. Qed.

Lemma rounded_top_bounds t :
  0 <= t ->
  0 <= js_round (t * 100) / 100 /\
  js_round (t * 100) / 100 <= t + (1 # 200) /\
  t - (1 # 200) <= js_round (t * 100) / 100.
Proof.
  intros Ht.
  destruct (js_round_bounds (t * 100)) as (R0 & R1 & R2); [lra|].
  set (r := js_round (t * 100)) in *.
  assert (E : r / 100 == r * (1 # 100)) by reflexivity.
  rewrite E. lra.
Qed.

End ScrollFacts.

(** X15.  [updateThumb] shows the track exactly when the description
    overflows.  Then, with a track of at least 20px and the scroll
    position within its range, the thumb is between 20px and the track
    height tall, its offset is the exact one rounded to a hundredth of a
    pixel, and it lies inside the track up to that rounding; on a shorter
    track the 20px floor makes the thumb taller than the track. *)
Theorem thumb_stays_in_track :
  forall (s : ProjectScroll.State),
    let s' := ProjectScroll.updateThumb s in
    ProjectScroll.trackShown s' = ProjectScroll.hasOverflow s /\
    (ProjectScroll.hasOverflow s = true ->
     (0 <= ProjectScroll.clientHeight s)%Q ->
     (0 <= ProjectScroll.scrollTop s)%Q ->
     (ProjectScroll.scrollTop s
      <= ProjectScroll.scrollHeight s - ProjectScroll.clientHeight s)%Q ->
     ((20 <= ProjectScroll.trackHeight s)%Q ->
      (20 <= ProjectScroll.thumbHeight s')%Q /\
      (ProjectScroll.thumbHeight s' <= ProjectScroll.trackHeight s)%Q /\
      (0 <= ProjectScroll.thumbTop s')%Q /\
      (ProjectScroll.thumbTop s' + ProjectScroll.thumbHeight s'
       <= ProjectScroll.trackHeight s + (1 # 200))%Q /\
      (ProjectScroll.top s - (1 # 200) <= ProjectScroll.thumbTop s')%Q /\
      (ProjectScroll.thumbTop s' <= ProjectScroll.top s + (1 # 200))%Q) /\
     ((ProjectScroll.trackHeight s < 20)%Q ->
      (ProjectScroll.trackHeight s < ProjectScroll.thumbHeight s')%Q)).
Proof.
  intros s s'. subst s'. split.
  { unfold ProjectScroll.updateThumb.
    destruct (ProjectScroll.hasOverflow s); reflexivity. }
  intros Ho Hc Hs0 Hs1.
  rewrite (updateThumb_overflow s Ho).
  cbn [ProjectScroll.set_thumb ProjectScroll.thumbHeight
       ProjectScroll.thumbTop].
  split.
  - intros Ht.
    destruct (thumb_geometry s Ho Hc Ht Hs0 Hs1) as (G1 & G2 & G3 & G4).
    destruct (rounded_top_bounds (ProjectScroll.top s) G3) as (R0 & R1 & R2).
    unfold ProjectScroll.maxThumbTop in G4.
    repeat split; try assumption; lra.
  - intros Ht.
    apply Qlt_le_trans with (y := 20%Q); [exact Ht|].
    apply Q.le_max_l.
Qed.

Lemma thumb_stays_in_track_witness :
  let s := ProjectScroll.mkState 150 600 200 100 false 0 0 false 0 0 None in
  (ProjectScroll.thumbTop (ProjectScroll.updateThumb s)
   + ProjectScroll.thumbHeight (ProjectScroll.updateThumb s)
   <= 100 + (1 # 200))%Q.
Proof.
  intros s.
  assert (Ho : ProjectScroll.hasOverflow s = true) by reflexivity.
  assert (Hc : (0 <= ProjectScroll.clientHeight s)%Q)
    by (vm_compute; discriminate).
  assert (Hs0 : (0 <= ProjectScroll.scrollTop s)%Q)
    by (vm_compute; discriminate).
  assert (Hs1 : (ProjectScroll.scrollTop s
                 <= ProjectScroll.scrollHeight s
                    - ProjectScroll.clientHeight s)%Q)
    by (vm_compute; discriminate).
  assert (Ht : (20 <= ProjectScroll.trackHeight s)%Q)
    by (vm_compute; discriminate).
  exact (proj1 (proj2 (proj2 (proj2
           (proj1 (proj2 (thumb_stays_in_track s) Ho Hc Hs0 Hs1) Ht))))).
Defined.

(** ** Dragging the thumb *)

Section DragFacts.

Import ProjectScroll.

Local Open Scope Q_scope.

(** The state in which a drag starts at pointer height [y0], right after
    the thumb has been laid out. *)
Lemma drag_start_fields (y0 : Q) s :
  hasOverflow s = true ->
  let s1 := handleMouseDown 0 y0 (updateThumb s) in
  isDragging s1 = true /\ startY s1 = y0 /\
  startScrollTop s1 = scrollTop s /\ thumbHeight s1 = thumbH s /\
  trackHeight s1 = trackHeight s /\ scrollHeight s1 = scrollHeight s /\
  clientHeight s1 = clientHeight s /\ scrollTop s1 = scrollTop s.
Proof.
  intros Ho. rewrite (updateThumb_overflow s Ho). cbn. auto 10.
Qed.

Lemma handleMouseMove_dragging (y : Q) s :
  isDragging s = true ->
  0 < trackHeight s - or_else (thumbHeight s) 20 ->
  0 < scrollHeight s - clientHeight s ->
  handleMouseMove y s
  = set_scrollTop
      (Qmax 0
         (Qmin (scrollHeight s - clientHeight s)
            (startScrollTop s
             + (y - startY s) / (trackHeight s - or_else (thumbHeight s) 20)
               * (scrollHeight s - clientHeight s)))) s.
Proof.
  intros Hd Hm Hs. unfold handleMouseMove. rewrite Hd. cbn [negb].
  cbv zeta.
  destruct (Qle_bool (trackHeight s - or_else (thumbHeight s) 20) 0) eqn:E1.
  { apply Qle_bool_iff in E1. lra. }
  destruct (Qle_bool (scrollHeight s - clientHeight s) 0) eqn:E2.
  { apply Qle_bool_iff in E2. lra. }
  reflexivity.
Qed.

Lemma clamp_range (m x : Q) : 0 <= m -> 0 <= Qmax 0 (Qmin m x) <= m.
Proof.
  intros Hm. split; [apply Q.le_max_l|].
  apply Q.max_lub; [exact Hm|apply Q.le_min_l].
Qed.

Lemma clamp_inside (m x : Q) : 0 <= x -> x <= m -> Qmax 0 (Qmin m x) == x.
Proof.
  intros H0 H1. rewrite (Q.min_r m x) by exact H1.
  apply Q.max_r. exact H0.
Qed.

Lemma move_after_up (y : Q) s :
  handleMouseMove y (handleMouseUp s) = handleMouseUp s.
Proof.
  unfold handleMouseUp. destruct (isDragging s) eqn:E; cbn [negb].
  - unfold handleMouseMove. cbn [isDragging negb]. reflexivity.
  - unfold handleMouseMove. rewrite E. reflexivity.
Qed.

End DragFacts.

(** X16.  Dragging the thumb: from a laid-out indicator with room to
    move, a pointer move during the drag assigns a scroll position within
    the scroll range, and as long as the pointer keeps the thumb inside
    the track, the offset [updateThumb] computes for the new position is
    the old one plus the pointer's displacement.  Once the button is
    released a pointer move changes nothing. *)
Theorem drag_follows_pointer :
  forall (s : ProjectScroll.State) (y0 y : Q),
    ProjectScroll.hasOverflow s = true ->
    (0 <= ProjectScroll.clientHeight s)%Q ->
    (0 < ProjectScroll.maxThumbTop s)%Q ->
    let s1 :=
      ProjectScroll.handleMouseDown 0 y0 (ProjectScroll.updateThumb s) in
    let s2 := ProjectScroll.handleMouseMove y s1 in
    let maxScroll :=
      (ProjectScroll.scrollHeight s - ProjectScroll.clientHeight s)%Q in
    (0 <= ProjectScroll.scrollTop s2)%Q /\
    (ProjectScroll.scrollTop s2 <= maxScroll)%Q /\
    ((0 <= ProjectScroll.top s + (y - y0))%Q ->
     (ProjectScroll.top s + (y - y0) <= ProjectScroll.maxThumbTop s)%Q ->
     (ProjectScroll.top s2 == ProjectScroll.top s + (y - y0))%Q) /\
    ProjectScroll.handleMouseMove y (ProjectScroll.handleMouseUp s2)
    = ProjectScroll.handleMouseUp s2.
Proof.
  intros s y0 y Ho Hc Hm s1 s2 maxScroll.
  destruct (drag_start_fields y0 s Ho)
    as (F1 & F2 & F3 & F4 & F5 & F6 & F7 & F8).
  fold s1 in F1, F2, F3, F4, F5, F6, F7, F8.
  pose proof (Qgt_bool_true _ _ Ho) as Hov.
  assert (Hd : (0 < maxScroll)%Q) by (unfold maxScroll; lra).
  assert (H20 : (20 <= ProjectScroll.thumbH s)%Q) by apply Q.le_max_l.
  assert (Hoe : ProjectScroll.or_else (ProjectScroll.thumbHeight s1) 20
                = ProjectScroll.thumbH s).
  { rewrite F4. apply or_else_pos. lra. }
  assert (Hs2 : s2 = ProjectScroll.set_scrollTop
                  (Qmax 0
                     (Qmin maxScroll
                        (ProjectScroll.scrollTop s
                         + (y - y0) / ProjectScroll.maxThumbTop s
                           * maxScroll))) s1).
  { subst s2. rewrite handleMouseMove_dragging.
    - rewrite Hoe, F2, F3, F5, F6, F7. reflexivity.
    - exact F1.
    - rewrite Hoe, F5. exact Hm.
    - rewrite F6, F7. exact Hd. }
  rewrite Hs2. clear Hs2 s2. clearbody s1.
  cbn [ProjectScroll.set_scrollTop ProjectScroll.scrollTop].
  destruct (clamp_range maxScroll
              (ProjectScroll.scrollTop s
               + (y - y0) / ProjectScroll.maxThumbTop s * maxScroll))
    as (C0 & C1); [lra|].
  split; [exact C0|]. split; [exact C1|].
  split.
  - intros T0 T1.
    unfold ProjectScroll.top at 1. unfold ProjectScroll.maxThumbTop at 1.
    unfold ProjectScroll.thumbH at 1.
    cbn [ProjectScroll.set_scrollTop ProjectScroll.scrollTop
         ProjectScroll.trackHeight ProjectScroll.clientHeight
         ProjectScroll.scrollHeight].
    rewrite F5, F6, F7.
    fold (ProjectScroll.thumbH s). fold (ProjectScroll.maxThumbTop s).
    fold maxScroll.
    rewrite (or_else_pos maxScroll 1 Hd).
    unfold ProjectScroll.top in T0, T1 |- *. fold maxScroll in T0, T1 |- *.
    rewrite (or_else_pos maxScroll 1 Hd) in T0, T1 |- *.
    set (m := ProjectScroll.maxThumbTop s) in *.
    set (st := ProjectScroll.scrollTop s) in *.
    set (dy := (y - y0)%Q) in *.
    assert (Hm0 : ~ m == 0) by (intros E; rewrite E in Hm; discriminate Hm).
    assert (Hd0 : ~ maxScroll == 0)
      by (intros E; rewrite E in Hd; discriminate Hd).
    assert (Ex : (st + dy / m * maxScroll
                  == (m * (st / maxScroll) + dy) * (maxScroll / m))%Q)
      by (field; split; assumption).
    assert (Hk : (0 < maxScroll / m)%Q).
    { apply Qlt_shift_div_l; [exact Hm|]. lra. }
    assert (X0 : (0 <= st + dy / m * maxScroll)%Q).
    { rewrite Ex. apply Qmult_le_0_compat; [exact T0|].
      apply Qlt_le_weak. exact Hk. }
    assert (X1 : (st + dy / m * maxScroll <= maxScroll)%Q).
    { rewrite Ex.
      assert (Em : (maxScroll == m * (maxScroll / m))%Q)
        by (field; assumption).
      rewrite Em at 3.
      apply Qmult_le_compat_r; [exact T1|].
      apply Qlt_le_weak. exact Hk. }
    rewrite (clamp_inside maxScroll _ X0 X1).
    field. split; assumption.
  - apply move_after_up.
Qed.

Lemma drag_follows_pointer_witness :
  let s := ProjectScroll.mkState 150 600 200 100 false 0 0 false 0 0 None in
  let s2 := ProjectScroll.handleMouseMove 40
              (ProjectScroll.handleMouseDown 0 30
                 (ProjectScroll.updateThumb s)) in
  (ProjectScroll.top s2 == ProjectScroll.top s + (40 - 30))%Q.
Proof.
  intros s s2.
  assert (Ho : ProjectScroll.hasOverflow s = true) by reflexivity.
  assert (Hc : (0 <= ProjectScroll.clientHeight s)%Q)
    by (vm_compute; discriminate).
  assert (Hm : (0 < ProjectScroll.maxThumbTop s)%Q)
    by (vm_compute; reflexivity).
  assert (T0 : (0 <= ProjectScroll.top s + (40 - 30))%Q)
    by (vm_compute; discriminate).
  assert (T1 : (ProjectScroll.top s + (40 - 30)
                <= ProjectScroll.maxThumbTop s)%Q)
    by (vm_compute; discriminate).
  exact (proj1 (proj2 (proj2 (drag_follows_pointer s 30 40 Ho Hc Hm)))
           T0 T1).
Defined.

(** ** Clicks on the track *)

(** X17.  A click on the track, outside the thumb and outside a drag,
    asks for the scroll position that is the same fraction of the scroll
    range as the click is of the track height, the fraction being cut to
    the interval from 0 to 1: the target lies within the scroll range, a
    click at the top edge or above asks for the start and one at the
    bottom edge or below for the end.  A click on the thumb or during a
    drag does nothing. *)
Theorem track_click_target :
  forall (s : ProjectScroll.State) (onThumb : bool) (clickY : Q),
    (0 < ProjectScroll.trackHeight s)%Q ->
    (0 <= ProjectScroll.scrollHeight s - ProjectScroll.clientHeight s)%Q ->
    let maxScroll :=
      (ProjectScroll.scrollHeight s - ProjectScroll.clientHeight s)%Q in
    let s' := ProjectScroll.onTrackClick onThumb clickY s in
    (onThumb || ProjectScroll.isDragging s = true -> s' = s) /\
    (onThumb || ProjectScroll.isDragging s = false ->
     ProjectScroll.scrollTop s' = ProjectScroll.scrollTop s /\
     exists t,
       ProjectScroll.scrollTarget s' = Some t /\
       (0 <= t)%Q /\ (t <= maxScroll)%Q /\
       ((clickY <= 0)%Q -> (t == 0)%Q) /\
       ((ProjectScroll.trackHeight s <= clickY)%Q -> (t == maxScroll)%Q) /\
       ((0 <= clickY)%Q -> (clickY <= ProjectScroll.trackHeight s)%Q ->
        (t == clickY / ProjectScroll.trackHeight s * maxScroll)%Q)).
Proof.
  intros s onThumb clickY Ht Hm maxScroll s'. subst s'.
  unfold ProjectScroll.onTrackClick.
  split; intros Hb; rewrite Hb; [reflexivity|].
  cbn [ProjectScroll.scrollTop ProjectScroll.scrollTarget].
  split; [reflexivity|].
  fold maxScroll.
  set (r := (clickY / ProjectScroll.trackHeight s)%Q).
  exists (Qmax 0 (Qmin 1 r) * maxScroll)%Q.
  split; [reflexivity|].
  destruct (clamp_range 1 r) as (C0 & C1); [discriminate|].
  split; [apply Qmult_le_0_compat; assumption|].
  split.
  { rewrite <- (Qmult_1_l maxScroll) at 2.
    apply Qmult_le_compat_r; assumption. }
  split.
  { intros Hy.
    assert (Hr : (r <= 0)%Q).
    { unfold r. apply Qle_shift_div_r; [exact Ht|]. lra. }
    assert (E : (Qmax 0 (Qmin 1 r) == 0)%Q).
    { apply Q.max_l. apply Qle_trans with (y := r); [apply Q.le_min_r|].
      exact Hr. }
    rewrite E. lra. }
  split.
  { intros Hy.
    assert (Hr : (1 <= r)%Q).
    { unfold r. apply Qle_shift_div_l; [exact Ht|]. lra. }
    assert (E : (Qmax 0 (Qmin 1 r) == 1)%Q).
    { rewrite (Q.min_l 1 r) by exact Hr. apply Q.max_r. discriminate. }
    rewrite E. lra. }
  intros Hy0 Hy1.
  assert (Hr0 : (0 <= r)%Q).
  { unfold r. apply Qle_shift_div_l; [exact Ht|]. lra. }
  assert (Hr1 : (r <= 1)%Q).
  { unfold r. apply Qle_shift_div_r; [exact Ht|]. lra. }
  rewrite (clamp_inside 1 r Hr0 Hr1). reflexivity.
Qed.

Lemma track_click_target_witness :
  let s := ProjectScroll.mkState 150 600 200 100 true 34 38 false 0 0 None in
  exists t,
    ProjectScroll.scrollTarget (ProjectScroll.onTrackClick false 120 s)
    = Some t /\ (t == 400)%Q.
Proof.
  intros s.
  assert (Ht : (0 < ProjectScroll.trackHeight s)%Q)
    by (vm_compute; reflexivity).
  assert (Hm : (0 <= ProjectScroll.scrollHeight s
                     - ProjectScroll.clientHeight s)%Q)
    by (vm_compute; discriminate).
  assert (Hb : false || ProjectScroll.isDragging s = false) by reflexivity.
  destruct (proj2 (track_click_target s false 120 Ht Hm) Hb)
    as (_ & t & E & _ & _ & _ & Hend & _).
  exists t. split; [exact E|].
  rewrite Hend; [reflexivity|vm_compute; discriminate].
Defined.

(** ** The frame loop of the scroll indicator *)

Section SchedulerFacts.

Import RafScheduler.

Lemma Callback_eqb_eq a b : Callback_eqb a b = true <-> a = b.
Proof.
  destruct a, b; cbn; split; intros H; try discriminate H;
    try reflexivity.
  - apply Nat.eqb_eq in H. subst. reflexivity.
  - injection H as H. subst. apply Nat.eqb_refl.
Qed.

Lemma existsb_Callback cb l :
  existsb (Callback_eqb cb) l = true <-> In cb l.
Proof.
  rewrite existsb_exists. split.
  - intros (x & Hx & E). apply Callback_eqb_eq in E. subst. exact Hx.
  - intros H. exists cb. split; [exact H|]. apply Callback_eqb_eq.
    reflexivity.
Qed.

Lemma filter_absent cb l :
  ~ In cb l -> filter (fun c => negb (Callback_eqb cb c)) l = l.
Proof.
  induction l as [|a l IH]; intros H; [reflexivity|].
  cbn. destruct (Callback_eqb cb a) eqn:E.
  - apply Callback_eqb_eq in E. subst. exfalso. apply H. left. reflexivity.
  - cbn. rewrite IH; [reflexivity|]. intros Hin. apply H. right. exact Hin.
Qed.

(** [add] of a callback other than the listener keeps the loop alive and
    only grows the set. *)
Lemma add_alive cb s :
  cb <> HandleScroll ->
  loop_alive s ->
  loop_alive (add cb s) /\
  closures (add cb s) = closures s /\
  In cb (callbacks (add cb s)) /\
  (forall c, In c (callbacks s) -> In c (callbacks (add cb s))).
Proof.
  intros Hcb ((id & Hr & Hf) & Hh & Hi & Hc). unfold add. cbv zeta.
  destruct (existsb (Callback_eqb cb) (callbacks s)) eqn:E.
  - rewrite Hr. cbn [isSome].
    apply existsb_Callback in E.
    split; [|auto].
    split; [exists id; auto|auto].
  - cbn [set_callbacks rafId]. rewrite Hr. cbn [isSome].
    cbn [set_callbacks callbacks closures rafId frames].
    split.
    { split; [exists id; auto|].
      split.
      { intros Hin. apply in_app_or in Hin. destruct Hin as [Hin|[Hin|[]]];
          [exact (Hh Hin)|exact (Hcb Hin)]. }
      split; [apply in_or_app; left; exact Hi|].
      intros n Hn. apply in_or_app. left. apply Hc. exact Hn. }
    split; [reflexivity|].
    split; [apply in_or_app; right; left; reflexivity|].
    intros c Hin. apply in_or_app. left. exact Hin.
Qed.

Lemma handleScroll_alive now s :
  loop_alive s ->
  loop_alive (handleScroll now s) /\
  (forall c, In c (callbacks s) -> In c (callbacks (handleScroll now s))) /\
  (closures s <= closures (handleScroll now s))%nat.
Proof.
  intros H. unfold handleScroll.
  destruct (negb (scrollTicking s) && _); [|auto].
  cbv zeta.
  destruct (add_alive (ScrollClosure (closures s)) s) as (A1 & A2 & A3 & A4);
    [discriminate|exact H|].
  destruct A1 as (Af & Ah & Ai & Ac).
  cbn [callbacks closures rafId frames]. rewrite A2.
  split; [|split; [exact A4|lia]].
  split; [exact Af|]. split; [exact Ah|]. split; [exact Ai|].
  cbn [callbacks closures]. intros n Hn.
  destruct (Nat.eq_dec n (closures s)) as [->|Hne]; [exact A3|].
  apply Ac. rewrite A2. lia.
Qed.

(** One callback of a round of [tick]. *)
Lemma call_member now cb s :
  ~ In HandleScroll (callbacks s) ->
  In cb (callbacks s) ->
  callbacks (call now cb s) = callbacks s /\
  rafId (call now cb s) = rafId s /\ frames (call now cb s) = frames s /\
  nextFrame (call now cb s) = nextFrame s /\
  closures (call now cb s) = closures s /\
  layouts (call now cb s) = S (layouts s).
Proof.
  intros Hh Hin. destruct cb; [cbn; auto 10|cbn; auto 10| |contradiction].
  unfold call, remove, updateThumb, set_callbacks.
  cbn [callbacks rafId frames nextFrame closures layouts].
  rewrite (filter_absent HandleScroll _ Hh). auto 10.
Qed.

Lemma tick_round now l : forall s,
  ~ In HandleScroll (callbacks s) ->
  (forall c, In c l -> In c (callbacks s)) ->
  let s' :=
    fold_left
      (fun s cb =>
         if existsb (Callback_eqb cb) (callbacks s) then call now cb s else s)
      l s in
  callbacks s' = callbacks s /\ rafId s' = rafId s /\
  frames s' = frames s /\ nextFrame s' = nextFrame s /\
  closures s' = closures s /\
  layouts s' = (layouts s + length l)%nat.
Proof.
  induction l as [|cb l IH]; intros s Hh Hl.
  - cbn. rewrite Nat.add_0_r. auto 10.
  - cbn [fold_left].
    assert (Hin : In cb (callbacks s)) by (apply Hl; left; reflexivity).
    rewrite (proj2 (existsb_Callback cb (callbacks s)) Hin).
    destruct (call_member now cb s Hh Hin) as (C1 & C2 & C3 & C4 & C5 & C6).
    destruct (IH (call now cb s)) as (I1 & I2 & I3 & I4 & I5 & I6).
    + rewrite C1. exact Hh.
    + intros c Hc. rewrite C1. apply Hl. right. exact Hc.
    + cbv zeta. rewrite I1, I2, I3, I4, I5, I6, C1, C2, C3, C4, C5, C6.
      cbn [length]. repeat split; lia.
Qed.

Lemma fireFrame_alive id now s :
  loop_alive s ->
  loop_alive (fireFrame id now s) /\
  callbacks (fireFrame id now s) = callbacks s /\
  closures (fireFrame id now s) = closures s /\
  (In id (frames s) ->
   layouts (fireFrame id now s)
   = (layouts s + length (callbacks s))%nat).
Proof.
  intros (Hf & Hh & Hi & Hc). unfold fireFrame.
  destruct (existsb (Nat.eqb id) (frames s)) eqn:E.
  - set (s0 := mkState (callbacks s) (rafId s)
                 (filter (fun f => negb (Nat.eqb id f)) (frames s))
                 (nextFrame s) (scrollTicking s) (lastScrollTime s)
                 (closures s) (layouts s)).
    unfold tick. cbv zeta.
    destruct (tick_round now (callbacks s0) s0) as (R1 & R2 & R3 & R4 & R5 & R6);
      [exact Hh|auto|].
    cbv zeta in R1, R2, R3, R4, R5, R6.
    set (s1 := fold_left _ (callbacks s0) s0) in *.
    assert (Hpos : (0 <? length (callbacks s1))%nat = true).
    { apply Nat.ltb_lt. rewrite R1. cbn.
      destruct (callbacks s); [contradiction|cbn; lia]. }
    rewrite Hpos. unfold requestTick.
    cbn [callbacks closures rafId frames layouts].
    rewrite R1, R5, R6. cbn [callbacks closures layouts s0].
    split; [|auto].
    split.
    { exists (nextFrame s1). split; [reflexivity|].
      apply in_or_app. right. left. reflexivity. }
    auto.
  - split; [unfold loop_alive; auto|].
    split; [reflexivity|]. split; [reflexivity|].
    intros Hin. exfalso.
    assert (Ht : existsb (Nat.eqb id) (frames s) = true).
    { apply existsb_exists. exists id. split; [exact Hin|].
      apply Nat.eqb_refl. }
    rewrite Ht in E. discriminate E.
Qed.

Lemma step_alive now e s :
  loop_alive s ->
  loop_alive (step now e s) /\
  (forall c, In c (callbacks s) -> In c (callbacks (step now e s))) /\
  (closures s <= closures (step now e s))%nat.
Proof.
  intros H. destruct e; cbn [step].
  - apply handleScroll_alive. exact H.
  - destruct (add_alive UpdateThumb s) as (A1 & A2 & _ & A4);
      [discriminate|exact H|]. rewrite A2. auto.
  - destruct (add_alive InitUpdate s) as (A1 & A2 & _ & A4);
      [discriminate|exact H|]. rewrite A2. auto.
  - destruct (fireFrame_alive id now s H) as (F1 & F2 & F3 & _).
    rewrite F2, F3. auto.
Qed.

Lemma run_alive tr : forall s,
  loop_alive s ->
  loop_alive (run tr s) /\
  (forall c, In c (callbacks s) -> In c (callbacks (run tr s))) /\
  (closures s <= closures (run tr s))%nat.
Proof.
  induction tr as [|[now e] tr IH]; intros s H.
  - cbn. auto.
  - cbn [run].
    destruct (step_alive now e s H) as (S1 & S2 & S3).
    destruct (IH (step now e s) S1) as (I1 & I2 & I3).
    split; [exact I1|]. split; [auto|lia].
Qed.

Lemma initialized_alive : loop_alive initialized.
Proof.
  unfold loop_alive, frame_pending. cbn.
  split; [exists 1%nat; auto|].
  split; [intros [H|[]]; discriminate H|].
  split; [auto|]. intros n Hn. lia.
Qed.

End SchedulerFacts.

(** X18.  Once the scroll indicator is set up, its frame loop never
    stops: over any history of scroll events, resize timers, loads and
    frames a frame request is pending, because nothing ever leaves the
    callback set: the closures of [handleScroll] hand the listener, not
    themselves, to [remove].  So every closure created by a handled
    scroll stays scheduled together with [initUpdate], and each frame
    lays the thumb out once per callback in the set. *)
Theorem frame_loop_never_stops :
  forall (tr tr' : list (Q * RafScheduler.Event)) (id : nat) (now : Q),
    let s := RafScheduler.run tr RafScheduler.initialized in
    frame_pending s /\
    In RafScheduler.InitUpdate (RafScheduler.callbacks s) /\
    (forall n, (n < RafScheduler.closures s)%nat ->
               In (RafScheduler.ScrollClosure n) (RafScheduler.callbacks s)) /\
    (forall c, In c (RafScheduler.callbacks s) ->
               In c (RafScheduler.callbacks (RafScheduler.run tr' s))) /\
    (In id (RafScheduler.frames s) ->
     RafScheduler.layouts (RafScheduler.fireFrame id now s)
     = (RafScheduler.layouts s + length (RafScheduler.callbacks s))%nat /\
     RafScheduler.callbacks (RafScheduler.fireFrame id now s)
     = RafScheduler.callbacks s).
Proof.
  intros tr tr' id now s.
  destruct (run_alive tr RafScheduler.initialized initialized_alive)
    as (H & _ & _).
  fold s in H.
  destruct (run_alive tr' s H) as (_ & H2 & _).
  destruct (fireFrame_alive id now s H) as (_ & F2 & _ & F4).
  destruct H as (Hf & _ & Hi & Hc).
  auto 10.
Qed.

(** One handled scroll at 40ms and the frames after it: the closure is
    still there two frames later, and the second of them lays the thumb
    out twice. *)
Lemma frame_loop_never_stops_witness :
  let s := RafScheduler.run
             [(40%Q, RafScheduler.EvScroll); (56%Q, RafScheduler.EvFrame 1)]
             RafScheduler.initialized in
  RafScheduler.layouts (RafScheduler.fireFrame 2 72 s)
  = (RafScheduler.layouts s + 2)%nat.
Proof.
  intros s.
  assert (Hin : In 2%nat (RafScheduler.frames s))
    by (vm_compute; left; reflexivity).
  exact (proj1 (proj2 (proj2 (proj2 (proj2
           (frame_loop_never_stops
              [(40%Q, RafScheduler.EvScroll); (56%Q, RafScheduler.EvFrame 1)]
              [] 2 72)))) Hin)).
Defined.

(** ** Idle tasks *)

Section IdleFacts.

Import IdleScheduler.

Lemma drain_split allow ts : forall i done,
  snd (drain allow i ts done) ++ fst (drain allow i ts done) = done ++ ts.
Proof.
  induction ts as [|t ts IH]; intros i done; cbn.
  - reflexivity.
  - destruct (allow i); cbn; [|reflexivity].
    rewrite IH, <- app_assoc. reflexivity.
Qed.

Lemma drain_all allow ts : forall i done,
  (forall j, allow j = true) ->
  drain allow i ts done = ([], done ++ ts).
Proof.
  induction ts as [|t ts IH]; intros i done H; cbn.
  - rewrite app_nil_r. reflexivity.
  - rewrite H, IH by exact H. rewrite <- app_assoc. reflexivity.
Qed.

Lemma schedule_ok sched t s :
  queue_ok sched s -> queue_ok (sched ++ [t]) (schedule t s).
Proof.
  intros (H1 & H2 & H3). unfold schedule. cbv zeta. cbn [running].
  destruct (running s) eqn:E; cbn [negb].
  - unfold queue_ok. cbn. rewrite ?E.
    split; [rewrite app_assoc, H1; reflexivity|].
    split; intros _; apply H3; reflexivity.
  - unfold queue_ok, scheduleNext. cbn. rewrite ?E.
    split; [rewrite app_assoc, H1; reflexivity|].
    split; [intros _; lia|discriminate].
Qed.

Lemma runTasks_ok sched allow s :
  executed s ++ tasks s = sched -> queue_ok sched (runTasks allow s).
Proof.
  intros H. unfold runTasks.
  pose proof (drain_split allow (tasks s) 0 (executed s)) as Hd.
  destruct (drain allow 0 (tasks s) (executed s)) as [ts done].
  cbn [fst snd] in Hd. cbv zeta. cbn [length tasks].
  destruct ts as [|t ts]; cbn.
  - unfold queue_ok. cbn. rewrite Hd, H.
    split; [reflexivity|]. split; [intros C; contradiction|discriminate].
  - unfold queue_ok. cbn. rewrite Hd, H.
    split; [reflexivity|]. split; intros _; lia.
Qed.

Lemma idle_ok sched allow s :
  queue_ok sched s -> queue_ok sched (idle allow s).
Proof.
  intros H. unfold idle. destruct (pending s) eqn:E; [exact H|].
  apply runTasks_ok. cbn. apply H.
Qed.

Lemma run_ok tr : forall sched s,
  queue_ok sched s -> queue_ok (sched ++ scheduled tr) (run tr s).
Proof.
  induction tr as [|e tr IH]; intros sched s H.
  - cbn. rewrite app_nil_r. exact H.
  - unfold run. cbn [fold_left]. fold (run tr (step e s)).
    destruct e as [t|allow]; cbn [step scheduled flat_map].
    + rewrite app_assoc. apply IH. apply schedule_ok. exact H.
    + cbn [app]. apply IH. apply idle_ok. exact H.
Qed.

End IdleFacts.

(** X19.  The idle scheduler runs the tasks it is given in the order they
    were scheduled, each once: over any history of [schedule] calls and
    idle callbacks, the tasks run followed by the tasks still queued are
    exactly the tasks scheduled; a callback is requested as long as a
    task is queued, and one callback with enough time runs all that is
    queued. *)
Theorem idle_tasks_run_in_order :
  forall (tr : list IdleScheduler.Event) (allow : nat -> bool),
    let s := IdleScheduler.run tr IdleScheduler.init in
    IdleScheduler.executed s ++ IdleScheduler.tasks s = scheduled tr /\
    (IdleScheduler.tasks s <> [] -> (1 <= IdleScheduler.pending s)%nat) /\
    ((forall i, allow i = true) ->
     (1 <= IdleScheduler.pending s)%nat ->
     IdleScheduler.executed (IdleScheduler.idle allow s) = scheduled tr /\
     IdleScheduler.tasks (IdleScheduler.idle allow s) = [] /\
     IdleScheduler.running (IdleScheduler.idle allow s) = false).
Proof.
  intros tr allow s.
  assert (H0 : queue_ok [] IdleScheduler.init).
  { unfold queue_ok. cbn. split; [reflexivity|].
    split; [intros C; contradiction|discriminate]. }
  pose proof (run_ok tr [] IdleScheduler.init H0) as H. fold s in H.
  cbn [app] in H. destruct H as (H1 & H2 & _).
  split; [exact H1|]. split; [exact H2|].
  intros Ha Hp. unfold IdleScheduler.idle.
  destruct (IdleScheduler.pending s) as [|n]; [lia|].
  unfold IdleScheduler.runTasks.
  cbn [IdleScheduler.tasks IdleScheduler.executed].
  rewrite (drain_all allow _ 0%nat _ Ha). cbn. rewrite H1. auto.
Qed.

(** The page schedules its one idle task at start-up; the first idle
    callback runs it. *)
Lemma idle_tasks_run_in_order_witness :
  IdleScheduler.executed
    (IdleScheduler.idle (fun _ => true)
       (IdleScheduler.run [IdleScheduler.Schedule 1] IdleScheduler.init))
  = [1%nat].
Proof.
  assert (Ha : forall i : nat, (fun _ : nat => true) i = true)
    by reflexivity.
  assert (Hp : (1 <= IdleScheduler.pending
                      (IdleScheduler.run [IdleScheduler.Schedule 1]
                         IdleScheduler.init))%nat)
    by (vm_compute; lia).
  exact (proj1 (proj2 (proj2
           (idle_tasks_run_in_order [IdleScheduler.Schedule 1]
              (fun _ => true))) Ha Hp)).
Defined.

(** ** The filter buttons *)

Section FilterFacts.

Import Filters.

Lemma set_nth_only i : forall (l : list bool),
  (i < length l)%nat ->
  only_active i (set_nth i (map (fun _ => false) l)).
Proof.
  induction i as [|i IH]; intros [|b l] Hl j; cbn -[Qle_bool Qplus] in Hl; try lia.
  - destruct j as [|j]; cbn -[Qle_bool Qplus]; [reflexivity|].
    clear. revert j. induction l as [|a l IHl]; intros [|j]; cbn -[Qle_bool Qplus]; auto.
  - destruct j as [|j]; cbn -[Qle_bool Qplus]; [reflexivity|].
    apply IH. lia.
Qed.

Lemma set_nth_length i : forall (l : list bool),
  length (set_nth i l) = length l.
Proof.
  induction i as [|i IH]; intros [|b l]; cbn -[Qle_bool Qplus]; auto.
Qed.

Lemma step_guarded now e s : guarded s -> guarded (step now e s).
Proof.
  unfold guarded. intros H. destruct e as [i|id|p|]; cbn [step].
  - unfold click. cbn -[Qle_bool Qplus].
    destruct (animGuard s) as [g|].
    + destruct H as (due & H). rewrite H. cbn -[Qle_bool Qplus]. rewrite Nat.eqb_refl. cbn -[Qle_bool Qplus].
      eexists. reflexivity.
    + destruct H as (H & _). rewrite H. cbn -[Qle_bool Qplus]. eexists. reflexivity.
  - unfold guard.
    destruct (animGuard s) as [g|] eqn:Eg.
    + destruct H as (due & H). rewrite H. cbn -[Qle_bool Qplus].
      destruct (Nat.eqb id g) eqn:E; cbn -[Qle_bool Qplus].
      * destruct (Qle_bool due now); cbn -[Qle_bool Qplus].
        -- rewrite ?E. cbn -[Qle_bool Qplus]. auto.
        -- rewrite ?Eg. exists due. exact H.
      * rewrite ?Eg. exists due. exact H.
    + destruct H as (H & Ha). rewrite H. cbn -[Qle_bool Qplus]. rewrite ?Eg. auto.
  - unfold transitionEnd. destruct p; [|exact H].
    destruct (animGuard s) as [g|] eqn:Eg; cbn -[Qle_bool Qplus].
    + destruct H as (due & H). rewrite H. cbn -[Qle_bool Qplus]. rewrite Nat.eqb_refl. auto.
    + rewrite ?Eg. destruct H as (H & _). auto.
  - unfold resize. destruct (existsb _ _); [|exact H]. cbn -[Qle_bool Qplus].
    destruct (animGuard s) as [g|]; [exact H|].
    destruct H as (H & _). auto.
Qed.

Lemma run_guarded tr : forall s, guarded s -> guarded (run tr s).
Proof.
  induction tr as [|[now e] tr IH]; intros s H; [exact H|].
  cbn [run]. apply IH. apply step_guarded. exact H.
Qed.

Lemma step_length now e s :
  length (activeClass (step now e s)) = length (activeClass s).
Proof.
  destruct e as [i|id|p|]; cbn [step].
  - unfold click. cbn -[Qle_bool Qplus]. rewrite set_nth_length, length_map. reflexivity.
  - unfold guard. destruct (find _ _) as [t|]; [|reflexivity].
    destruct (Qle_bool _ now); reflexivity.
  - unfold transitionEnd. destruct p; [|reflexivity].
    destruct (animGuard s); reflexivity.
  - unfold resize. destruct (existsb _ _); reflexivity.
Qed.

Lemma run_length tr : forall s,
  length (activeClass (run tr s)) = length (activeClass s).
Proof.
  induction tr as [|[now e] tr IH]; intros s; [reflexivity|].
  cbn [run]. rewrite IH. apply step_length.
Qed.

End FilterFacts.

(** X20.  The filter buttons: whatever clicks, guard timers, transition
    ends and resizes came before, a click on a button leaves that button
    and no other active and the container animating with exactly one
    guard timeout pending, due 600ms later; when that timeout runs, or
    when the selector's transform transition ends, the animation class is
    removed and no timeout is left.  At no point is the class present
    without a guard timeout pending. *)
Theorem filter_click_guarded :
  forall (cls : list bool) (tr : list (Q * Filters.Event)) (i : nat)
         (now now' : Q),
    let s0 := Filters.run tr (Filters.init cls) in
    let s := Filters.click i now s0 in
    (Filters.animating s0 = true -> Filters.timers s0 <> []) /\
    ((i < length cls)%nat -> only_active i (Filters.activeClass s)) /\
    Filters.animating s = true /\
    (exists g,
       Filters.animGuard s = Some g /\
       Filters.timers s = [(g, (now + 600)%Q)] /\
       ((now + 600 <= now')%Q ->
        Filters.animating (Filters.guard g now' s) = false /\
        Filters.timers (Filters.guard g now' s) = []) /\
       (~ (now + 600 <= now')%Q -> Filters.guard g now' s = s)) /\
    Filters.animating (Filters.transitionEnd true s) = false /\
    Filters.timers (Filters.transitionEnd true s) = [].
Proof.
  intros cls tr i now now' s0 s.
  assert (H0 : guarded (Filters.init cls)) by (cbn -[Qle_bool Qplus]; auto).
  pose proof (run_guarded tr _ H0) as Hg. fold s0 in Hg.
  pose proof (run_length tr (Filters.init cls)) as Hl. fold s0 in Hl.
  cbn -[Qle_bool Qplus] in Hl.
  assert (Hts : Filters.timers s = [(Filters.nextId s0, (now + 600)%Q)]).
  { subst s. unfold Filters.click. cbn -[Qle_bool Qplus]. unfold guarded in Hg.
    destruct (Filters.animGuard s0) as [g|].
    - destruct Hg as (due & Hg). rewrite Hg. cbn -[Qle_bool Qplus]. rewrite Nat.eqb_refl.
      reflexivity.
    - destruct Hg as (Hg & _). rewrite Hg. reflexivity. }
  split.
  { intros Ha Ht. unfold guarded in Hg.
    destruct (Filters.animGuard s0) as [g|].
    - destruct Hg as (due & Hg). rewrite Hg in Ht. discriminate Ht.
    - destruct Hg as (_ & Hg). rewrite Hg in Ha. discriminate Ha. }
  split.
  { intros Hi. subst s. cbn -[Qle_bool Qplus]. apply set_nth_only. rewrite Hl. exact Hi. }
  split; [reflexivity|].
  split.
  { exists (Filters.nextId s0). split; [reflexivity|].
    split; [exact Hts|].
    unfold Filters.guard. rewrite Hts. cbn [find fst snd].
    rewrite Nat.eqb_refl. cbn [snd].
    split.
    - intros Hd. apply Qle_bool_iff in Hd. rewrite Hd.
      cbn -[Qle_bool Qplus]. rewrite ?Nat.eqb_refl. auto.
    - intros Hd. destruct (Qle_bool (now + 600) now') eqn:E; [|reflexivity].
      apply Qle_bool_iff in E. contradiction. }
  unfold Filters.transitionEnd.
  assert (Hgd : Filters.animGuard s = Some (Filters.nextId s0))
    by reflexivity.
  rewrite Hgd. cbn [Filters.animating Filters.timers]. rewrite Hts. cbn -[Qle_bool Qplus].
  rewrite Nat.eqb_refl. auto.
Qed.

Lemma filter_click_guarded_witness :
  only_active 2
    (Filters.activeClass
       (Filters.click 2 50
          (Filters.run [(0%Q, Filters.Click 1)]
             (Filters.init [true; false; false])))) /\
  Filters.animating
    (Filters.guard 2 650
       (Filters.click 2 50
          (Filters.run [(0%Q, Filters.Click 1)]
             (Filters.init [true; false; false])))) = false.
Proof.
  destruct (filter_click_guarded [true; false; false]
              [(0%Q, Filters.Click 1)] 2 50 650)
    as (_ & H1 & _ & (g & Hg & _ & Hf & _) & _).
  split; [apply H1; cbn -[Qle_bool Qplus]; lia|].
  assert (E : g = 2%nat) by (cbn -[Qle_bool Qplus] in Hg; congruence).
  subst g. apply Hf. vm_compute. discriminate.
Defined.

